(** * OpenNote: capsule generation pipeline and structured-output repair

    A shallow embedding of
      - [convex/capsuleGeneration.ts] (the generation handlers),
      - [convex/capsules.ts] (the store mutations they call and the queries
        [getGenerationJob] and [getCapsuleWithContent]),
      - the JSON validation and repair pipeline ([validateAndCorrectJson],
        [stripMarkdownFences], [fixLatexEscapes], [removeEmptyArrays]),
      - the notes quiz schema ([sectionQuizSchema]),
    followed by the properties established about them.

    Conventions.  A JavaScript string is the list of its UTF-16 code units
    ([jsstring]); [str] turns an ASCII literal into one.  A thrown value is
    an [Error], kept as its message.  A document table is a list whose
    positions are the document ids; [deleteCapsule], which the pipeline never
    calls, is left out.  [Date.now()] reads the [now] field of the store.
    Counters and indices are natural numbers, [maxAttempts] an integer.
    The built-ins [JSON.parse] and [JSON.stringify] and the answers of the
    model are parameters of the functions that use them; a reference reader
    and writer for JSON serve to run the functions on concrete documents.
    A document of the model is the JSON value it is, whatever interface the
    code casts it to; a [TypeError] and an [ArgumentValidationError] are
    kept by their names.  Logging is left out. *)

From Stdlib Require Import ZArith NArith Lia Bool String Ascii DecimalString Sorted.
From stdpp Require Import base tactics option list sorting.

Local Open Scope N_scope.
Local Set Warnings "-register-all".

(* ===================================================================== *)
(** * Part I. Definitions                                                 *)
(* ===================================================================== *)

(** ** JavaScript strings *)

Definition jsstring := list N.

Definition str (s : string) : jsstring :=
  map N_of_ascii (list_ascii_of_string s).

Arguments str : simpl never.

Definition jsstring_eqb (a b : jsstring) : bool :=
  bool_decide (a = b).

(** The code units matched by [\s] and removed by [String.prototype.trim]. *)
Definition is_space (c : N) : bool :=
  (9 <=? c) && (c <=? 13) || (c =? 32) || (c =? 160) || (c =? 5760)
  || (8192 <=? c) && (c <=? 8202) || (c =? 8232) || (c =? 8233)
  || (c =? 8239) || (c =? 8287) || (c =? 12288) || (c =? 65279).

(** Line terminators, as seen by [^] and [$] under the [m] flag. *)
Definition is_line_terminator (c : N) : bool :=
  (c =? 10) || (c =? 13) || (c =? 8232) || (c =? 8233).

(** [a-zA-Z] *)
Definition is_letter (c : N) : bool :=
  (97 <=? c) && (c <=? 122) || (65 <=? c) && (c <=? 90).

Fixpoint trimStart (s : jsstring) : jsstring :=
  match s with
  | c :: t => if is_space c then trimStart t else s
  | [] => []
  end.

Definition trimEnd (s : jsstring) : jsstring := rev (trimStart (rev s)).

(** [String.prototype.trim] *)
Definition trim (s : jsstring) : jsstring := trimEnd (trimStart s).

(** [s.slice(from, to)] for [0 <= from], [0 <= to]. *)
Definition slice (from to : nat) (s : jsstring) : jsstring :=
  take (to - from) (drop from s).

(** [s.indexOf(c)] and [s.lastIndexOf(c)] for a one-unit needle; [None] is -1. *)
Fixpoint indexOf (c : N) (s : jsstring) : option nat :=
  match s with
  | [] => None
  | x :: t => if x =? c then Some 0%nat else S <$> indexOf c t
  end.

Definition lastIndexOf (c : N) (s : jsstring) : option nat :=
  (fun i => (length s - 1 - i)%nat) <$> indexOf c (rev s).

(** Decimal rendering of a non-negative integer, as in a template literal. *)
Definition decimal (n : nat) : jsstring :=
  str (NilZero.string_of_uint (Nat.to_uint n)).

(** ** Results of fallible code: a value, or a thrown [Error] with its message *)

Inductive outcome (A : Type) :=
| Ok (a : A)
| Throw (message : jsstring).
Arguments Ok {A} a.
Arguments Throw {A} message.

Arguments decimal : simpl never.

(** ** Regular expressions

    The fragment of ECMAScript regular expressions used by the sources, with
    the backtracking priorities of the language: a greedy quantifier tries
    the longest repetition first, a lazy one the shortest, and the first
    successful path wins.  The matcher is written in continuation-passing
    style: [run r k s] matches [r] at state [s] and hands the state reached
    to [k]; failure of [k] makes the matcher backtrack. *)

Module Regex.

Inductive re :=
| Chr (c : N)                    (* a literal code unit *)
| Cls (p : N -> bool)            (* a character class *)
| Cat (r1 r2 : re)               (* r1 r2 *)
| Opt (r : re)                   (* r?  (greedy) *)
| Star (p : N -> bool)           (* [p]*  (greedy) *)
| StarLazy (p : N -> bool)       (* [p]*? *)
| Bol                            (* ^ with the m flag *)
| Eol                            (* $ with the m flag *)
| Grp (r : re)                   (* capture group 1 *)
| NotBehind (c : N)              (* (?<!c) *)
| NotAhead (p : N -> bool)       (* (?![p]) *)
| Eps.

(** A literal word. *)
Fixpoint lit (w : jsstring) : re :=
  match w with
  | [] => Eps
  | c :: t => Cat (Chr c) (lit t)
  end.

Definition any : N -> bool := fun _ => true.      (* [\s\S] *)

Record mstate := MState {
  m_prev : option N;          (* the code unit before the position *)
  m_rest : jsstring;          (* the input from the position on *)
  m_pos : nat;                (* the position *)
  m_cap : option (nat * nat)  (* start and end of capture group 1 *)
}.

Definition K := mstate -> option mstate.

Fixpoint star_greedy (p : N -> bool) (k : K) (prev : option N)
    (rest : jsstring) (pos : nat) (cap : option (nat * nat)) : option mstate :=
  match rest with
  | c :: t =>
      if p c then
        match star_greedy p k (Some c) t (S pos) cap with
        | Some m => Some m
        | None => k (MState prev rest pos cap)
        end
      else k (MState prev rest pos cap)
  | [] => k (MState prev rest pos cap)
  end.

Fixpoint star_lazy (p : N -> bool) (k : K) (prev : option N)
    (rest : jsstring) (pos : nat) (cap : option (nat * nat)) : option mstate :=
  match k (MState prev rest pos cap) with
  | Some m => Some m
  | None =>
      match rest with
      | c :: t => if p c then star_lazy p k (Some c) t (S pos) cap else None
      | [] => None
      end
  end.

Fixpoint run (r : re) (k : K) (s : mstate) : option mstate :=
  match r with
  | Eps => k s
  | Chr c =>
      match m_rest s with
      | x :: t => if x =? c then k (MState (Some x) t (S (m_pos s)) (m_cap s)) else None
      | [] => None
      end
  | Cls p =>
      match m_rest s with
      | x :: t => if p x then k (MState (Some x) t (S (m_pos s)) (m_cap s)) else None
      | [] => None
      end
  | Cat r1 r2 => run r1 (run r2 k) s
  | Opt r1 =>
      match run r1 k s with
      | Some m => Some m
      | None => k s
      end
  | Star p => star_greedy p k (m_prev s) (m_rest s) (m_pos s) (m_cap s)
  | StarLazy p => star_lazy p k (m_prev s) (m_rest s) (m_pos s) (m_cap s)
  | Bol =>
      match m_prev s with
      | None => k s
      | Some c => if is_line_terminator c then k s else None
      end
  | Eol =>
      match m_rest s with
      | [] => k s
      | c :: _ => if is_line_terminator c then k s else None
      end
  | Grp r1 =>
      run r1 (fun s' => k (MState (m_prev s') (m_rest s') (m_pos s')
                                  (Some (m_pos s, m_pos s')))) s
  | NotBehind c =>
      match m_prev s with
      | Some x => if x =? c then None else k s
      | None => k s
      end
  | NotAhead p =>
      match m_rest s with
      | x :: _ => if p x then None else k s
      | [] => k s
      end
  end.

(** The match at one position. *)
Definition match_at (r : re) (prev : option N) (rest : jsstring) (pos : nat)
  : option mstate :=
  run r Some (MState prev rest pos None).

(** Leftmost match, as [RegExp.prototype.exec] without the [g] flag:
    start position and final matcher state. *)
Fixpoint search (r : re) (prev : option N) (rest : jsstring) (pos : nat)
  : option (nat * mstate) :=
  match match_at r prev rest pos with
  | Some m => Some (pos, m)
  | None =>
      match rest with
      | [] => None
      | c :: t => search r (Some c) t (S pos)
      end
  end.

(** [s.match(r)[1]]: [None] when there is no match, [Some None] when the
    group did not take part, [Some (Some w)] when it captured [w]. *)
Definition match_group1 (r : re) (s : jsstring) : option (option jsstring) :=
  match search r None s 0%nat with
  | None => None
  | Some (_, m) =>
      Some (match m_cap m with
            | Some (a, b) => Some (slice a b s)
            | None => None
            end)
  end.

(** [s.replace(r, repl)] with the [g] flag, for a replacement text without
    [$] patterns.  The lookbehind of a later match reads the input, not the
    output.  [fuel] bounds the number of positions visited. *)
Fixpoint replace_from (fuel : nat) (r : re) (repl : jsstring)
    (prev : option N) (rest : jsstring) (pos : nat) : jsstring :=
  match fuel with
  | O => rest
  | S fuel' =>
      match match_at r prev rest pos with
      | Some m =>
          if (m_pos m =? pos)%nat then
            match rest with
            | [] => repl
            | c :: t => repl ++ c :: replace_from fuel' r repl (Some c) t (S pos)
            end
          else repl ++ replace_from fuel' r repl (m_prev m) (m_rest m) (m_pos m)
      | None =>
          match rest with
          | [] => []
          | c :: t => c :: replace_from fuel' r repl (Some c) t (S pos)
          end
      end
  end.

Definition replace_all (r : re) (repl : jsstring) (s : jsstring) : jsstring :=
  replace_from (S (length s)) r repl None s 0%nat.

End Regex.

(** ** JSON values

    What [JSON.parse] returns.  A number is identified by its canonical
    decimal rendering (the text [Number.prototype.toString] gives); the code
    modelled here computes with the numbers of a document in one place, the
    sum of lesson counts in [generateOutline], which is kept as the sum it
    is.  An object is the list of its own properties in enumeration order. *)

Module Json.

Inductive json :=
| JNull
| JBool (b : bool)
| JNum (lit : jsstring)
| JStr (s : jsstring)
| JArr (items : list json)
| JObj (fields : list (jsstring * json)).

Definition is_empty_array (v : json) : bool :=
  match v with
  | JArr [] => true
  | _ => false
  end.

(** Property read [o.k] on a value; [None] is [undefined]. *)
Fixpoint assoc (k : jsstring) (fs : list (jsstring * json)) : option json :=
  match fs with
  | [] => None
  | (k', v) :: t => if jsstring_eqb k k' then Some v else assoc k t
  end.

Definition prop (k : string) (o : json) : option json :=
  match o with
  | JObj fs => assoc (str k) fs
  | _ => None
  end.

Definition prop_array (k : string) (o : json) : option (list json) :=
  match prop k o with
  | Some (JArr l) => Some l
  | _ => None
  end.

(** JavaScript truthiness of a JSON value. *)
Definition truthy (v : json) : bool :=
  match v with
  | JNull => false
  | JBool b => b
  | JNum l => negb (jsstring_eqb l (str "0"))
  | JStr s => negb (jsstring_eqb s [])
  | JArr _ | JObj _ => true
  end.

(** *** Reference reader for JSON text

    [JSON.parse] is a built-in; the general results below take it as a
    parameter.  [JSON_parse] is a reader for the JSON grammar used to
    evaluate the pipeline on concrete documents.  It reads integer number
    literals in canonical form only and reports any other number literal
    as an error; its error text stands for the engine's message. *)

Definition is_json_ws (c : N) : bool :=
  (c =? 9) || (c =? 10) || (c =? 13) || (c =? 32).

Fixpoint skip_ws (s : jsstring) : jsstring :=
  match s with
  | c :: t => if is_json_ws c then skip_ws t else s
  | [] => []
  end.

Definition is_digit (c : N) : bool := (48 <=? c) && (c <=? 57).

Definition hex_value (c : N) : option N :=
  if is_digit c then Some (c - 48)
  else if (97 <=? c) && (c <=? 102) then Some (c - 87)
  else if (65 <=? c) && (c <=? 70) then Some (c - 55)
  else None.

Definition hex4 (a b c d : N) : option N :=
  match hex_value a, hex_value b, hex_value c, hex_value d with
  | Some x, Some y, Some z, Some w => Some (((x * 16 + y) * 16 + z) * 16 + w)
  | _, _, _, _ => None
  end.

(** The characters of a string literal after its opening quote. *)
Fixpoint read_chars (s acc : jsstring) : option (jsstring * jsstring) :=
  match s with
  | [] => None
  | c :: t =>
      if c =? 34 then Some (rev acc, t)
      else if c =? 92 then
        match t with
        | e :: t1 =>
            if (e =? 34) || (e =? 92) || (e =? 47) then read_chars t1 (e :: acc)
            else if e =? 98 then read_chars t1 (8 :: acc)
            else if e =? 102 then read_chars t1 (12 :: acc)
            else if e =? 110 then read_chars t1 (10 :: acc)
            else if e =? 114 then read_chars t1 (13 :: acc)
            else if e =? 116 then read_chars t1 (9 :: acc)
            else if e =? 117 then
              match t1 with
              | h1 :: h2 :: h3 :: h4 :: t2 =>
                  match hex4 h1 h2 h3 h4 with
                  | Some u => read_chars t2 (u :: acc)
                  | None => None
                  end
              | _ => None
              end
            else None
        | [] => None
        end
      else if c <? 32 then None
      else read_chars t (c :: acc)
  end.

Fixpoint take_digits (s : jsstring) : jsstring * jsstring :=
  match s with
  | c :: t => if is_digit c then let '(d, r) := take_digits t in (c :: d, r)
              else ([], s)
  | [] => ([], [])
  end.

(** An integer literal: [0] or a non-zero digit followed by digits, with
    an optional minus sign, at most 15 digits, not [-0]. *)
Definition read_number (s : jsstring) : option (json * jsstring) :=
  let '(sign, s1) := match s with
                     | c :: t => if c =? 45 then ([45], t) else ([], s)
                     | [] => ([], [])
                     end in
  let '(ds, r) := take_digits s1 in
  let more := match r with
              | c :: _ => (c =? 46) || (c =? 101) || (c =? 69)
              | [] => false
              end in
  match ds with
  | [] => None
  | d :: ds' =>
      if more then None
      else if (15 <? length ds)%nat then None
      else if (d =? 48) && negb (bool_decide (ds' = [])) then None
      else if (d =? 48) && negb (bool_decide (sign = [])) then None
      else Some (JNum (sign ++ ds), r)
  end.

(** A key that is a canonical array index; such keys are enumerated
    first, in ascending numeric order. *)
Definition index_key (k : jsstring) : option N :=
  match k with
  | [] => None
  | d :: ds =>
      if forallb is_digit k && negb ((d =? 48) && negb (bool_decide (ds = []))) then
        let n := fold_left (fun a c => a * 10 + (c - 48)) k 0 in
        if n <? 4294967295 then Some n else None
      else None
  end.

Definition key_before (k k' : jsstring) : bool :=
  match index_key k, index_key k' with
  | Some n, Some n' => n <? n'
  | Some _, None => true
  | None, _ => false
  end.

(** Defining property [k] of an object under construction: a repeated key
    keeps its place and takes the later value. *)
Fixpoint obj_put (k : jsstring) (v : json) (fs : list (jsstring * json))
  : list (jsstring * json) :=
  match fs with
  | [] => [(k, v)]
  | (k', v') :: t =>
      if jsstring_eqb k k' then (k, v) :: t
      else if key_before k k' then (k, v) :: (k', v') :: t
      else (k', v') :: obj_put k v t
  end.

Definition starts_with (w s : jsstring) : option jsstring :=
  if bool_decide (take (length w) s = w) then Some (drop (length w) s) else None.

Fixpoint read_value (fuel : nat) (s : jsstring) : option (json * jsstring) :=
  match fuel with
  | O => None
  | S fuel' =>
      match skip_ws s with
      | [] => None
      | c :: t =>
          if c =? 123 then
            match skip_ws t with
            | c' :: t' => if c' =? 125 then Some (JObj [], t')
                          else read_members fuel' [] t
            | [] => None
            end
          else if c =? 91 then
            match skip_ws t with
            | c' :: t' => if c' =? 93 then Some (JArr [], t')
                          else read_elements fuel' [] t
            | [] => None
            end
          else if c =? 34 then
            match read_chars t [] with
            | Some (w, r) => Some (JStr w, r)
            | None => None
            end
          else if (c =? 45) || is_digit c then read_number (c :: t)
          else
            match starts_with (str "true") (c :: t) with
            | Some r => Some (JBool true, r)
            | None =>
                match starts_with (str "false") (c :: t) with
                | Some r => Some (JBool false, r)
                | None =>
                    match starts_with (str "null") (c :: t) with
                    | Some r => Some (JNull, r)
                    | None => None
                    end
                end
            end
      end
  end
with read_elements (fuel : nat) (acc : list json) (s : jsstring)
  : option (json * jsstring) :=
  match fuel with
  | O => None
  | S fuel' =>
      match read_value fuel' s with
      | Some (v, r) =>
          match skip_ws r with
          | c :: t =>
              if c =? 44 then read_elements fuel' (v :: acc) t
              else if c =? 93 then Some (JArr (rev (v :: acc)), t)
              else None
          | [] => None
          end
      | None => None
      end
  end
with read_members (fuel : nat) (acc : list (jsstring * json)) (s : jsstring)
  : option (json * jsstring) :=
  match fuel with
  | O => None
  | S fuel' =>
      match skip_ws s with
      | q :: t =>
          if q =? 34 then
            match read_chars t [] with
            | Some (k, r) =>
                match skip_ws r with
                | c :: r1 =>
                    if c =? 58 then
                      match read_value fuel' r1 with
                      | Some (v, r2) =>
                          match skip_ws r2 with
                          | c2 :: r3 =>
                              if c2 =? 44 then read_members fuel' (obj_put k v acc) r3
                              else if c2 =? 125 then Some (JObj (obj_put k v acc), r3)
                              else None
                          | [] => None
                          end
                      | None => None
                      end
                    else None
                | [] => None
                end
            | None => None
            end
          else None
      | [] => None
      end
  end.

Definition syntax_error : jsstring := str "Unexpected token in JSON".

Definition JSON_parse (s : jsstring) : outcome json :=
  match read_value (S (length s)) s with
  | Some (v, r) =>
      match skip_ws r with
      | [] => Ok v
      | _ :: _ => Throw syntax_error
      end
  | None => Throw syntax_error
  end.

(** *** Reference writer: [JSON.stringify(v, null, 2)] *)

Definition hex_digit (n : N) : N := if n <? 10 then 48 + n else 87 + n.

Definition escape_u (c : N) : jsstring :=
  [92; 117; hex_digit (c / 4096); hex_digit ((c / 256) mod 16);
   hex_digit ((c / 16) mod 16); hex_digit (c mod 16)].

Definition is_high_surrogate (c : N) : bool := (55296 <=? c) && (c <=? 56319).
Definition is_low_surrogate (c : N) : bool := (56320 <=? c) && (c <=? 57343).

Fixpoint quote_chars (s : jsstring) : jsstring :=
  match s with
  | [] => []
  | c :: t =>
      if c =? 34 then 92 :: 34 :: quote_chars t
      else if c =? 92 then 92 :: 92 :: quote_chars t
      else if c =? 8 then 92 :: 98 :: quote_chars t
      else if c =? 12 then 92 :: 102 :: quote_chars t
      else if c =? 10 then 92 :: 110 :: quote_chars t
      else if c =? 13 then 92 :: 114 :: quote_chars t
      else if c =? 9 then 92 :: 116 :: quote_chars t
      else if c <? 32 then escape_u c ++ quote_chars t
      else if is_high_surrogate c then
        match t with
        | d :: t' => if is_low_surrogate d then c :: d :: quote_chars t'
                     else escape_u c ++ quote_chars t
        | [] => escape_u c
        end
      else if is_low_surrogate c then escape_u c ++ quote_chars t
      else c :: quote_chars t
  end.

Definition quote (s : jsstring) : jsstring := 34 :: quote_chars s ++ [34].

Fixpoint join (sep : jsstring) (l : list jsstring) : jsstring :=
  match l with
  | [] => []
  | [x] => x
  | x :: t => x ++ sep ++ join sep t
  end.

Fixpoint stringify_at (ind : jsstring) (v : json) : jsstring :=
  let ind' := ind ++ [32; 32] in
  match v with
  | JNull => str "null"
  | JBool true => str "true"
  | JBool false => str "false"
  | JNum l => l
  | JStr s => quote s
  | JArr [] => str "[]"
  | JArr items =>
      [91; 10] ++ ind'
      ++ join ([44; 10] ++ ind') (map (stringify_at ind') items)
      ++ [10] ++ ind ++ [93]
  | JObj [] => str "{}"
  | JObj fs =>
      [123; 10] ++ ind'
      ++ join ([44; 10] ++ ind')
           (map (fun kv => quote (fst kv) ++ [58; 32] ++ stringify_at ind' (snd kv)) fs)
      ++ [10] ++ ind ++ [125]
  end.

Definition JSON_stringify_pretty (v : json) : jsstring := stringify_at [] v.

End Json.

Import Regex Json.

(** A JSON text written with ['] standing for the double quote. *)
Definition jtext (s : string) : jsstring :=
  map (fun c => if c =? 39 then 34 else c) (str s).

(** ** The JSON validation and repair pipeline *)

Module Repair.

Definition DEFAULT_ATTEMPTS : Z := 5.
Definition PROMPT_TRUNCATION_LIMIT : nat := N.to_nat 12000.

Definition latexCommands : list jsstring :=
  map str
    ["pi"; "sigma"; "omega"; "alpha"; "beta"; "gamma"; "delta"; "epsilon";
     "theta"; "lambda"; "mu"; "nu"; "rho"; "tau"; "phi"; "psi"; "chi";
     "frac"; "sqrt"; "sum"; "prod"; "int"; "oint"; "partial"; "nabla";
     "infty"; "cdot"; "times"; "div"; "pm"; "mp"; "leq"; "geq"; "neq";
     "approx"; "sin"; "cos"; "tan"; "cot"; "sec"; "csc"; "log"; "ln";
     "exp"; "lim"; "left"; "right"; "begin"; "end"; "text"; "mathrm";
     "mathbf"]%string.

(** [(?<!\\)\\cmd(?![a-zA-Z])] *)
Definition singleBackslashPattern (cmd : jsstring) : re :=
  Cat (NotBehind 92) (Cat (Chr 92) (Cat (lit cmd) (NotAhead is_letter))).

(** Fix common LaTeX escape issues in JSON strings. *)
Definition fixLatexEscapes (jsonString : jsstring) : jsstring :=
  fold_left
    (fun result cmd =>
       replace_all (singleBackslashPattern cmd) ([92; 92] ++ cmd) result)
    latexCommands jsonString.

(** Remove empty arrays from parsed JSON.  The assignment
    [cleaned[key] = ...] defines no own property for the key [__proto__]. *)
Fixpoint removeEmptyArrays (obj : json) : json :=
  match obj with
  | JArr items => JArr (map removeEmptyArrays items)
  | JObj fields =>
      JObj ((fix entries (fs : list (jsstring * json)) :=
               match fs with
               | [] => []
               | (key, value) :: rest =>
                   if is_empty_array value then entries rest
                   else if jsstring_eqb key (str "__proto__") then entries rest
                   else (key, removeEmptyArrays value) :: entries rest
               end) fields)
  | _ => obj
  end.

(** [^```(?:json)?\s*\n?([\s\S]*?)\n?```$] with the [m] flag *)
Definition fencePattern : re :=
  Cat Bol (Cat (lit (str "```")) (Cat (Opt (lit (str "json")))
    (Cat (Star is_space) (Cat (Opt (Chr 10)) (Cat (Grp (StarLazy any))
      (Cat (Opt (Chr 10)) (Cat (lit (str "```")) Eol))))))).

(** [([\[{][\s\S]*[\]}])] *)
Definition jsonPattern : re :=
  Grp (Cat (Cls (fun c => (c =? 91) || (c =? 123)))
        (Cat (Star any) (Cls (fun c => (c =? 93) || (c =? 125))))).

Definition nonempty (w : option (option jsstring)) : option jsstring :=
  match w with
  | Some (Some (c :: t)) => Some (c :: t)
  | _ => None
  end.

(** Strip markdown code fences from AI responses. *)
Definition stripMarkdownFences (raw : jsstring) : jsstring :=
  let trimmed := trim raw in
  match nonempty (match_group1 fencePattern trimmed) with
  | Some w => trim w
  | None =>
      match nonempty (match_group1 jsonPattern trimmed) with
      | Some w => trim w
      | None => trimmed
      end
  end.

(** [buildErrorMessage]: the message of an [Error]; [lastError] is
    [undefined] when no attempt was made, and [String(undefined)] is the
    text [undefined]. *)
Definition buildErrorMessage (error : option jsstring) : jsstring :=
  match error with
  | Some message => message
  | None => str "undefined"
  end.

Record RepairPayload := {
  format : jsstring;
  schemaName : jsstring;
  schemaDescription : jsstring;
  previousOutput : jsstring;
  errorMessage : jsstring;
  originalInput : option jsstring;
  attempt : nat
}.

(** A schema: [schema.parse] returns the typed value or throws. *)
Definition ZodType := json -> outcome json.

Record Options := {
  o_schema : option ZodType;
  o_schemaName : option jsstring;
  o_schemaDescription : option jsstring;
  o_originalInput : option jsstring;
  o_format : option jsstring;
  o_maxAttempts : option Z
}.

(** What a call of [validateAndCorrectJson] did: its result, the repair
    requests it sent to the model, in order, and the number of
    parse/validate cycles it ran. *)
Record Run := {
  result : outcome jsstring;
  repairCalls : list RepairPayload;
  cycles : nat
}.

Definition decimalZ (z : Z) : jsstring :=
  match z with
  | Zneg p => 45 :: decimal (Pos.to_nat p)
  | _ => decimal (Z.to_nat z)
  end.

Section Pipeline.

(** The built-ins and the model call. *)
Variable JSON_parse : jsstring -> outcome json.
Variable JSON_stringify : json -> jsstring.      (* JSON.stringify(v, null, 2) *)
Variable generateText : RepairPayload -> outcome jsstring.

(** Repair JSON using AI. *)
Definition repairStructuredJson (payload : RepairPayload) : outcome jsstring :=
  match generateText payload with
  | Ok text => Ok (stripMarkdownFences text)
  | Throw e => Throw e
  end.

(** The body of the [try] block: one parse/validate cycle. *)
Definition cycle (schema : option ZodType) (currentJson : jsstring)
  : outcome jsstring :=
  let cleanJson := stripMarkdownFences currentJson in
  let cleanJson := fixLatexEscapes cleanJson in
  match JSON_parse cleanJson with
  | Throw e => Throw e
  | Ok parsed =>
      let parsed := removeEmptyArrays parsed in
      match schema with
      | Some sch =>
          match sch parsed with
          | Ok validated => Ok (JSON_stringify validated)
          | Throw e => Throw e
          end
      | None => Ok (JSON_stringify parsed)
      end
  end.

(** The [for] loop, with [n] iterations left. *)
Fixpoint attempts (opts : Options) (maxAttempts : Z) (n attempt : nat)
    (currentJson : jsstring) (lastError : option jsstring)
    (calls : list RepairPayload) (ran : nat) : Run :=
  match n with
  | O =>
      {| result := Throw (str "Failed to validate JSON after "
                          ++ decimalZ maxAttempts ++ str " attempts: "
                          ++ buildErrorMessage lastError);
         repairCalls := calls; cycles := ran |}
  | S n' =>
      match cycle (o_schema opts) currentJson with
      | Ok text => {| result := Ok text; repairCalls := calls; cycles := S ran |}
      | Throw error =>
          let repairPayload :=
            {| format := default (str "generic-json") (o_format opts);
               schemaName := default (str "JSON payload") (o_schemaName opts);
               schemaDescription :=
                 default (str "Generic JSON structure") (o_schemaDescription opts);
               previousOutput := take PROMPT_TRUNCATION_LIMIT currentJson;
               errorMessage := buildErrorMessage (Some error);
               originalInput := take PROMPT_TRUNCATION_LIMIT <$> o_originalInput opts;
               attempt := (attempt + 1)%nat |} in
          match repairStructuredJson repairPayload with
          | Ok repaired =>
              attempts opts maxAttempts n' (S attempt) repaired (Some error)
                       (calls ++ [repairPayload]) (S ran)
          | Throw e =>
              {| result := Throw e; repairCalls := calls ++ [repairPayload];
                 cycles := S ran |}
          end
      end
  end.

(** Validate and auto-repair JSON with retry loop. *)
Definition validateAndCorrectJson (jsonString : jsstring) (options : Options) : Run :=
  let maxAttempts := default DEFAULT_ATTEMPTS (o_maxAttempts options) in
  let currentJson := stripMarkdownFences jsonString in
  attempts options maxAttempts (Z.to_nat maxAttempts) 0%nat currentJson None [] 0%nat.

End Pipeline.

End Repair.

(** ** The notes quiz schema ([sectionQuizSchema])

    The object schema decides the types of the fields; the value handed to
    the refinement is an item whose fields have these types.  Issues are
    collected: the length checks of the object schema first, then the issues
    the refinement adds.  [parse] succeeds when there is no issue. *)

Module NotesSchema.

Inductive QuizQuestionType := mcq | true_false | fill_blank.

Record SectionQuiz := {
  type : QuizQuestionType;
  question : jsstring;
  options : option (list jsstring);
  correctAnswer : jsstring;
  explanation : jsstring
}.

Record Issue := { message : jsstring; path : list jsstring }.

Definition is_mcq (t : QuizQuestionType) : bool :=
  match t with
  | mcq => true
  | _ => false
  end.

Definition min1 (s : jsstring) (msg : string) (p : list jsstring) : list Issue :=
  match s with
  | [] => [{| message := str msg; path := p |}]
  | _ :: _ => []
  end.

Fixpoint optionIssues (i : nat) (opts : list jsstring) : list Issue :=
  match opts with
  | [] => []
  | o :: t =>
      min1 o "String must contain at least 1 character(s)" [str "options"; decimal i]
      ++ optionIssues (S i) t
  end.

(** The checks of [z.object({...})] on a well-typed item. *)
Definition objectIssues (value : SectionQuiz) : list Issue :=
  min1 (question value) "Quiz question cannot be empty" [str "question"]
  ++ match options value with
     | Some opts => optionIssues 0 opts
     | None => []
     end
  ++ min1 (correctAnswer value) "Quiz answer cannot be empty" [str "correctAnswer"]
  ++ min1 (explanation value) "Quiz explanation cannot be empty" [str "explanation"].

(** [value.options.includes(value.correctAnswer)] *)
Definition includes (opts : list jsstring) (x : jsstring) : bool :=
  existsb (jsstring_eqb x) opts.

(** The body of [superRefine]. *)
Definition refineIssues (value : SectionQuiz) : list Issue :=
  (if is_mcq (type value) then
     match options value with
     | None =>
         [{| message := str "Multiple choice questions require exactly 4 options";
             path := [str "options"] |}]
     | Some opts =>
         if negb (length opts =? 4)%nat then
           [{| message := str "Multiple choice questions require exactly 4 options";
               path := [str "options"] |}]
         else if negb (includes opts (correctAnswer value)) then
           [{| message := str "Correct answer must be one of the provided options";
               path := [str "correctAnswer"] |}]
         else []
     end
   else [])
  ++
  (if negb (is_mcq (type value)) then
     match options value with
     | Some (_ :: _) =>
         [{| message := str "Only multiple choice questions can include options";
             path := [str "options"] |}]
     | _ => []
     end
   else []).

Definition sectionQuizIssues (value : SectionQuiz) : list Issue :=
  objectIssues value ++ refineIssues value.

(** [sectionQuizSchema.safeParse(value).success] *)
Definition sectionQuizSchema (value : SectionQuiz) : bool :=
  match sectionQuizIssues value with
  | [] => true
  | _ :: _ => false
  end.

Definition has_violation (msg : string) (value : SectionQuiz) : Prop :=
  exists i, In i (sectionQuizIssues value) /\ message i = str msg.

End NotesSchema.

(** ** The capsule store ([convex/schema.ts], [convex/capsules.ts]) *)

(** The outline of a course is the document the model returned:
    [extractJsonFromResponse(text) as CapsuleOutlineResponse] checks nothing,
    and the handlers read the properties of the value as it is.

    The [outline] argument of [generateModuleContent] is the text
    [JSON.stringify(outline)], which the handler reads back with
    [JSON.parse].  [generateOutline] schedules the call for a document on
    whose [modules] the call of [reduce] has returned, which makes them an
    array, and [generateModuleContent] passes its own argument on.  The
    argument is carried here as the document it denotes, with the array of
    its modules. *)
Module Outline.

Record t := {
  document : json;
  modules : list json
}.

End Outline.

(** A number the code computes from the lengths and the numbers of a
    document: the value of [sum + n].  Lengths add up exactly; a number of
    the document is given by its rendering, and a sum with one is kept as
    the sum it is. *)
Inductive Count :=
| Exactly (n : nat)
| Plus (sum : Count) (number : jsstring).

Inductive Status :=
| pending | generating_outline | generating_content | completed | failed.

Global Instance Status_eq_dec : EqDecision Status.
Proof. solve_decision. Defined.

(** A scheduled function call ([ctx.scheduler.runAfter]). *)
Inductive Task :=
| GenerateOutline (capsuleId jobId : nat) (generationId : jsstring)
| GenerateModuleContent (capsuleId jobId : nat) (generationId : jsstring)
    (moduleIndex : nat) (outline : Outline.t)
| FinalizeGeneration (capsuleId jobId : nat) (generationId : jsstring).

Module Capsule.
Record t := {
  title : jsstring;
  description : option jsstring;
  userPrompt : option jsstring;
  sourceTopic : option jsstring;
  status : Status;
  errorMessage : option jsstring;
  moduleCount : option nat;
  lessonCount : option Count;
  estimatedDuration : option jsstring;     (* a number, by its rendering *)
  createdAt : N;
  updatedAt : N;
  completedAt : option N
}.
End Capsule.

Module Job.
Record t := {
  capsuleId : nat;
  generationId : jsstring;
  currentStage : jsstring;
  outlineGenerated : bool;
  modulesGenerated : nat;
  totalModules : nat;
  currentModuleIndex : nat;
  outlineJson : option json;               (* the text, by the document it denotes *)
  lastError : option jsstring;
  retryCount : nat;
  startedAt : N;
  updatedAt : N;
  completedAt : option N
}.
End Job.

Module CapsuleModule.
Record t := {
  capsuleId : nat;
  title : jsstring;
  description : option jsstring;
  introduction : option jsstring;
  learningObjectives : option (list jsstring);
  moduleSummary : option jsstring;
  order : nat;
  createdAt : N
}.
End CapsuleModule.

Module CapsuleLesson.
Record t := {
  moduleId : nat;
  capsuleId : nat;
  title : jsstring;
  description : option jsstring;
  order : nat;
  type : jsstring;
  content : json;
  createdAt : N
}.
End CapsuleLesson.

Record Store := {
  capsules : list Capsule.t;
  capsuleGenerationJobs : list Job.t;
  capsuleModules : list CapsuleModule.t;
  capsuleLessons : list CapsuleLesson.t;
  scheduled : list (N * Task);       (* delay in ms, function call *)
  now : N                            (* Date.now() *)
}.

Definition emptyStore : Store :=
  {| capsules := []; capsuleGenerationJobs := []; capsuleModules := [];
     capsuleLessons := []; scheduled := []; now := 0 |}.

Module Capsules.

(** A mutation runs as one transaction: it returns its value and the new
    store, or throws and leaves the store as it was. *)
Definition Mutation (A : Type) := Store -> outcome (A * Store).

Definition set_capsules (cs : list Capsule.t) (st : Store) : Store :=
  {| capsules := cs; capsuleGenerationJobs := capsuleGenerationJobs st;
     capsuleModules := capsuleModules st; capsuleLessons := capsuleLessons st;
     scheduled := scheduled st; now := now st |}.

Definition set_jobs (js : list Job.t) (st : Store) : Store :=
  {| capsules := capsules st; capsuleGenerationJobs := js;
     capsuleModules := capsuleModules st; capsuleLessons := capsuleLessons st;
     scheduled := scheduled st; now := now st |}.

Definition set_scheduled (q : list (N * Task)) (st : Store) : Store :=
  {| capsules := capsules st; capsuleGenerationJobs := capsuleGenerationJobs st;
     capsuleModules := capsuleModules st; capsuleLessons := capsuleLessons st;
     scheduled := q; now := now st |}.

(** Get a single capsule by ID. *)
Definition getCapsule (capsuleId : nat) (st : Store) : option Capsule.t :=
  capsules st !! capsuleId.

(** Get capsule data for generation (internal). *)
Definition getCapsuleForGeneration (capsuleId : nat) (st : Store) : option Capsule.t :=
  capsules st !! capsuleId.

(** Get generation job by ID (internal). *)
Definition getGenerationJobById (jobId : nat) (st : Store) : option Job.t :=
  capsuleGenerationJobs st !! jobId.

Record CreateCapsuleArgs := {
  cc_title : jsstring;
  cc_topicSource : bool;             (* sourceType === "topic" *)
  cc_sourceTopic : option jsstring;
  cc_userPrompt : option jsstring
}.

(** Create a new capsule from a topic. *)
Definition createCapsule (args : CreateCapsuleArgs) : Mutation nat := fun st =>
  if (length (cc_title args) <? 2)%nat || (200 <? length (cc_title args))%nat then
    Throw (str "Title must be between 2 and 200 characters")
  else if cc_topicSource args
          && negb (bool_decide (is_Some (cc_sourceTopic args)
                                /\ cc_sourceTopic args <> Some [])) then
    Throw (str "Topic is required for topic-based capsules")
  else if match cc_sourceTopic args with
          | Some t => (500 <? length t)%nat
          | None => false
          end then
    Throw (str "Topic must be under 500 characters")
  else
    Ok (length (capsules st),
        set_capsules
          (capsules st ++
           [{| Capsule.title := cc_title args;
               Capsule.description := None;
               Capsule.userPrompt := cc_userPrompt args;
               Capsule.sourceTopic := cc_sourceTopic args;
               Capsule.status := pending;
               Capsule.errorMessage := None;
               Capsule.moduleCount := None;
               Capsule.lessonCount := None;
               Capsule.estimatedDuration := None;
               Capsule.createdAt := now st;
               Capsule.updatedAt := now st;
               Capsule.completedAt := None |}]) st).

Record UpdateCapsuleStatusArgs := {
  u_capsuleId : nat;
  u_status : Status;
  u_errorMessage : option jsstring;
  u_moduleCount : option nat;
  u_lessonCount : option Count;
  u_estimatedDuration : option jsstring;
  u_description : option jsstring
}.

(** The arguments with only a status. *)
Definition statusOnly (capsuleId : nat) (s : Status) : UpdateCapsuleStatusArgs :=
  {| u_capsuleId := capsuleId; u_status := s; u_errorMessage := None;
     u_moduleCount := None; u_lessonCount := None;
     u_estimatedDuration := None; u_description := None |}.

Definition statusWithError (capsuleId : nat) (s : Status) (msg : jsstring)
  : UpdateCapsuleStatusArgs :=
  {| u_capsuleId := capsuleId; u_status := s; u_errorMessage := Some msg;
     u_moduleCount := None; u_lessonCount := None;
     u_estimatedDuration := None; u_description := None |}.

(** [a] when the update carries it, the stored field otherwise. *)
Definition patched {A} (a old : option A) : option A :=
  match a with
  | Some _ => a
  | None => old
  end.

Definition missingDocument : jsstring := str "Update on nonexistent document ID".

(** Update capsule status. *)
Definition updateCapsuleStatus (args : UpdateCapsuleStatusArgs) : Mutation unit :=
  fun st =>
    match capsules st !! u_capsuleId args with
    | None => Throw missingDocument
    | Some c =>
        Ok (tt,
            set_capsules
              (<[u_capsuleId args :=
                 {| Capsule.title := Capsule.title c;
                    Capsule.description :=
                      patched (u_description args) (Capsule.description c);
                    Capsule.userPrompt := Capsule.userPrompt c;
                    Capsule.sourceTopic := Capsule.sourceTopic c;
                    Capsule.status := u_status args;
                    Capsule.errorMessage :=
                      patched (u_errorMessage args) (Capsule.errorMessage c);
                    Capsule.moduleCount :=
                      patched (u_moduleCount args) (Capsule.moduleCount c);
                    Capsule.lessonCount :=
                      patched (u_lessonCount args) (Capsule.lessonCount c);
                    Capsule.estimatedDuration :=
                      patched (u_estimatedDuration args) (Capsule.estimatedDuration c);
                    Capsule.createdAt := Capsule.createdAt c;
                    Capsule.updatedAt := now st;
                    Capsule.completedAt :=
                      if bool_decide (u_status args = completed) then Some (now st)
                      else Capsule.completedAt c |}]>
                 (capsules st)) st)
    end.

(** Create a generation job. *)
Definition createGenerationJob (capsuleId : nat) (generationId : jsstring)
  : Mutation nat := fun st =>
  Ok (length (capsuleGenerationJobs st),
      set_jobs
        (capsuleGenerationJobs st ++
         [{| Job.capsuleId := capsuleId;
             Job.generationId := generationId;
             Job.currentStage := str "outline";
             Job.outlineGenerated := false;
             Job.modulesGenerated := 0;
             Job.totalModules := 0;
             Job.currentModuleIndex := 0;
             Job.outlineJson := None;
             Job.lastError := None;
             Job.retryCount := 0;
             Job.startedAt := now st;
             Job.updatedAt := now st;
             Job.completedAt := None |}]) st).

Record JobUpdates := {
  up_currentStage : option jsstring;
  up_outlineGenerated : option bool;
  up_outlineJson : option json;
  up_modulesGenerated : option nat;
  up_totalModules : option nat;
  up_currentModuleIndex : option nat;
  up_lastError : option jsstring;
  up_retryCount : option nat;
  up_completedAt : option N
}.

Definition patchJob (updates : JobUpdates) (t : N) (j : Job.t) : Job.t :=
  {| Job.capsuleId := Job.capsuleId j;
     Job.generationId := Job.generationId j;
     Job.currentStage := default (Job.currentStage j) (up_currentStage updates);
     Job.outlineGenerated :=
       default (Job.outlineGenerated j) (up_outlineGenerated updates);
     Job.modulesGenerated :=
       default (Job.modulesGenerated j) (up_modulesGenerated updates);
     Job.totalModules := default (Job.totalModules j) (up_totalModules updates);
     Job.currentModuleIndex :=
       default (Job.currentModuleIndex j) (up_currentModuleIndex updates);
     Job.outlineJson := patched (up_outlineJson updates) (Job.outlineJson j);
     Job.lastError := patched (up_lastError updates) (Job.lastError j);
     Job.retryCount := default (Job.retryCount j) (up_retryCount updates);
     Job.startedAt := Job.startedAt j;
     Job.updatedAt := t;
     Job.completedAt := patched (up_completedAt updates) (Job.completedAt j) |}.

(** Update generation job progress. *)
Definition updateGenerationJob (jobId : nat) (updates : JobUpdates) : Mutation unit :=
  fun st =>
    match capsuleGenerationJobs st !! jobId with
    | None => Throw missingDocument
    | Some j =>
        Ok (tt, set_jobs (<[jobId := patchJob updates (now st) j]>
                            (capsuleGenerationJobs st)) st)
    end.

Record ModuleData := {
  md_title : jsstring;
  md_description : option jsstring;
  md_introduction : option jsstring;
  md_learningObjectives : option (list jsstring);
  md_moduleSummary : option jsstring;
  md_order : nat
}.

Record LessonData := {
  ld_title : jsstring;
  ld_description : option jsstring;
  ld_order : nat;
  ld_type : jsstring;
  ld_content : json
}.

(** Save a generated module with its lessons. *)
Definition saveGeneratedModule (capsuleId : nat) (moduleData : ModuleData)
    (lessons : list LessonData) : Mutation nat := fun st =>
  let moduleId := length (capsuleModules st) in
  Ok (moduleId,
      {| capsules := capsules st;
         capsuleGenerationJobs := capsuleGenerationJobs st;
         capsuleModules :=
           capsuleModules st ++
           [{| CapsuleModule.capsuleId := capsuleId;
               CapsuleModule.title := md_title moduleData;
               CapsuleModule.description := md_description moduleData;
               CapsuleModule.introduction := md_introduction moduleData;
               CapsuleModule.learningObjectives := md_learningObjectives moduleData;
               CapsuleModule.moduleSummary := md_moduleSummary moduleData;
               CapsuleModule.order := md_order moduleData;
               CapsuleModule.createdAt := now st |}];
         capsuleLessons :=
           capsuleLessons st ++
           map (fun lesson =>
                  {| CapsuleLesson.moduleId := moduleId;
                     CapsuleLesson.capsuleId := capsuleId;
                     CapsuleLesson.title := ld_title lesson;
                     CapsuleLesson.description := ld_description lesson;
                     CapsuleLesson.order := ld_order lesson;
                     CapsuleLesson.type := ld_type lesson;
                     CapsuleLesson.content := ld_content lesson;
                     CapsuleLesson.createdAt := now st |}) lessons;
         scheduled := scheduled st;
         now := now st |}).

(** [ctx.scheduler.runAfter(delay, f, args)] *)
Definition runAfter (delay : N) (task : Task) : Mutation unit := fun st =>
  Ok (tt, set_scheduled (scheduled st ++ [(delay, task)]) st).

(** The modules stored for a capsule (index [by_capsuleId]). *)
Definition modulesOf (capsuleId : nat) (st : Store) : list CapsuleModule.t :=
  filter (fun m => CapsuleModule.capsuleId m = capsuleId) (capsuleModules st).

End Capsules.

(** ** The queries of the store ([convex/capsules.ts]) *)

Module Queries.
Import Capsules.

(** The documents of a table with their ids, in creation order: what
    [collect()] returns for an index on one field. *)
Definition documents {A} (table : list A) : list (nat * A) :=
  imap (fun id doc => (id, doc)) table.

(** [l.sort((a, b) => key(a) - key(b))]: the sort is stable. *)
Fixpoint insert_by {A} (key : A -> nat) (x : A) (l : list A) : list A :=
  match l with
  | [] => [x]
  | y :: t => if (key x <=? key y)%nat then x :: l else y :: insert_by key x t
  end.

Definition sort_by {A} (key : A -> nat) (l : list A) : list A :=
  foldr (insert_by key) [] l.

(** The jobs of a capsule, latest first
    ([withIndex("by_capsuleId", ...).order("desc")]). *)
Definition jobsOf (capsuleId : nat) (st : Store) : list (nat * Job.t) :=
  reverse (filter (fun job => Job.capsuleId (snd job) = capsuleId)
             (documents (capsuleGenerationJobs st))).

(** Get generation job for a capsule. *)
Definition getGenerationJob (capsuleId : nat) (st : Store) : option (nat * Job.t) :=
  head (take 1 (jobsOf capsuleId st)).

Record ModuleWithLessons := {
  mw_id : nat;
  mw_module : CapsuleModule.t;
  mw_lessons : list (nat * CapsuleLesson.t)
}.

(** Get capsule with all modules and lessons (full structure). *)
Definition getCapsuleWithContent (capsuleId : nat) (st : Store)
  : option (Capsule.t * list ModuleWithLessons) :=
  match capsules st !! capsuleId with
  | None => None
  | Some capsule =>
      let modules :=
        sort_by (fun m => CapsuleModule.order (snd m))
          (filter (fun m => CapsuleModule.capsuleId (snd m) = capsuleId)
             (documents (capsuleModules st))) in
      let lessons :=
        filter (fun l => CapsuleLesson.capsuleId (snd l) = capsuleId)
          (documents (capsuleLessons st)) in
      let modulesWithLessons :=
        map (fun module =>
               {| mw_id := fst module;
                  mw_module := snd module;
                  mw_lessons :=
                    sort_by (fun l => CapsuleLesson.order (snd l))
                      (filter (fun l => CapsuleLesson.moduleId (snd l) = fst module)
                         lessons) |})
          modules in
      Some (capsule, modulesWithLessons)
  end.

End Queries.

(** ** The generation pipeline ([convex/capsuleGeneration.ts]) *)

Module Generation.
Import Capsules.

(** *** Actions

    An action is not a transaction: each [ctx.runMutation] and each
    [ctx.scheduler.runAfter] commits on its own, and what an action
    committed before it threw stays committed.  A [World] is the current
    store together with the stores committed before it, latest first. *)

Record World := { store : Store; history : list Store }.

Definition Act (A : Type) := World -> outcome A * World.

Definition ret {A} (a : A) : Act A := fun w => (Ok a, w).

Definition throw {A} (message : jsstring) : Act A := fun w => (Throw message, w).

Definition bind {A B} (m : Act A) (k : A -> Act B) : Act B := fun w =>
  match m w with
  | (Ok a, w') => k a w'
  | (Throw e, w') => (Throw e, w')
  end.

(** [try { body } catch (error) { handler }] *)
Definition try_catch {A} (body : Act A) (handler : jsstring -> Act A) : Act A :=
  fun w =>
    match body w with
    | (Ok a, w') => (Ok a, w')
    | (Throw e, w') => handler e w'
    end.

Definition runQuery {A} (q : Store -> A) : Act A := fun w => (Ok (q (store w)), w).

Definition commit (st : Store) (w : World) : World :=
  {| store := st; history := store w :: history w |}.

Definition runMutation {A} (m : Mutation A) : Act A := fun w =>
  match m (store w) with
  | Ok (a, st') => (Ok a, commit st' w)
  | Throw e => (Throw e, w)
  end.

Definition lift {A} (o : outcome A) : Act A := fun w => (o, w).

Notation "'let*' x ':=' m 'in' k" := (bind m (fun x => k))
  (at level 10, x pattern, m at level 100, k at level 200).
Notation "m ';;' k" := (bind m (fun _ => k))
  (at level 100, k at level 200, right associativity).

(** The stores an observer can see, latest first. *)
Definition observed (w : World) : list Store := store w :: history w.

(** *** Reading an unchecked document

    The documents of the model are cast to the interfaces the handlers
    declare, which checks nothing.  Reading a property of [null] and calling
    a method a value does not have throw a [TypeError]; a value a validator
    of a mutation rejects makes the call throw an [ArgumentValidationError].
    The two errors are kept by their names. *)

Definition typeError : jsstring := str "Cannot read properties of undefined".
Definition argumentValidationError : jsstring := str "ArgumentValidationError".

Definition andThen {A B} (o : outcome A) (k : A -> outcome B) : outcome B :=
  match o with
  | Ok a => k a
  | Throw e => Throw e
  end.

Definition is_null (v : json) : bool :=
  match v with
  | JNull => true
  | _ => false
  end.

Definition is_string (v : json) : bool :=
  match v with
  | JStr _ => true
  | _ => false
  end.

(** [o.k] for a value [o] that may be [null]. *)
Definition member (k : string) (o : json) : outcome (option json) :=
  if is_null o then Throw typeError else Ok (prop k o).

(** Truthiness of a value that may be [undefined]. *)
Definition is_truthy (v : option json) : bool :=
  match v with
  | Some x => truthy x
  | None => false
  end.

(** [a || b] *)
Definition or_value (a b : option json) : option json :=
  match a with
  | Some x => if truthy x then a else b
  | None => b
  end.

(** [a || b] for a [b] that is not [undefined]. *)
Definition or_json (a : option json) (b : json) : json :=
  match a with
  | Some x => if truthy x then x else b
  | None => b
  end.

(** The argument validators [v.string()], [v.optional(v.string())],
    [v.optional(v.array(v.string()))] and [v.optional(v.number())], on
    values read from a document. *)
Definition requiredString (v : option json) : outcome jsstring :=
  match v with
  | Some (JStr s) => Ok s
  | _ => Throw argumentValidationError
  end.

Definition optionalString (v : option json) : outcome (option jsstring) :=
  match v with
  | None => Ok None
  | Some (JStr s) => Ok (Some s)
  | Some _ => Throw argumentValidationError
  end.

Definition optionalStrings (v : option json) : outcome (option (list jsstring)) :=
  match v with
  | None => Ok None
  | Some (JArr l) =>
      if forallb is_string l
      then Ok (Some (omap (fun x => match x with JStr s => Some s | _ => None end) l))
      else Throw argumentValidationError
  | Some _ => Throw argumentValidationError
  end.

Definition optionalNumber (v : option json) : outcome (option jsstring) :=
  match v with
  | None => Ok None
  | Some (JNum n) => Ok (Some n)
  | Some _ => Throw argumentValidationError
  end.

(** *** The model call *)

Inductive HttpReply :=
| Rejected (message : jsstring)                   (* fetch or response.json() rejects *)
| NotOk (status : N) (errorText : jsstring)       (* !response.ok *)
| Candidates (text : option jsstring).            (* data.candidates?.[0]?...?.text *)

Record AiEnv := {
  apiKey : option jsstring;      (* process.env.GOOGLE_GENERATIVE_AI_API_KEY *)
  reply : HttpReply
}.

Definition falsy_string (s : option jsstring) : bool :=
  match s with
  | Some (_ :: _) => false
  | _ => true
  end.


Section Handlers.

Variable JSON_parse : jsstring -> outcome json.

(** [```(?:json)?\s*([\s\S]*?)\s*```] *)
Definition codeBlockPattern : re :=
  Cat (lit (str "```")) (Cat (Opt (lit (str "json"))) (Cat (Star is_space)
    (Cat (Grp (StarLazy any)) (Cat (Star is_space) (lit (str "```")))))).

(** Extract JSON from AI response (handles markdown code blocks). *)
Definition extractJsonFromResponse (text : jsstring) : outcome json :=
  match JSON_parse text with
  | Ok v => Ok v
  | Throw _ =>
      let braces :=
        match indexOf 123 text, lastIndexOf 125 text with
        | Some firstBrace, Some lastBrace =>
            if (firstBrace <? lastBrace)%nat then
              match JSON_parse (slice firstBrace (lastBrace + 1) text) with
              | Ok v => Ok v
              | Throw _ => Throw (str "Could not parse JSON from AI response")
              end
            else Throw (str "Could not parse JSON from AI response")
        | _, _ => Throw (str "Could not parse JSON from AI response")
        end in
      match match_group1 codeBlockPattern text with
      | Some jsonMatch1 =>
          match JSON_parse (default [] jsonMatch1) with
          | Ok v => Ok v
          | Throw _ => braces
          end
      | None => braces
      end
  end.

(** The request and the reading of the reply: what follows the key check
    and the building of the prompt in [generateCapsuleOutlineAI] and in
    [generateModuleContentAI]. *)
Definition request (env : AiEnv) : outcome json :=
  match reply env with
  | Rejected e => Throw e
  | NotOk status errorText =>
      Throw (str "AI API error: " ++ decimal (N.to_nat status) ++ str " - " ++ errorText)
  | Candidates text =>
      if falsy_string text then Throw (str "No response from AI")
      else extractJsonFromResponse (default [] text)
  end.

(** A model call whose prompt is built from strings: key check, request,
    text of the first candidate, [extractJsonFromResponse]. *)
Definition generateAI (env : AiEnv) : outcome json :=
  if falsy_string (apiKey env) then
    Throw (str "GOOGLE_GENERATIVE_AI_API_KEY not configured")
  else request env.

(** [extractJsonFromResponse(text) as CapsuleOutlineResponse]: the cast
    checks nothing, and the document is returned as the JSON value it is.
    The prompt is built from the topic and the guidance, two strings. *)
Definition generateCapsuleOutlineAI (env : AiEnv) : outcome json := generateAI env.

(** [input.lessons.map((l, i) => ...).join("\n")]: the text goes into the
    prompt; [map] is a method of arrays only, and the function reads
    [l.title] and [l.description], which throws on [null]. *)
Definition lessonList (lessons : json) : outcome unit :=
  match lessons with
  | JArr l => if existsb is_null l then Throw typeError else Ok tt
  | _ => Throw typeError
  end.

(** [extractJsonFromResponse(text) as ModuleContentResponse], after the
    key check and the building of the prompt from [input.lessons]. *)
Definition generateModuleContentAI (env : AiEnv) (lessons : json) : outcome json :=
  if falsy_string (apiKey env) then
    Throw (str "GOOGLE_GENERATIVE_AI_API_KEY not configured")
  else andThen (lessonList lessons) (fun _ => request env).

(** *** Main generation action (entry point) *)

Record StartResult := {
  success : bool;
  r_generationId : option jsstring;
  r_jobId : option nat;
  r_error : option jsstring
}.

(** Start capsule content generation.  [generationId] is the identifier
    drawn from the clock and [Math.random()]. *)
Definition generateCapsuleContent (generationId : jsstring) (capsuleId : nat)
  : Act StartResult :=
  let* capsule := runQuery (getCapsule capsuleId) in
  match capsule with
  | None => throw (str "Capsule not found")
  | Some capsule =>
      if bool_decide (Capsule.status capsule <> pending)
         && bool_decide (Capsule.status capsule <> failed) then
        ret {| success := false; r_generationId := None; r_jobId := None;
               r_error := Some (str "Capsule is already being generated or completed") |}
      else
        let* jobId := runMutation (createGenerationJob capsuleId generationId) in
        runMutation (updateCapsuleStatus (statusOnly capsuleId generating_outline)) ;;
        runMutation (runAfter 0 (GenerateOutline capsuleId jobId generationId)) ;;
        ret {| success := true; r_generationId := Some generationId;
               r_jobId := Some jobId; r_error := None |}
  end.

(** *** Stage 1: outline generation *)

(** [outline.modules], as [outline.modules?.length || 0] and
    [outline.modules?.reduce(...) || 0] see it: without modules, or with
    [null] for them, both are 0; of an array, the first is its length and
    the second the sum over its elements; any other value has a length or
    none, but no [reduce], and the call throws before anything is
    committed. *)
Definition outlineModules (outline : json) : outcome (list json) :=
  match prop "modules" outline with
  | None | Some JNull => Ok []
  | Some (JArr modules) => Ok modules
  | Some _ => Throw typeError
  end.

(** The value of [sum] in the [reduce]: a number, or a string once a
    string, an array or an object was added to it. *)
Inductive Sum :=
| Number (c : Count)
| Text.

(** The value of [m.lessons?.length || 0]: a length, or the [length]
    property of an object. *)
Inductive Addend :=
| Length (n : nat)
| Value (x : json).

Definition lessonsLength (m : json) : outcome Addend :=
  if is_null m then Throw typeError
  else
    match prop "lessons" m with
    | Some (JArr lessons) => Ok (Length (length lessons))
    | Some (JStr lessons) => Ok (Length (length lessons))
    | Some (JObj lessons) =>
        match assoc (str "length") lessons with
        | Some x => if truthy x then Ok (Value x) else Ok (Length 0)
        | None => Ok (Length 0)
        end
    | _ => Ok (Length 0)
    end.

Definition add_length (c : Count) (n : nat) : Count :=
  match c with
  | Exactly k => Exactly (k + n)
  | Plus _ _ => Plus c (decimal n)
  end.

(** [sum + x] *)
Definition add (sum : Sum) (a : Addend) : Sum :=
  match sum, a with
  | Text, _ => Text
  | Number c, Length n => Number (add_length c n)
  | Number c, Value JNull => Number c
  | Number c, Value (JBool b) => Number (add_length c (if b then 1 else 0))
  | Number c, Value (JNum number) => Number (Plus c number)
  | Number c, Value _ => Text
  end.

(** [modules.reduce((sum, m) => sum + (m.lessons?.length || 0), sum)] *)
Fixpoint lessonSum (modules : list json) (sum : Sum) : outcome Sum :=
  match modules with
  | [] => Ok sum
  | m :: rest => andThen (lessonsLength m) (fun a => lessonSum rest (add sum a))
  end.

(** The arguments of the call of [updateCapsuleStatus] with the outline
    info, as its validators let them pass: [description] and
    [estimatedDuration] are read from the document, [lessonCount] is the
    sum.  ([sum || 0] is the sum: a number that is falsy is 0, and a string
    that [reduce] returns is not empty.) *)
Definition outlineArguments (capsuleId : nat) (outline : json)
    (totalModules : nat) (totalLessons : Sum) : outcome UpdateCapsuleStatusArgs :=
  andThen (optionalString (prop "description" outline))
    (fun description =>
  andThen (match totalLessons with
           | Number c => Ok c
           | Text => Throw argumentValidationError
           end)
    (fun lessonCount =>
  andThen (optionalNumber
             (Some (or_json (prop "estimatedDuration" outline) (JNum (str "30")))))
    (fun estimatedDuration =>
       Ok {| u_capsuleId := capsuleId; u_status := generating_content;
             u_errorMessage := None;
             u_moduleCount := Some totalModules;
             u_lessonCount := Some lessonCount;
             u_estimatedDuration := estimatedDuration;
             u_description := description |}))).

Definition generateOutline (env : AiEnv) (capsuleId jobId : nat)
    (generationId : jsstring) : Act unit :=
  try_catch
    (let* capsule := runQuery (getCapsuleForGeneration capsuleId) in
     match capsule with
     | None => throw (str "Capsule not found")
     | Some capsule =>
         let* outlineResponse := lift (generateCapsuleOutlineAI env) in
         let* error := lift (member "error" outlineResponse) in
         if is_truthy error then
           let* errorMessage :=
             lift (requiredString
                     (or_value (prop "message" outlineResponse)
                               (Some (JStr (str "Content generation failed"))))) in
           runMutation (updateCapsuleStatus
             (statusWithError capsuleId failed errorMessage))
         else
           let outline := outlineResponse in
           let* modules := lift (outlineModules outline) in
           let totalModules := length modules in
           let* totalLessons := lift (lessonSum modules (Number (Exactly 0))) in
           let* arguments :=
             lift (outlineArguments capsuleId outline totalModules totalLessons) in
           runMutation (updateCapsuleStatus arguments) ;;
           runMutation (updateGenerationJob jobId
             {| up_currentStage := Some (str "module_0");
                up_outlineGenerated := Some true;
                up_outlineJson := Some outline;
                up_modulesGenerated := None;
                up_totalModules := Some totalModules;
                up_currentModuleIndex := None;
                up_lastError := None; up_retryCount := None;
                up_completedAt := None |}) ;;
           if (0 <? totalModules)%nat then
             runMutation (runAfter 0
               (GenerateModuleContent capsuleId jobId generationId 0
                  {| Outline.document := outline; Outline.modules := modules |}))
           else
             runMutation (updateCapsuleStatus (statusOnly capsuleId completed)) ;;
             let* t := runQuery now in
             runMutation (updateGenerationJob jobId
               {| up_currentStage := Some (str "completed");
                  up_outlineGenerated := None; up_outlineJson := None;
                  up_modulesGenerated := None; up_totalModules := None;
                  up_currentModuleIndex := None;
                  up_lastError := None; up_retryCount := None;
                  up_completedAt := Some t |})
     end)
    (fun error =>
       runMutation (updateCapsuleStatus (statusWithError capsuleId failed error)) ;;
       runMutation (updateGenerationJob jobId
         {| up_currentStage := None; up_outlineGenerated := None;
            up_outlineJson := None; up_modulesGenerated := None;
            up_totalModules := None; up_currentModuleIndex := None;
            up_lastError := Some error; up_retryCount := None;
            up_completedAt := None |})).

(** *** Stage 2: module content generation *)

(** [lesson.content || lesson] *)
Definition contentOrLesson (lesson : json) : json :=
  match prop "content" lesson with
  | Some c => if truthy c then c else lesson
  | None => lesson
  end.

(** [(moduleContent.lessons || [])], on which [.map] is called: only an
    array has it. *)
Definition lessonsOf (moduleContent : json) : outcome (list json) :=
  match or_value (prop "lessons" moduleContent) (Some (JArr [])) with
  | Some (JArr l) => Ok l
  | _ => Throw typeError
  end.

(** One element of [(moduleContent.lessons || []).map(...)], validated. *)
Definition lessonData (lesson : json) (idx : nat) : outcome LessonData :=
  andThen (requiredString
             (or_value (prop "title" lesson)
                       (Some (JStr (str "Lesson " ++ decimal (idx + 1))))))
    (fun title =>
       andThen (optionalString (prop "description" lesson))
         (fun description =>
            Ok {| ld_title := title;
                  ld_description := description;
                  ld_order := idx;
                  ld_type := str "mixed";
                  ld_content := contentOrLesson lesson |})).

Fixpoint lessonsData (lessons : list json) (idx : nat) : outcome (list LessonData) :=
  match lessons with
  | [] => Ok []
  | lesson :: rest =>
      andThen (lessonData lesson idx)
        (fun d => andThen (lessonsData rest (S idx)) (fun ds => Ok (d :: ds)))
  end.

(** [moduleData], validated. *)
Definition moduleData (moduleContent moduleOutline : json) (moduleIndex : nat)
  : outcome ModuleData :=
  andThen (requiredString
             (or_value (prop "title" moduleContent) (prop "title" moduleOutline)))
    (fun title =>
  andThen (optionalString
             (or_value (prop "description" moduleContent)
                       (prop "description" moduleOutline)))
    (fun description =>
  andThen (optionalString (prop "introduction" moduleContent))
    (fun introduction =>
  andThen (optionalStrings (prop "learningObjectives" moduleContent))
    (fun learningObjectives =>
  andThen (optionalString (prop "moduleSummary" moduleContent))
    (fun moduleSummary =>
       Ok {| md_title := title;
             md_description := description;
             md_introduction := introduction;
             md_learningObjectives := learningObjectives;
             md_moduleSummary := moduleSummary;
             md_order := moduleIndex |}))))).

(** The arguments of [saveGeneratedModule]: building them reads properties
    of the document and of its lessons, which throws on [null], and calls
    [.map] on the lessons; the mutation then validates them. *)
Definition moduleArguments (moduleContent moduleOutline : json) (moduleIndex : nat)
  : outcome (ModuleData * list LessonData) :=
  if is_null moduleContent then Throw typeError
  else
    andThen (lessonsOf moduleContent)
      (fun lessons =>
         if existsb is_null lessons then Throw typeError
         else
           andThen (moduleData moduleContent moduleOutline moduleIndex)
             (fun data =>
                andThen (lessonsData lessons 0) (fun ls => Ok (data, ls)))).

Definition moduleNotFound (moduleIndex : nat) : jsstring :=
  str "Module " ++ decimal moduleIndex ++ str " not found in outline".

Definition generateModuleContent (env : AiEnv) (capsuleId jobId : nat)
    (generationId : jsstring) (moduleIndex : nat) (outline : Outline.t) : Act unit :=
  try_catch
    (let modules := Outline.modules outline in
     match modules !! moduleIndex with
     | None => throw (moduleNotFound moduleIndex)
     | Some moduleOutline =>
         if negb (truthy moduleOutline) then throw (moduleNotFound moduleIndex)
         else
           let* capsule := runQuery (getCapsuleForGeneration capsuleId) in
           match capsule with
           | None => throw (str "Capsule not found")
           | Some capsule =>
               let* moduleContent :=
                 lift (generateModuleContentAI env
                         (or_json (prop "lessons" moduleOutline) (JArr []))) in
               let* arguments :=
                 lift (moduleArguments moduleContent moduleOutline moduleIndex) in
               runMutation (saveGeneratedModule capsuleId (fst arguments)
                              (snd arguments)) ;;
               let nextModuleIndex := (moduleIndex + 1)%nat in
               let isLastModule := (length modules <=? nextModuleIndex)%nat in
               runMutation (updateGenerationJob jobId
                 {| up_currentStage :=
                      Some (if isLastModule then str "finalizing"
                            else str "module_" ++ decimal nextModuleIndex);
                    up_outlineGenerated := None; up_outlineJson := None;
                    up_modulesGenerated := Some nextModuleIndex;
                    up_totalModules := None;
                    up_currentModuleIndex := Some nextModuleIndex;
                    up_lastError := None; up_retryCount := None;
                    up_completedAt := None |}) ;;
               if isLastModule then
                 runMutation (runAfter 0
                   (FinalizeGeneration capsuleId jobId generationId))
               else
                 runMutation (runAfter 0
                   (GenerateModuleContent capsuleId jobId generationId
                      nextModuleIndex outline))
           end
     end)
    (fun error =>
       let* job := runQuery (getGenerationJobById jobId) in
       let retryCount :=
         (match job with
          | Some j => Job.retryCount j
          | None => 0
          end + 1)%nat in
       if (retryCount <? 3)%nat then
         runMutation (updateGenerationJob jobId
           {| up_currentStage := None; up_outlineGenerated := None;
              up_outlineJson := None; up_modulesGenerated := None;
              up_totalModules := None; up_currentModuleIndex := None;
              up_lastError := Some error; up_retryCount := Some retryCount;
              up_completedAt := None |}) ;;
         let delay := 2 ^ N.of_nat retryCount * 1000 in
         runMutation (runAfter delay
           (GenerateModuleContent capsuleId jobId generationId moduleIndex outline))
       else
         runMutation (updateCapsuleStatus
           (statusWithError capsuleId failed
              (str "Failed to generate module " ++ decimal (moduleIndex + 1)
               ++ str " after 3 attempts"))) ;;
         runMutation (updateGenerationJob jobId
           {| up_currentStage := None; up_outlineGenerated := None;
              up_outlineJson := None; up_modulesGenerated := None;
              up_totalModules := None; up_currentModuleIndex := None;
              up_lastError := Some error; up_retryCount := None;
              up_completedAt := None |})).

(** *** Stage 3: finalization *)

Definition finalizeGeneration (capsuleId jobId : nat) (generationId : jsstring)
  : Act unit :=
  try_catch
    (runMutation (updateCapsuleStatus (statusOnly capsuleId completed)) ;;
     let* t := runQuery now in
     runMutation (updateGenerationJob jobId
       {| up_currentStage := Some (str "completed");
          up_outlineGenerated := None; up_outlineJson := None;
          up_modulesGenerated := None; up_totalModules := None;
          up_currentModuleIndex := None;
          up_lastError := None; up_retryCount := None;
          up_completedAt := Some t |}))
    (fun error =>
       runMutation (updateCapsuleStatus
         (statusWithError capsuleId failed (str "Failed to finalize generation")))).

(** *** The system

    What can happen to the store: a client creates a capsule, calls the
    public mutation [updateCapsuleStatus] or the action
    [generateCapsuleContent]; the scheduler takes a pending call off its
    queue and runs it, the model answering as [env] says; time passes.
    Handlers run one after the other. *)

Inductive Event :=
| CreateCapsule (args : CreateCapsuleArgs)
| UpdateCapsuleStatus (args : UpdateCapsuleStatusArgs)
| Start (generationId : jsstring) (capsuleId : nat)
| RunTask (k : nat) (env : AiEnv)
| Tick (dt : N).

Definition runTask (env : AiEnv) (task : Task) : Act unit :=
  match task with
  | GenerateOutline capsuleId jobId generationId =>
      generateOutline env capsuleId jobId generationId
  | GenerateModuleContent capsuleId jobId generationId moduleIndex outline =>
      generateModuleContent env capsuleId jobId generationId moduleIndex outline
  | FinalizeGeneration capsuleId jobId generationId =>
      finalizeGeneration capsuleId jobId generationId
  end.

Definition dequeue (k : nat) : Mutation unit := fun st =>
  Ok (tt, set_scheduled (delete k (scheduled st)) st).

Definition advance (dt : N) : Mutation unit := fun st =>
  Ok (tt, {| capsules := capsules st;
             capsuleGenerationJobs := capsuleGenerationJobs st;
             capsuleModules := capsuleModules st;
             capsuleLessons := capsuleLessons st;
             scheduled := scheduled st; now := now st + dt |}).

Definition exec (e : Event) (w : World) : World :=
  match e with
  | CreateCapsule args => snd (runMutation (createCapsule args) w)
  | UpdateCapsuleStatus args => snd (runMutation (updateCapsuleStatus args) w)
  | Start generationId capsuleId =>
      snd (generateCapsuleContent generationId capsuleId w)
  | RunTask k env =>
      match scheduled (store w) !! k with
      | None => w
      | Some (_, task) => snd ((runMutation (dequeue k) ;; runTask env task) w)
      end
  | Tick dt => snd (runMutation (advance dt) w)
  end.

Definition initial : World := {| store := emptyStore; history := [] |}.

(** The world after a sequence of events. *)
Definition timeline (events : list Event) : World :=
  fold_left (fun w e => exec e w) events initial.

End Handlers.

End Generation.


(* ===================================================================== *)
(** * Part II. Properties                                                 *)
(* ===================================================================== *)

(** ** The repair pipeline *)

Module RepairFacts.
Import Repair.

Section Bounds.

Variable JSON_parse : jsstring -> outcome json.
Variable JSON_stringify : json -> jsstring.
Variable generateText : RepairPayload -> outcome jsstring.

Local Abbreviation attempts := (attempts JSON_parse JSON_stringify generateText).
Local Abbreviation cycle := (cycle JSON_parse JSON_stringify).

(** A repair request reports the error of the cycle that failed on the
    candidate it quotes. *)
Definition reports (schema : option ZodType) (p : RepairPayload) : Prop :=
  exists candidate,
    cycle schema candidate = Throw (errorMessage p)
    /\ previousOutput p = take PROMPT_TRUNCATION_LIMIT candidate.

Lemma attempts_bounded opts m n :
  forall k cur last calls ran,
    let r := attempts opts m n k cur last calls ran in
    (length (repairCalls r) <= length calls + n)%nat
    /\ (cycles r <= ran + n)%nat
    /\ (length (repairCalls r) + ran <= cycles r + length calls)%nat.
Proof.
  induction n as [|n IH]; intros k cur last calls ran; cbn zeta; simpl.
  - repeat split; lia.
  - destruct (cycle (o_schema opts) cur) as [text|error]; simpl;
      [repeat split; lia|].
    unfold repairStructuredJson.
    match goal with |- context [generateText ?p] => destruct (generateText p) end.
    + match goal with |- context [attempts opts m n ?a ?b ?c ?d ?e] =>
        specialize (IH a b c d e) end.
      cbn zeta in IH. rewrite length_app in IH. simpl in IH.
      destruct IH as (H1 & H2 & H3). repeat split; lia.
    + simpl. rewrite length_app. simpl. repeat split; lia.
Qed.

Lemma attempts_reports opts m n :
  forall k cur last calls ran,
    Forall (reports (o_schema opts)) calls ->
    Forall (reports (o_schema opts))
      (repairCalls (attempts opts m n k cur last calls ran)).
Proof.
  induction n as [|n IH]; intros k cur last calls ran Hc; simpl; [done|].
  destruct (cycle (o_schema opts) cur) as [text|error] eqn:Hcy; simpl; [done|].
  unfold repairStructuredJson.
  match goal with |- context [generateText ?p] =>
    assert (Hp : reports (o_schema opts) p) by (exists cur; simpl; done);
    destruct (generateText p) end.
  - apply IH. apply Forall_app; split; [done|]. by constructor.
  - simpl. apply Forall_app; split; [done|]. by constructor.
Qed.

(** What the loop adds to the requests already sent, when the run returns
    no text.  If the model answered each of the added requests, the loop ran
    all its [n] iterations, sent [n] requests and threw the error of the
    last cycle.  And the run returns no text when the cycle fails on the
    current candidate and on the answer to each added request. *)
Lemma attempts_unreturned opts m n :
  forall k cur lastError calls ran,
    lastError = errorMessage <$> last calls ->
    let r := attempts opts m n k cur lastError calls ran in
    exists sent,
      repairCalls r = calls ++ sent
      /\ ((forall p, In p sent -> exists t, generateText p = Ok t) ->
          (forall text, result r <> Ok text) ->
          cycles r = (ran + n)%nat
          /\ length sent = n
          /\ result r =
             Throw (str "Failed to validate JSON after " ++ decimalZ m
                    ++ str " attempts: "
                    ++ buildErrorMessage (errorMessage <$> last (repairCalls r))))
      /\ ((exists e, cycle (o_schema opts) cur = Throw e) ->
          (forall p t, In p sent -> generateText p = Ok t ->
             exists e, cycle (o_schema opts) (stripMarkdownFences t) = Throw e) ->
          forall text, result r <> Ok text).
Proof.
  induction n as [|n IH]; intros k cur lastError calls ran Hl; cbn zeta; simpl.
  - exists []. rewrite app_nil_r. split; [done|]. split; [|done].
    intros _ _. subst. split; [lia|]. done.
  - destruct (cycle (o_schema opts) cur) as [text|error] eqn:Hcy; simpl.
    { exists []. rewrite app_nil_r. split; [done|]. split.
      - intros _ Hno. by destruct (Hno text).
      - by intros [e He]. }
    unfold repairStructuredJson.
    match goal with |- context [generateText ?p] =>
      set (payload := p); destruct (generateText payload) as [t|e] eqn:Ht end.
    + match goal with |- context [attempts opts m n ?a ?b ?c ?d ?e] =>
        specialize (IH a b c d e) end.
      cbn zeta in IH. rewrite last_snoc in IH. specialize (IH eq_refl).
      destruct IH as (sent & Hsent & Hall & Hfail).
      exists (payload :: sent). split; [by rewrite Hsent, <- app_assoc|]. split.
      * intros Hans Hno.
        destruct Hall as (H1 & H2 & H3); [by intros p Hp; apply Hans; right|done|].
        split; [lia|]. split; [simpl; lia|done].
      * intros _ Hbad. apply Hfail.
        -- apply (Hbad payload t); [by left|done].
        -- intros p t' Hp. apply Hbad. by right.
    + simpl. exists [payload]. split; [done|]. split; [|done].
      intros Hans _. destruct (Hans payload) as [t Ht']; [by left|]. congruence.
Qed.

End Bounds.

(** C3. Bounded repair attempts: whatever the input and the schema,
    [validateAndCorrectJson] sends at most [maxAttempts] repair requests
    (and never more requests than it ran cycles), each request reporting
    the error of a failed cycle.  When no cycle of the run succeeds, that
    is, when the run returns no text, and the model answered each request
    of the run, it ran exactly [maxAttempts] cycles and throws an error whose
    message ends with the error of the last cycle, the one the last request
    reports.  No cycle of the run succeeds when the cycle fails on the input
    and on each answer the model gave to a request of the run. *)
Theorem repair_attempts_are_bounded
    (JSON_parse : jsstring -> outcome json) (JSON_stringify : json -> jsstring)
    (generateText : RepairPayload -> outcome jsstring)
    (jsonString : jsstring) (options : Options) :
  let maxAttempts := default DEFAULT_ATTEMPTS (o_maxAttempts options) in
  let r := validateAndCorrectJson JSON_parse JSON_stringify generateText
             jsonString options in
  (0 <= maxAttempts)%Z ->
  (Z.of_nat (length (repairCalls r)) <= maxAttempts)%Z
  /\ (Z.of_nat (cycles r) <= maxAttempts)%Z
  /\ (length (repairCalls r) <= cycles r)%nat
  /\ Forall (reports JSON_parse JSON_stringify (o_schema options)) (repairCalls r)
  /\ ((forall p, In p (repairCalls r) -> exists t, generateText p = Ok t) ->
      (forall text, result r <> Ok text) ->
      Z.of_nat (cycles r) = maxAttempts
      /\ Z.of_nat (length (repairCalls r)) = maxAttempts
      /\ result r =
         Throw (str "Failed to validate JSON after " ++ decimalZ maxAttempts
                ++ str " attempts: "
                ++ buildErrorMessage (errorMessage <$> last (repairCalls r))))
  /\ ((exists e, cycle JSON_parse JSON_stringify (o_schema options)
                   (stripMarkdownFences jsonString) = Throw e) ->
      (forall p t, In p (repairCalls r) -> generateText p = Ok t ->
         exists e, cycle JSON_parse JSON_stringify (o_schema options)
                     (stripMarkdownFences t) = Throw e) ->
      forall text, result r <> Ok text).
Proof.
  intros maxAttempts r Hpos. subst r. unfold validateAndCorrectJson.
  fold maxAttempts.
  pose proof (attempts_bounded JSON_parse JSON_stringify generateText options
                maxAttempts (Z.to_nat maxAttempts) 0%nat
                (stripMarkdownFences jsonString) None [] 0%nat) as Hb.
  cbn zeta in Hb. simpl in Hb. destruct Hb as (Hb1 & Hb2 & Hb3).
  split; [lia|]. split; [lia|]. split; [lia|]. split.
  { apply attempts_reports. constructor. }
  destruct (attempts_unreturned JSON_parse JSON_stringify generateText options
              maxAttempts (Z.to_nat maxAttempts) 0%nat
              (stripMarkdownFences jsonString) None [] 0%nat eq_refl)
    as (sent & Hsent & Hall & Hfail).
  simpl in Hsent. rewrite Hsent. split.
  - intros Hans Hno. destruct (Hall Hans Hno) as (H1 & H2 & H3).
    rewrite Hsent in H3. split; [lia|]. split; [lia|]. exact H3.
  - exact Hfail.
Qed.

(** A schema that requires a string as [topic], and a model that answers
    every request with the same document, in which the topic is a number:
    the input is never repaired. *)
Definition topicRequired : ZodType := fun v =>
  match prop "topic" v with
  | Some (JStr _) => Ok v
  | _ => Throw (str "Required")
  end.
Definition sameAnswer : RepairPayload -> outcome jsstring :=
  fun _ => Ok (jtext "{'topic': 1}").
Definition strictOptions : Options :=
  {| o_schema := Some topicRequired; o_schemaName := None; o_schemaDescription := None;
     o_originalInput := None; o_format := None; o_maxAttempts := None |}.

Lemma repair_attempts_are_bounded_witness :
  let r := validateAndCorrectJson JSON_parse JSON_stringify_pretty sameAnswer
             (jtext "{'topic': 1}") strictOptions in
  (exists text, topicRequired (JObj [(str "topic", JStr (str "Sorting"))]) = Ok text)
  /\ Z.of_nat (cycles r) = 5%Z
  /\ Z.of_nat (length (repairCalls r)) = 5%Z
  /\ result r = Throw (str "Failed to validate JSON after 5 attempts: Required").
Proof.
  cbn zeta. split; [by eexists|].
  destruct (repair_attempts_are_bounded JSON_parse JSON_stringify_pretty sameAnswer
              (jtext "{'topic': 1}") strictOptions) as (_ & _ & _ & _ & Hall & Hfail).
  - vm_compute. discriminate.
  - destruct Hall as (H1 & H2 & H3).
    + intros p _. by eexists.
    + apply Hfail.
      * eexists. vm_compute. reflexivity.
      * intros p t _ [= <-]. eexists. vm_compute. reflexivity.
    + split; [exact H1|]. split; [exact H2|]. rewrite H3. vm_compute. reflexivity.
Defined.

(** The statement "a document that parses and satisfies the schema comes
    back semantically equal, on the first attempt, with no repair
    request", for given built-ins. *)
Definition returns_valid_input_unchanged
    (JSON_parse : jsstring -> outcome json) (JSON_stringify : json -> jsstring)
    (generateText : RepairPayload -> outcome jsstring) : Prop :=
  forall (jsonString : jsstring) (options : Options) (v : json),
    JSON_parse jsonString = Ok v ->
    (forall sch, o_schema options = Some sch -> exists v', sch v = Ok v') ->
    (0 < default DEFAULT_ATTEMPTS (o_maxAttempts options))%Z ->
    let r := validateAndCorrectJson JSON_parse JSON_stringify generateText
               jsonString options in
    cycles r = 1%nat /\ repairCalls r = []
    /\ exists text, result r = Ok text /\ JSON_parse text = Ok v.

Definition plainOptions : Options :=
  {| o_schema := None; o_schemaName := None; o_schemaDescription := None;
     o_originalInput := None; o_format := None; o_maxAttempts := None |}.

(** C4, as stated, fails: the document [{"a":[]}] is valid JSON, no
    schema is given, and the pipeline returns [{}], which is a different
    document. *)
Lemma empty_array_field_is_dropped :
  ~ returns_valid_input_unchanged JSON_parse JSON_stringify_pretty sameAnswer.
Proof.
  intros H.
  destruct (H (jtext "{'a':[]}") plainOptions (JObj [(str "a", JArr [])]))
    as (_ & _ & text & Ht & Hp).
  - vm_compute. reflexivity.
  - intros sch Hs. discriminate Hs.
  - vm_compute. reflexivity.
  - vm_compute in Ht. injection Ht as <-. vm_compute in Hp. discriminate Hp.
Qed.

(** C4, amended. A document that the two textual repairs leave as it is
    (fence stripping and the LaTeX fix), that parses, that has no
    empty-array field to drop and that the schema accepts is answered on
    the first attempt, with no repair request, by the pretty-printed
    serialization of the value the schema returns for it, which is the
    document's own value when there is no schema or the schema returns its
    input. *)
Theorem valid_input_is_reserialized
    (JSON_parse : jsstring -> outcome json) (JSON_stringify : json -> jsstring)
    (generateText : RepairPayload -> outcome jsstring)
    (jsonString : jsstring) (options : Options) (v v' : json) :
  (0 < default DEFAULT_ATTEMPTS (o_maxAttempts options))%Z ->
  stripMarkdownFences jsonString = jsonString ->
  fixLatexEscapes jsonString = jsonString ->
  JSON_parse jsonString = Ok v ->
  removeEmptyArrays v = v ->
  match o_schema options with
  | Some sch => sch v = Ok v'
  | None => v' = v
  end ->
  validateAndCorrectJson JSON_parse JSON_stringify generateText jsonString options
  = {| result := Ok (JSON_stringify v'); repairCalls := []; cycles := 1 |}.
Proof.
  intros Hpos Hstrip Hfix Hparse Hclean Hschema.
  unfold validateAndCorrectJson.
  destruct (Z.to_nat (default DEFAULT_ATTEMPTS (o_maxAttempts options))) as [|n] eqn:Hn;
    [lia|].
  simpl. unfold cycle. rewrite !Hstrip, Hfix, Hparse, Hclean.
  destruct (o_schema options) as [sch|].
  - rewrite Hschema. reflexivity.
  - subst v'. reflexivity.
Qed.

Lemma valid_input_is_reserialized_witness :
  validateAndCorrectJson JSON_parse JSON_stringify_pretty sameAnswer
    (jtext "{'topic': 'Sorting', 'sections': [1, 2]}") plainOptions
  = {| result :=
         Ok (JSON_stringify_pretty
               (JObj [(str "topic", JStr (str "Sorting"));
                      (str "sections", JArr [JNum (str "1"); JNum (str "2")])]));
       repairCalls := []; cycles := 1 |}.
Proof.
  apply (valid_input_is_reserialized JSON_parse JSON_stringify_pretty sameAnswer
           (jtext "{'topic': 'Sorting', 'sections': [1, 2]}") plainOptions
           (JObj [(str "topic", JStr (str "Sorting"));
                  (str "sections", JArr [JNum (str "1"); JNum (str "2")])])).
  - reflexivity.
  - vm_compute. reflexivity.
  - vm_compute. reflexivity.
  - vm_compute. reflexivity.
  - vm_compute. reflexivity.
  - reflexivity.
Defined.

(** The other two conditions of the amended statement are needed as
    well.  The LaTeX fix rewrites the escape [\n] of a valid document when
    the letter [u] and a non-letter follow it ([\nu] is on its list): the
    value changes from a line feed followed by "u" to a backslash followed
    by "nu". *)
Example latex_fix_changes_a_valid_document :
  JSON_parse (jtext "{'a':'x\nu'}") = Ok (JObj [(str "a", JStr [120; 10; 117])])
  /\ result (validateAndCorrectJson JSON_parse JSON_stringify_pretty sameAnswer
               (jtext "{'a':'x\nu'}") plainOptions)
     = Ok (JSON_stringify_pretty (JObj [(str "a", JStr [120; 92; 110; 117])])).
Proof. split; vm_compute; reflexivity. Qed.

(** Fence stripping takes the text between the first brace and the last
    out of a valid document that is a string literal. *)
Example fence_strip_changes_a_valid_document :
  JSON_parse (jtext "'a {b} c'") = Ok (JStr (str "a {b} c"))
  /\ stripMarkdownFences (jtext "'a {b} c'") = str "{b}"
  /\ cycle JSON_parse JSON_stringify_pretty None (jtext "'a {b} c'")
     = Throw syntax_error.
Proof. repeat split; vm_compute; reflexivity. Qed.

End RepairFacts.

(** ** The notes quiz schema *)

Module NotesSchemaFacts.
Import NotesSchema.

Lemma includes_In opts x : includes opts x = true <-> In x opts.
Proof.
  unfold includes. rewrite existsb_exists. split.
  - intros (y & Hy & He). unfold jsstring_eqb in He.
    apply bool_decide_eq_true in He. by subst.
  - intros Hx. exists x. split; [done|]. unfold jsstring_eqb.
    by apply bool_decide_eq_true.
Qed.

Definition answerNotAnOption : string :=
  "Correct answer must be one of the provided options".
Definition needsFourOptions : string :=
  "Multiple choice questions require exactly 4 options".

Lemma optionIssues_message i opts iss :
  In iss (optionIssues i opts) ->
  message iss = str "String must contain at least 1 character(s)".
Proof.
  revert i. induction opts as [|o t IH]; intros i H; simpl in H; [done|].
  apply in_app_or in H as [H|H]; [|by eapply IH].
  destruct o; simpl in H; [|done]. destruct H as [<-|[]]. reflexivity.
Qed.

(** The object schema never reports the membership violation. *)
Lemma objectIssues_not_membership v iss :
  In iss (objectIssues v) -> message iss <> str answerNotAnOption.
Proof.
  unfold objectIssues. intros H.
  repeat (apply in_app_or in H as [H|H]).
  - destruct (question v); simpl in H; [|done]. destruct H as [<-|[]]. by vm_compute.
  - destruct (options v) as [opts|]; [|done].
    apply optionIssues_message in H. rewrite H. by vm_compute.
  - destruct (correctAnswer v); simpl in H; [|done]. destruct H as [<-|[]]. by vm_compute.
  - destruct (explanation v); simpl in H; [|done]. destruct H as [<-|[]]. by vm_compute.
Qed.

Lemma rejected_of_refine v iss :
  In iss (refineIssues v) -> sectionQuizSchema v = false.
Proof.
  intros H. unfold sectionQuizSchema, sectionQuizIssues.
  destruct (objectIssues v ++ refineIssues v) eqn:E; [|done].
  apply app_eq_nil in E as [_ E]. rewrite E in H. destruct H.
Qed.

(** The statement "an mcq item is accepted only with four options that
    include its answer, and an mcq item whose answer is not among its
    options is rejected with the membership violation". *)
Definition mcq_answer_membership : Prop :=
  forall v, type v = mcq ->
    (sectionQuizSchema v = true ->
     exists opts, options v = Some opts /\ length opts = 4%nat
                  /\ In (correctAnswer v) opts)
    /\ (forall opts, options v = Some opts -> ~ In (correctAnswer v) opts ->
        sectionQuizSchema v = false /\ has_violation answerNotAnOption v).

Definition threeOptions : SectionQuiz :=
  {| type := mcq; question := str "Which one is stable?";
     options := Some [str "quick sort"; str "heap sort"; str "selection sort"];
     correctAnswer := str "merge sort";
     explanation := str "Merge sort keeps equal keys in order." |}.

(** C10, as stated, fails: with three options that do not include the
    answer, the item is rejected with the option-count violation only. *)
Lemma three_options_report_the_count_only : ~ mcq_answer_membership.
Proof.
  intros H. destruct (H threeOptions eq_refl) as [_ H2].
  destruct (H2 _ eq_refl) as [_ (iss & Hin & Hm)].
  - vm_compute. intros [Hx|[Hx|[Hx|[]]]]; discriminate Hx.
  - vm_compute in Hin. destruct Hin as [<-|[]]. vm_compute in Hm. discriminate Hm.
Qed.

(** C10, amended. An mcq item is accepted only if it has exactly 4 options
    and its answer is one of them.  An mcq item whose answer is not among
    its options is rejected: with the violation "Correct answer must be one
    of the provided options" when it has exactly 4 options, and otherwise
    with "Multiple choice questions require exactly 4 options" and without
    the membership violation. *)
Theorem mcq_answer_must_be_an_option (v : SectionQuiz) :
  type v = mcq ->
  (sectionQuizSchema v = true ->
   exists opts, options v = Some opts /\ length opts = 4%nat
                /\ In (correctAnswer v) opts)
  /\ (forall opts, options v = Some opts -> ~ In (correctAnswer v) opts ->
      sectionQuizSchema v = false
      /\ (length opts = 4%nat -> has_violation answerNotAnOption v)
      /\ (length opts <> 4%nat ->
          has_violation needsFourOptions v /\ ~ has_violation answerNotAnOption v)).
Proof.
  intros Hty. split.
  - unfold sectionQuizSchema, sectionQuizIssues. intros Hacc.
    destruct (objectIssues v ++ refineIssues v) eqn:E; [|done].
    apply app_eq_nil in E as [_ E]. unfold refineIssues in E.
    rewrite Hty in E. simpl in E. rewrite app_nil_r in E.
    destruct (options v) as [opts|]; [|done].
    destruct (length opts =? 4)%nat eqn:Hlen; simpl in E; [|done].
    destruct (includes opts (correctAnswer v)) eqn:Hinc; simpl in E; [|done].
    exists opts. split; [done|]. split.
    + by apply Nat.eqb_eq.
    + by apply includes_In.
  - intros opts Hopts Hnot.
    assert (Hinc : includes opts (correctAnswer v) = false).
    { destruct (includes opts (correctAnswer v)) eqn:E; [|done].
      apply includes_In in E. contradiction. }
    assert (Href : refineIssues v =
              if (length opts =? 4)%nat
              then [{| message := str answerNotAnOption; path := [str "correctAnswer"] |}]
              else [{| message := str needsFourOptions; path := [str "options"] |}]).
    { unfold refineIssues. rewrite Hty, Hopts. simpl. rewrite Hinc, app_nil_r.
      by destruct (length opts =? 4)%nat. }
    split; [|split].
    + destruct (length opts =? 4)%nat;
        (eapply rejected_of_refine; rewrite Href; left; reflexivity).
    + intros Hlen. apply Nat.eqb_eq in Hlen. rewrite Hlen in Href.
      exists {| message := str answerNotAnOption; path := [str "correctAnswer"] |}.
      split; [|reflexivity].
      unfold sectionQuizIssues. apply in_or_app. right. rewrite Href. by left.
    + intros Hlen. apply Nat.eqb_neq in Hlen. rewrite Hlen in Href. split.
      * exists {| message := str needsFourOptions; path := [str "options"] |}.
        split; [|reflexivity].
        unfold sectionQuizIssues. apply in_or_app. right. rewrite Href. by left.
      * intros (iss & Hin & Hm). unfold sectionQuizIssues in Hin.
        apply in_app_or in Hin as [Hin|Hin].
        -- by apply objectIssues_not_membership in Hin.
        -- rewrite Href in Hin. destruct Hin as [<-|[]]. vm_compute in Hm. discriminate Hm.
Qed.

Definition fourOptions : SectionQuiz :=
  {| type := mcq; question := str "Which one is stable?";
     options := Some [str "quick sort"; str "heap sort"; str "selection sort";
                      str "shell sort"];
     correctAnswer := str "merge sort";
     explanation := str "Merge sort keeps equal keys in order." |}.

Lemma mcq_answer_must_be_an_option_witness :
  sectionQuizSchema fourOptions = false /\ has_violation answerNotAnOption fourOptions.
Proof.
  destruct (mcq_answer_must_be_an_option fourOptions eq_refl) as [_ H].
  destruct (H _ eq_refl) as (Hrej & Hfour & _).
  - vm_compute. intros [Hx|[Hx|[Hx|[Hx|[]]]]]; discriminate Hx.
  - split; [exact Hrej|]. apply Hfour. reflexivity.
Defined.

End NotesSchemaFacts.

(** ** The generation pipeline *)

Module GenerationFacts.
Import Capsules Generation.

(** *** Running an action step by step *)

Lemma bind_ok {A B} (m : Act A) (k : A -> Act B) w a w' :
  m w = (Ok a, w') -> bind m k w = k a w'.
Proof. intros H. unfold bind. by rewrite H. Qed.

Lemma bind_throw {A B} (m : Act A) (k : A -> Act B) w e w' :
  m w = (Throw e, w') -> bind m k w = (Throw e, w').
Proof. intros H. unfold bind. by rewrite H. Qed.

Lemma runMutation_ok {A} (m : Mutation A) w a st' :
  m (store w) = Ok (a, st') -> runMutation m w = (Ok a, commit st' w).
Proof. intros H. unfold runMutation. by rewrite H. Qed.

Lemma runMutation_throw {A} (m : Mutation A) w e :
  m (store w) = Throw e -> runMutation m w = (Throw e, w).
Proof. intros H. unfold runMutation. by rewrite H. Qed.

Lemma updateCapsuleStatus_ok args st c :
  capsules st !! u_capsuleId args = Some c ->
  exists c', updateCapsuleStatus args st
             = Ok (tt, set_capsules (<[u_capsuleId args := c']> (capsules st)) st)
             /\ Capsule.status c' = u_status args
             /\ Capsule.errorMessage c'
                = patched (u_errorMessage args) (Capsule.errorMessage c).
Proof. intros H. unfold updateCapsuleStatus. rewrite H. by eexists. Qed.

Lemma updateGenerationJob_ok jobId updates st j :
  capsuleGenerationJobs st !! jobId = Some j ->
  updateGenerationJob jobId updates st
  = Ok (tt, set_jobs (<[jobId := patchJob updates (now st) j]>
                        (capsuleGenerationJobs st)) st).
Proof. intros H. unfold updateGenerationJob. by rewrite H. Qed.

(** *** The entry point *)

Definition alreadyGenerating : jsstring :=
  str "Capsule is already being generated or completed".

Definition startable (s : Status) : bool :=
  bool_decide (s = pending) || bool_decide (s = failed).

Lemma guard_startable s :
  bool_decide (s <> pending) && bool_decide (s <> failed) = negb (startable s).
Proof. by destruct s. Qed.

(** The job [createGenerationJob] inserts. *)
Definition freshJob (capsuleId : nat) (generationId : jsstring) (t : N) : Job.t :=
  {| Job.capsuleId := capsuleId; Job.generationId := generationId;
     Job.currentStage := str "outline"; Job.outlineGenerated := false;
     Job.modulesGenerated := 0; Job.totalModules := 0;
     Job.currentModuleIndex := 0; Job.outlineJson := None;
     Job.lastError := None; Job.retryCount := 0;
     Job.startedAt := t; Job.updatedAt := t; Job.completedAt := None |}.

(** What [updateCapsuleStatus] with only a status writes. *)
Definition withStatus (s : Status) (t : N) (c : Capsule.t) : Capsule.t :=
  {| Capsule.title := Capsule.title c;
     Capsule.description := Capsule.description c;
     Capsule.userPrompt := Capsule.userPrompt c;
     Capsule.sourceTopic := Capsule.sourceTopic c;
     Capsule.status := s;
     Capsule.errorMessage := Capsule.errorMessage c;
     Capsule.moduleCount := Capsule.moduleCount c;
     Capsule.lessonCount := Capsule.lessonCount c;
     Capsule.estimatedDuration := Capsule.estimatedDuration c;
     Capsule.createdAt := Capsule.createdAt c;
     Capsule.updatedAt := t;
     Capsule.completedAt :=
       if bool_decide (s = completed) then Some t else Capsule.completedAt c |}.

(** What [updateCapsuleStatus] with a status and an error message writes. *)
Definition withFailure (msg : jsstring) (t : N) (c : Capsule.t) : Capsule.t :=
  {| Capsule.title := Capsule.title c;
     Capsule.description := Capsule.description c;
     Capsule.userPrompt := Capsule.userPrompt c;
     Capsule.sourceTopic := Capsule.sourceTopic c;
     Capsule.status := failed;
     Capsule.errorMessage := Some msg;
     Capsule.moduleCount := Capsule.moduleCount c;
     Capsule.lessonCount := Capsule.lessonCount c;
     Capsule.estimatedDuration := Capsule.estimatedDuration c;
     Capsule.createdAt := Capsule.createdAt c;
     Capsule.updatedAt := t;
     Capsule.completedAt := Capsule.completedAt c |}.

Lemma start_missing generationId capsuleId w :
  capsules (store w) !! capsuleId = None ->
  generateCapsuleContent generationId capsuleId w = (Throw (str "Capsule not found"), w).
Proof.
  intros H. unfold generateCapsuleContent, bind, runQuery, getCapsule, throw.
  by rewrite H.
Qed.

Lemma start_refused generationId capsuleId w c :
  capsules (store w) !! capsuleId = Some c ->
  startable (Capsule.status c) = false ->
  generateCapsuleContent generationId capsuleId w
  = (Ok {| success := false; r_generationId := None; r_jobId := None;
           r_error := Some alreadyGenerating |}, w).
Proof.
  intros H Hs. unfold generateCapsuleContent, bind, runQuery, getCapsule, ret.
  rewrite H, guard_startable, Hs. reflexivity.
Qed.

Lemma start_accepted generationId capsuleId w c :
  capsules (store w) !! capsuleId = Some c ->
  startable (Capsule.status c) = true ->
  let st := store w in
  let jobId := length (capsuleGenerationJobs st) in
  let st1 := set_jobs (capsuleGenerationJobs st
                       ++ [freshJob capsuleId generationId (now st)]) st in
  let st2 := set_capsules (<[capsuleId := withStatus generating_outline (now st) c]>
                             (capsules st)) st1 in
  let st3 := set_scheduled (scheduled st
                            ++ [(0, GenerateOutline capsuleId jobId generationId)]) st2 in
  generateCapsuleContent generationId capsuleId w
  = (Ok {| success := true; r_generationId := Some generationId;
           r_jobId := Some jobId; r_error := None |},
     {| store := st3; history := st2 :: st1 :: st :: history w |}).
Proof.
  intros H Hs. cbn zeta.
  unfold generateCapsuleContent, bind, runQuery, getCapsule, ret.
  rewrite H, guard_startable, Hs. simpl.
  unfold runMutation, updateCapsuleStatus. simpl. rewrite H.
  reflexivity.
Qed.

(** C9. [generateCapsuleContent] throws "Capsule not found" on an unknown
    id; it returns [{success: false, error}] exactly when the capsule
    exists with a status that is neither "pending" nor "failed", and then
    it commits nothing: no job is created, the capsule is as it was,
    nothing is scheduled. *)
Theorem start_guard (generationId : jsstring) (capsuleId : nat) (w : World) :
  (capsules (store w) !! capsuleId = None ->
   generateCapsuleContent generationId capsuleId w
   = (Throw (str "Capsule not found"), w))
  /\ ((exists res, fst (generateCapsuleContent generationId capsuleId w) = Ok res
                   /\ success res = false)
      <-> (exists c, capsules (store w) !! capsuleId = Some c
                     /\ Capsule.status c <> pending /\ Capsule.status c <> failed))
  /\ (forall res, fst (generateCapsuleContent generationId capsuleId w) = Ok res ->
      success res = false ->
      snd (generateCapsuleContent generationId capsuleId w) = w
      /\ r_error res = Some alreadyGenerating).
Proof.
  split; [apply start_missing|].
  destruct (capsules (store w) !! capsuleId) as [c|] eqn:Hc.
  - destruct (startable (Capsule.status c)) eqn:Hs.
    + pose proof (start_accepted generationId capsuleId w c Hc Hs) as E.
      cbn zeta in E. rewrite E. simpl. split.
      * split.
        -- intros (res & Hr & Hf). injection Hr as <-. discriminate Hf.
        -- intros (c' & Hc' & Hp & Hf). injection Hc' as <-.
           unfold startable in Hs. destruct (Capsule.status c); done.
      * intros res Hr Hf. injection Hr as <-. discriminate Hf.
    + rewrite (start_refused generationId capsuleId w c Hc Hs). simpl. split.
      * split.
        -- intros _. exists c. split; [done|].
           unfold startable in Hs. destruct (Capsule.status c); done.
        -- intros _. eexists. split; reflexivity.
      * intros res Hr Hf. injection Hr as <-. done.
  - rewrite (start_missing generationId capsuleId w Hc). simpl. split.
    + split.
      * intros (res & Hr & _). discriminate Hr.
      * intros (c & Hc' & _). discriminate Hc'.
    + intros res Hr. discriminate Hr.
Qed.

(** *** Scenarios *)

Definition sorting : CreateCapsuleArgs :=
  {| cc_title := str "Sorting algorithms"; cc_topicSource := true;
     cc_sourceTopic := Some (str "Sorting algorithms"); cc_userPrompt := None |}.

(** The model answers with the text [t]. *)
Definition answers (t : jsstring) : AiEnv :=
  {| apiKey := Some (str "key"); reply := Candidates (Some t) |}.

(** The request fails. *)
Definition unavailable : AiEnv :=
  {| apiKey := Some (str "key"); reply := NotOk 503 (str "overloaded") |}.

Definition twoModules : jsstring :=
  jtext "{'description':'Two ways to sort','estimatedDuration':45,'modules':[{'title':'Insertion sort','lessons':[{'title':'The idea'}]},{'title':'Merge sort','lessons':[{'title':'Divide'},{'title':'Merge'}]}]}".

Definition insertionSort : jsstring :=
  jtext "{'title':'Insertion sort','introduction':'Sorting by insertion','lessons':[{'title':'The idea','content':{'sections':[{'type':'concept','title':'Idea','content':'Insert each key in place'}]}}]}".

Definition mergeSort : jsstring :=
  jtext "{'title':'Merge sort','lessons':[{'title':'Divide','content':{'sections':[]}},{'title':'Merge','content':{'sections':[]}}]}".

Definition started : list Event :=
  [CreateCapsule sorting; Start (str "gen_1") 0%nat].

Definition outlined : list Event :=
  started ++ [RunTask 0 (answers twoModules)].

Lemma start_guard_witness :
  generateCapsuleContent (str "gen_2") 0%nat (timeline JSON_parse outlined)
  = (Ok {| success := false; r_generationId := None; r_jobId := None;
           r_error := Some alreadyGenerating |},
     timeline JSON_parse outlined).
Proof.
  destruct (start_guard (str "gen_2") 0%nat (timeline JSON_parse outlined))
    as (_ & [_ Hex] & Hsame).
  destruct Hex as (res & Hres & Hfalse).
  { eexists. split; [vm_compute; reflexivity|]. split; vm_compute; discriminate. }
  destruct (Hsame res Hres Hfalse) as [Hw He].
  destruct (generateCapsuleContent (str "gen_2") 0%nat (timeline JSON_parse outlined))
    as [r w'] eqn:E.
  simpl in Hres, Hw. subst r w'. destruct res as [s g j e]. simpl in *. by subst.
Defined.

(** *** Job creation and the status transition *)

(** The statement "in no observable store is there a job for a capsule
    whose status is pending or failed". *)
Definition job_only_while_generating
    (JSON_parse : jsstring -> outcome json) : Prop :=
  forall events st j job c,
    In st (observed (timeline JSON_parse events)) ->
    capsuleGenerationJobs st !! j = Some job ->
    capsules st !! Job.capsuleId job = Some c ->
    Capsule.status c <> pending /\ Capsule.status c <> failed.

(** C7, as stated, fails: after [createGenerationJob] has committed and
    before [updateCapsuleStatus] has, the job exists and the capsule is
    still pending. *)
Lemma job_exists_while_pending : ~ job_only_while_generating JSON_parse.
Proof.
  intros H.
  edestruct (H started) as [Hp _].
  - vm_compute. right. right. left. reflexivity.
  - instantiate (2 := 0%nat). vm_compute. reflexivity.
  - vm_compute. reflexivity.
  - apply Hp. reflexivity.
Qed.

(** C7, amended. On a capsule that is pending or failed,
    [generateCapsuleContent] commits three times: first the new job (stage
    "outline", counters 0), the capsule being as it was; then the status
    "generating_outline"; then the scheduled outline generation.  The job
    is created before the transition, not atomically with it. *)
Theorem job_precedes_status_transition
    (generationId : jsstring) (capsuleId : nat) (w : World) (c : Capsule.t) :
  capsules (store w) !! capsuleId = Some c ->
  Capsule.status c = pending \/ Capsule.status c = failed ->
  let jobId := length (capsuleGenerationJobs (store w)) in
  exists st1 st2 st3,
    generateCapsuleContent generationId capsuleId w
    = (Ok {| success := true; r_generationId := Some generationId;
             r_jobId := Some jobId; r_error := None |},
       {| store := st3; history := st2 :: st1 :: store w :: history w |})
    /\ capsuleGenerationJobs st1 !! jobId
       = Some (freshJob capsuleId generationId (now (store w)))
    /\ capsules st1 = capsules (store w)
    /\ capsuleGenerationJobs st2 = capsuleGenerationJobs st1
    /\ capsules st2 !! capsuleId
       = Some (withStatus generating_outline (now (store w)) c)
    /\ capsuleGenerationJobs st3 = capsuleGenerationJobs st1
    /\ capsules st3 = capsules st2
    /\ scheduled st3
       = scheduled (store w) ++ [(0, GenerateOutline capsuleId jobId generationId)].
Proof.
  intros Hc Hs jobId.
  assert (Hst : startable (Capsule.status c) = true).
  { unfold startable. destruct Hs as [-> | ->]; reflexivity. }
  pose proof (start_accepted generationId capsuleId w c Hc Hst) as E.
  cbn zeta in E. do 3 eexists. split; [exact E|]. simpl.
  split; [by rewrite lookup_app_r, Nat.sub_diag|].
  split; [done|]. split; [done|].
  split; [apply list_lookup_insert_eq; by eapply lookup_lt_Some|].
  done.
Qed.

Lemma job_precedes_status_transition_witness :
  exists st1 st2,
    history (snd (generateCapsuleContent (str "gen_1") 0%nat
                    (timeline JSON_parse [CreateCapsule sorting])))
    = st2 :: st1 :: observed (timeline JSON_parse [CreateCapsule sorting])
    /\ Job.capsuleId <$> capsuleGenerationJobs st1 !! 0%nat = Some 0%nat
    /\ Capsule.status <$> capsules st1 !! 0%nat = Some pending.
Proof.
  destruct (job_precedes_status_transition (str "gen_1") 0%nat
              (timeline JSON_parse [CreateCapsule sorting])
              (withStatus pending 0
                 {| Capsule.title := str "Sorting algorithms";
                    Capsule.description := None; Capsule.userPrompt := None;
                    Capsule.sourceTopic := Some (str "Sorting algorithms");
                    Capsule.status := pending; Capsule.errorMessage := None;
                    Capsule.moduleCount := None; Capsule.lessonCount := None;
                    Capsule.estimatedDuration := None; Capsule.createdAt := 0;
                    Capsule.updatedAt := 0; Capsule.completedAt := None |}))
    as (st1 & st2 & st3 & E & Hj & Hc & _).
  - vm_compute. reflexivity.
  - left. reflexivity.
  - exists st1, st2. rewrite E. simpl. split; [reflexivity|].
    change (capsuleGenerationJobs st1 !! 0%nat
            = Some (freshJob 0%nat (str "gen_1") 0)) in Hj.
    split; [by rewrite Hj|]. rewrite Hc. vm_compute. reflexivity.
Defined.

(** *** Outline rejection *)

(** The statement "when the outline generator returns an error object
    with a message, the capsule is failed with that message". *)
Definition outline_error_is_verbatim
    (JSON_parse : jsstring -> outcome json) : Prop :=
  forall env w capsuleId jobId generationId c resp m,
    capsules (store w) !! capsuleId = Some c ->
    generateCapsuleOutlineAI JSON_parse env = Ok resp ->
    is_truthy (prop "error" resp) = true ->
    prop "message" resp = Some (JStr m) ->
    exists c',
      capsules (store (snd (generateOutline JSON_parse env capsuleId jobId
                              generationId w))) !! capsuleId = Some c'
      /\ Capsule.status c' = failed
      /\ Capsule.errorMessage c' = Some m.

Definition emptyRejection : jsstring :=
  jtext "{'error':true,'errorType':'CONTENT_SAFETY_VIOLATION','message':''}".

(** C6, as stated, fails: an error object whose message is the empty
    string fails the capsule with the default text, not with the
    message. *)
Lemma empty_message_is_replaced : ~ outline_error_is_verbatim JSON_parse.
Proof.
  intros H.
  edestruct (H (answers emptyRejection) (timeline JSON_parse started)
               0%nat 0%nat (str "gen_1")) as (c' & Hc' & _ & Hm).
  - vm_compute. reflexivity.
  - vm_compute. reflexivity.
  - reflexivity.
  - reflexivity.
  - vm_compute in Hc'. injection Hc' as <-. vm_compute in Hm. discriminate Hm.
Qed.

(** C6, amended. When the outline generator returns an error object
    whose message is present and not empty, [generateOutline] commits
    once: the capsule becomes "failed" with that message as its
    errorMessage.  Nothing is scheduled, no job is touched, and the run
    ends there, so the capsule does not become "generating_content" in
    it. *)
Theorem outline_rejection_is_terminal
    (JSON_parse : jsstring -> outcome json) (env : AiEnv) (w : World)
    (capsuleId jobId : nat) (generationId : jsstring) (c : Capsule.t)
    (resp : json) (m : jsstring) :
  capsules (store w) !! capsuleId = Some c ->
  generateCapsuleOutlineAI JSON_parse env = Ok resp ->
  is_truthy (prop "error" resp) = true ->
  prop "message" resp = Some (JStr m) ->
  m <> [] ->
  exists st',
    generateOutline JSON_parse env capsuleId jobId generationId w
    = (Ok tt, {| store := st'; history := store w :: history w |})
    /\ capsules st' !! capsuleId = Some (withFailure m (now (store w)) c)
    /\ scheduled st' = scheduled (store w)
    /\ capsuleGenerationJobs st' = capsuleGenerationJobs (store w)
    /\ capsuleModules st' = capsuleModules (store w).
Proof.
  intros Hc Hai Herr Hmsg Hne.
  destruct m as [|ch rest]; [done|].
  assert (Hnull : is_null resp = false) by (by destruct resp).
  eexists. split.
  - unfold generateOutline, try_catch, bind, runQuery, getCapsuleForGeneration, lift,
      member.
    rewrite Hc, Hai, Hnull, Herr. unfold or_value. rewrite Hmsg. simpl.
    unfold runMutation, updateCapsuleStatus. simpl. rewrite Hc. reflexivity.
  - simpl. split; [|done].
    apply list_lookup_insert_eq. by eapply lookup_lt_Some.
Qed.

Definition urlRejection : jsstring :=
  jtext "{'error':true,'errorType':'CONTENT_SAFETY_VIOLATION','message':'URLs and links cannot be used as course topics.'}".

Lemma outline_rejection_is_terminal_witness :
  let w' := snd (generateOutline JSON_parse (answers urlRejection) 0%nat 0%nat
                   (str "gen_1") (timeline JSON_parse started)) in
  history w' = observed (timeline JSON_parse started)
  /\ (Capsule.status <$> capsules (store w') !! 0%nat) = Some failed
  /\ (Capsule.errorMessage <$> capsules (store w') !! 0%nat)
     = Some (Some (str "URLs and links cannot be used as course topics."))
  /\ scheduled (store w') = scheduled (store (timeline JSON_parse started)).
Proof.
  cbn zeta.
  edestruct (outline_rejection_is_terminal JSON_parse (answers urlRejection)
               (timeline JSON_parse started) 0%nat 0%nat (str "gen_1"))
    as (st' & E & Hc & Hs & _).
  - vm_compute. reflexivity.
  - vm_compute. reflexivity.
  - reflexivity.
  - reflexivity.
  - discriminate.
  - rewrite E. simpl. rewrite Hc, Hs. simpl. done.
Defined.

(** *** Retries of a module *)

(** The [outline] argument for the outline document of the text [t]. *)
Definition outlineOf (t : jsstring) : Outline.t :=
  match JSON_parse t with
  | Ok v => {| Outline.document := v;
               Outline.modules := default [] (prop_array "modules" v) |}
  | Throw _ => {| Outline.document := JNull; Outline.modules := [] |}
  end.

Definition moduleTask (moduleIndex : nat) : Task :=
  GenerateModuleContent 0%nat 0%nat (str "gen_1") moduleIndex (outlineOf twoModules).

Definition statusOf (capsuleId : nat) (w : World) : option Status :=
  Capsule.status <$> capsules (store w) !! capsuleId.

Definition errorOf (capsuleId : nat) (w : World) : option (option jsstring) :=
  Capsule.errorMessage <$> capsules (store w) !! capsuleId.

Definition retryCountOf (jobId : nat) (w : World) : option nat :=
  Job.retryCount <$> capsuleGenerationJobs (store w) !! jobId.

(** One failure of a module invocation, for any store: the count read
    from the job is incremented; when the incremented count is below 3 it
    is stored and the same call is scheduled after 2^count seconds;
    otherwise the capsule is failed and nothing is scheduled. *)
Lemma module_failure
    (JSON_parse : jsstring -> outcome json) (env : AiEnv) (w : World)
    (capsuleId jobId : nat) (generationId : jsstring) (moduleIndex : nat)
    (outline : Outline.t) (moduleOutline : json) (c : Capsule.t) (job : Job.t)
    (e : jsstring) :
  Outline.modules outline !! moduleIndex = Some moduleOutline ->
  truthy moduleOutline = true ->
  capsules (store w) !! capsuleId = Some c ->
  capsuleGenerationJobs (store w) !! jobId = Some job ->
  generateModuleContentAI JSON_parse env
    (or_json (prop "lessons" moduleOutline) (JArr [])) = Throw e ->
  let retryCount := (Job.retryCount job + 1)%nat in
  let w' := snd (generateModuleContent JSON_parse env capsuleId jobId generationId
                   moduleIndex outline w) in
  if (retryCount <? 3)%nat then
    retryCountOf jobId w' = Some retryCount
    /\ statusOf capsuleId w' = Some (Capsule.status c)
    /\ scheduled (store w')
       = scheduled (store w)
         ++ [(2 ^ N.of_nat retryCount * 1000,
              GenerateModuleContent capsuleId jobId generationId moduleIndex outline)]
  else
    statusOf capsuleId w' = Some failed
    /\ errorOf capsuleId w'
       = Some (Some (str "Failed to generate module " ++ decimal (moduleIndex + 1)
                     ++ str " after 3 attempts"))
    /\ scheduled (store w') = scheduled (store w).
Proof.
  intros Hmo Ht Hc Hj Hai. cbn zeta.
  unfold generateModuleContent, try_catch, bind, lift, runQuery, throw,
    getCapsuleForGeneration, getGenerationJobById.
  rewrite Hmo, Ht. cbn [negb]. rewrite Hc, Hai, Hj.
  destruct (Job.retryCount job + 1 <? 3)%nat eqn:Hr.
  - unfold runMutation, updateGenerationJob, runAfter. simpl. rewrite Hj. simpl.
    unfold retryCountOf, statusOf. simpl.
    rewrite list_lookup_insert_eq by (by eapply lookup_lt_Some).
    rewrite Hc. done.
  - unfold runMutation, updateCapsuleStatus, updateGenerationJob. simpl.
    rewrite Hc. simpl. rewrite Hj. simpl.
    unfold statusOf, errorOf. simpl.
    rewrite list_lookup_insert_eq by (by eapply lookup_lt_Some). done.
Qed.

(** C1 on the code: three consecutive failures of module index 0, from a
    job whose retryCount is 0.  The first two schedule a retry, after 2 s
    and after 4 s; the third one fails the capsule with "Failed to generate
    module 1 after 3 attempts" and schedules nothing.  There is no third
    retry and no delay of 8 s. *)
Theorem third_failure_is_terminal :
  let w0 := timeline JSON_parse outlined in
  let w1 := exec JSON_parse (RunTask 0 unavailable) w0 in
  let w2 := exec JSON_parse (RunTask 0 unavailable) w1 in
  let w3 := exec JSON_parse (RunTask 0 unavailable) w2 in
  (retryCountOf 0 w0 = Some 0%nat /\ scheduled (store w0) = [(0, moduleTask 0)])
  /\ (retryCountOf 0 w1 = Some 1%nat /\ scheduled (store w1) = [(2000, moduleTask 0)]
      /\ statusOf 0 w1 = Some generating_content)
  /\ (retryCountOf 0 w2 = Some 2%nat /\ scheduled (store w2) = [(4000, moduleTask 0)]
      /\ statusOf 0 w2 = Some generating_content)
  /\ (scheduled (store w3) = [] /\ statusOf 0 w3 = Some failed
      /\ errorOf 0 w3
         = Some (Some (str "Failed to generate module 1 after 3 attempts"))).
Proof. vm_compute. repeat split; reflexivity. Qed.

(** *** Module order *)

Definition ordersOf (capsuleId : nat) (w : World) : list nat :=
  CapsuleModule.order <$> modulesOf capsuleId (store w).

(** The first module is generated, the second fails three times, the user
    retries and the first module is generated again. *)
Definition retried : list Event :=
  outlined
  ++ [RunTask 0 (answers insertionSort);
      RunTask 0 unavailable; RunTask 0 unavailable; RunTask 0 unavailable;
      Start (str "gen_2") 0%nat;
      RunTask 0 (answers twoModules);
      RunTask 0 (answers insertionSort)].

(** C5 on the code: after the retry of a failed capsule whose first
    attempt had stored module 0, the capsule has two modules of order 0. *)
Theorem retry_duplicates_module_order :
  let w := timeline JSON_parse retried in
  statusOf 0 (timeline JSON_parse (take 7 retried)) = Some failed
  /\ ordersOf 0 (timeline JSON_parse (take 7 retried)) = [0%nat]
  /\ statusOf 0 w = Some generating_content
  /\ ordersOf 0 w = [0%nat; 0%nat]
  /\ ~ NoDup (ordersOf 0 w).
Proof.
  cbn zeta.
  assert (E : ordersOf 0 (timeline JSON_parse retried) = [0%nat; 0%nat])
    by (vm_compute; reflexivity).
  rewrite E. repeat split; try (vm_compute; reflexivity).
  intros Hnd. apply NoDup_cons_1_1 in Hnd. apply Hnd. by left.
Qed.

(** *** Module content is not validated *)

Definition dragDropModule : jsstring :=
  jtext "{'title':'Insertion sort','lessons':[{'title':'Practice','content':{'practiceQuestions':[{'type':'dragDrop','instruction':'Match','items':[{'id':'item1','content':'Stack'}],'targets':[{'id':'target1','label':'LIFO','acceptsItems':['item1']},{'id':'target2','label':'FIFO','acceptsItems':[]}]}]}}]}".

(** The question of [dragDropModule]: one item, two targets, the second
    target accepting nothing. *)
Definition dragDropQuestion : json :=
  JObj [(str "type", JStr (str "dragDrop"));
        (str "instruction", JStr (str "Match"));
        (str "items",
         JArr [JObj [(str "id", JStr (str "item1"));
                     (str "content", JStr (str "Stack"))]]);
        (str "targets",
         JArr [JObj [(str "id", JStr (str "target1"));
                     (str "label", JStr (str "LIFO"));
                     (str "acceptsItems", JArr [JStr (str "item1")])];
               JObj [(str "id", JStr (str "target2"));
                     (str "label", JStr (str "FIFO"));
                     (str "acceptsItems", JArr [])]])].

(** C2, as stated, fails: the output with the malformed drag-drop question
    is accepted and stored as it is; the job advances to the next module,
    its retry count and last error untouched. *)
Lemma drag_drop_output_is_persisted :
  let w := exec JSON_parse (RunTask 0 (answers dragDropModule))
             (timeline JSON_parse outlined) in
  CapsuleLesson.content <$> capsuleLessons (store w)
  = [JObj [(str "practiceQuestions", JArr [dragDropQuestion])]]
  /\ (Job.modulesGenerated <$> capsuleGenerationJobs (store w) !! 0%nat) = Some 1%nat
  /\ retryCountOf 0 w = Some 0%nat
  /\ (Job.lastError <$> capsuleGenerationJobs (store w) !! 0%nat) = Some None
  /\ scheduled (store w) = [(0, moduleTask 1)].
Proof. vm_compute. repeat split; reflexivity. Qed.

Definition storedLesson (capsuleId moduleId : nat) (t : N) (lesson : LessonData)
  : CapsuleLesson.t :=
  {| CapsuleLesson.moduleId := moduleId;
     CapsuleLesson.capsuleId := capsuleId;
     CapsuleLesson.title := ld_title lesson;
     CapsuleLesson.description := ld_description lesson;
     CapsuleLesson.order := ld_order lesson;
     CapsuleLesson.type := ld_type lesson;
     CapsuleLesson.content := ld_content lesson;
     CapsuleLesson.createdAt := t |}.

Lemma lessonsData_content ls :
  forall idx ds, lessonsData ls idx = Ok ds -> ld_content <$> ds = contentOrLesson <$> ls.
Proof.
  induction ls as [|l ls IH]; intros idx ds H; simpl in H.
  - by injection H as <-.
  - unfold andThen in H.
    destruct (lessonData l idx) as [d|] eqn:Hd; [|done].
    destruct (lessonsData ls (S idx)) as [ds'|] eqn:Hds; [|done].
    injection H as <-. simpl. f_equal; [|by eapply IH].
    unfold lessonData, andThen in Hd.
    destruct (requiredString _); [|done]. destruct (optionalString _); [|done].
    by injection Hd as <-.
Qed.

(** Arguments that pass were built from the lessons of the document, each
    with its content as returned, and carry the module index as order. *)
Lemma moduleArguments_content moduleContent moduleOutline moduleIndex data lessons :
  moduleArguments moduleContent moduleOutline moduleIndex = Ok (data, lessons) ->
  md_order data = moduleIndex
  /\ exists returned,
       lessonsOf moduleContent = Ok returned
       /\ ld_content <$> lessons = contentOrLesson <$> returned.
Proof.
  unfold moduleArguments, andThen. intros H.
  destruct (is_null moduleContent); [done|].
  destruct (lessonsOf moduleContent) as [returned|]; [|done].
  destruct (existsb is_null returned); [done|].
  destruct (moduleData moduleContent moduleOutline moduleIndex) as [d|] eqn:Hd; [|done].
  destruct (lessonsData returned 0) as [ls|] eqn:Hls; [|done].
  injection H as <- <-. split.
  - unfold moduleData, andThen in Hd.
    repeat match type of Hd with
           | match ?o with _ => _ end = _ => destruct o; [|done]
           end.
    by injection Hd as <-.
  - exists returned. split; [done|]. by eapply lessonsData_content.
Qed.

(** The successful run of a module invocation: the module and its lessons
    are saved, the job advances, the next call is scheduled. *)
Definition progress (modules : list json) (moduleIndex : nat) : JobUpdates :=
  {| up_currentStage :=
       Some (if (length modules <=? moduleIndex + 1)%nat then str "finalizing"
             else str "module_" ++ decimal (moduleIndex + 1));
     up_outlineGenerated := None; up_outlineJson := None;
     up_modulesGenerated := Some (moduleIndex + 1)%nat;
     up_totalModules := None;
     up_currentModuleIndex := Some (moduleIndex + 1)%nat;
     up_lastError := None; up_retryCount := None; up_completedAt := None |}.

Definition nextCall (capsuleId jobId : nat) (generationId : jsstring)
    (moduleIndex : nat) (outline : Outline.t) : Task :=
  if (length (Outline.modules outline) <=? moduleIndex + 1)%nat
  then FinalizeGeneration capsuleId jobId generationId
  else GenerateModuleContent capsuleId jobId generationId (moduleIndex + 1) outline.

Lemma module_success
    (JSON_parse : jsstring -> outcome json) (env : AiEnv) (w : World)
    (capsuleId jobId : nat) (generationId : jsstring) (moduleIndex : nat)
    (outline : Outline.t) (moduleOutline : json) (c : Capsule.t) (job : Job.t)
    (moduleContent : json) (data : ModuleData) (lessons : list LessonData) :
  Outline.modules outline !! moduleIndex = Some moduleOutline ->
  truthy moduleOutline = true ->
  capsules (store w) !! capsuleId = Some c ->
  capsuleGenerationJobs (store w) !! jobId = Some job ->
  generateModuleContentAI JSON_parse env
    (or_json (prop "lessons" moduleOutline) (JArr [])) = Ok moduleContent ->
  moduleArguments moduleContent moduleOutline moduleIndex = Ok (data, lessons) ->
  let st := store w in
  let st1 :=
    {| capsules := capsules st;
       capsuleGenerationJobs := capsuleGenerationJobs st;
       capsuleModules :=
         capsuleModules st ++
         [{| CapsuleModule.capsuleId := capsuleId;
             CapsuleModule.title := md_title data;
             CapsuleModule.description := md_description data;
             CapsuleModule.introduction := md_introduction data;
             CapsuleModule.learningObjectives := md_learningObjectives data;
             CapsuleModule.moduleSummary := md_moduleSummary data;
             CapsuleModule.order := md_order data;
             CapsuleModule.createdAt := now st |}];
       capsuleLessons :=
         capsuleLessons st
         ++ map (storedLesson capsuleId (length (capsuleModules st)) (now st)) lessons;
       scheduled := scheduled st; now := now st |} in
  let st2 :=
    set_jobs (<[jobId := patchJob (progress (Outline.modules outline) moduleIndex)
                            (now st) job]>
                (capsuleGenerationJobs st)) st1 in
  let st3 :=
    set_scheduled
      (scheduled st ++ [(0, nextCall capsuleId jobId generationId moduleIndex outline)])
      st2 in
  generateModuleContent JSON_parse env capsuleId jobId generationId moduleIndex
    outline w
  = (Ok tt, commit st3 (commit st2 (commit st1 w))).
Proof.
  intros Hmo Ht Hc Hj Hai Hargs. cbn zeta.
  unfold generateModuleContent, try_catch.
  rewrite Hmo, Ht. cbn [negb]. unfold bind at 1, runQuery, getCapsuleForGeneration.
  rewrite Hc. unfold bind at 1, lift. rewrite Hai. unfold bind at 1. rewrite Hargs.
  erewrite bind_ok by (apply runMutation_ok; reflexivity).
  erewrite bind_ok
    by (apply runMutation_ok; apply updateGenerationJob_ok; simpl; exact Hj).
  unfold progress, nextCall.
  destruct (length (Outline.modules outline) <=? moduleIndex + 1)%nat;
    erewrite runMutation_ok by reflexivity; reflexivity.
Qed.

(** C2, amended. The module-content stage has no validation gate and no
    repair cycle.  For a module the outline lists (an entry of its modules
    that is not falsy), whatever document the model returns, once it is read as
    JSON and the arguments of [saveGeneratedModule] can be built from it and
    pass that mutation's argument validators (which look at the types of the
    module's and the lessons' title and description fields and never at a
    lesson's content), the stage stores the module and one lesson per
    returned lesson whose content is the lesson's [content] as returned (the
    lesson itself when it has none), and advances the job without touching
    its retry count or last error.  The question rules (4 MCQ options,
    placeholder count, item-target bijection) are stated to the model in the
    prompt and checked nowhere. *)
Theorem module_content_is_stored_as_returned
    (JSON_parse : jsstring -> outcome json) (env : AiEnv) (w : World)
    (capsuleId jobId : nat) (generationId : jsstring) (moduleIndex : nat)
    (outline : Outline.t) (moduleOutline : json) (c : Capsule.t) (job : Job.t)
    (moduleContent : json) (data : ModuleData) (lessons : list LessonData) :
  Outline.modules outline !! moduleIndex = Some moduleOutline ->
  truthy moduleOutline = true ->
  capsules (store w) !! capsuleId = Some c ->
  capsuleGenerationJobs (store w) !! jobId = Some job ->
  generateModuleContentAI JSON_parse env
    (or_json (prop "lessons" moduleOutline) (JArr [])) = Ok moduleContent ->
  moduleArguments moduleContent moduleOutline moduleIndex = Ok (data, lessons) ->
  let run := generateModuleContent JSON_parse env capsuleId jobId generationId
               moduleIndex outline w in
  let st := store w in
  let st' := store (snd run) in
  fst run = Ok tt
  /\ capsuleLessons st'
     = capsuleLessons st
       ++ (storedLesson capsuleId (length (capsuleModules st)) (now st) <$> lessons)
  /\ (exists returned,
        lessonsOf moduleContent = Ok returned
        /\ CapsuleLesson.content <$> drop (length (capsuleLessons st)) (capsuleLessons st')
           = contentOrLesson <$> returned)
  /\ CapsuleModule.order <$> capsuleModules st'
     = (CapsuleModule.order <$> capsuleModules st) ++ [moduleIndex]
  /\ (Job.modulesGenerated <$> capsuleGenerationJobs st' !! jobId)
     = Some (moduleIndex + 1)%nat
  /\ (Job.retryCount <$> capsuleGenerationJobs st' !! jobId)
     = Some (Job.retryCount job)
  /\ (Job.lastError <$> capsuleGenerationJobs st' !! jobId)
     = Some (Job.lastError job).
Proof.
  intros Hmo Ht Hc Hj Hai Hargs. cbn zeta.
  destruct (moduleArguments_content _ _ _ _ _ Hargs) as (Hmd & returned & Hret & Hcontent).
  erewrite module_success by eassumption. simpl.
  rewrite list_lookup_insert_eq by (by eapply lookup_lt_Some). simpl.
  rewrite drop_app_length, fmap_app, Hmd.
  split; [done|]. split; [done|]. split; [|done].
  exists returned. split; [done|].
  rewrite <- list_fmap_compose. rewrite <- Hcontent. done.
Qed.

Lemma module_content_is_stored_as_returned_witness :
  let w := timeline JSON_parse outlined in
  let run := generateModuleContent JSON_parse (answers dragDropModule) 0%nat 0%nat
               (str "gen_1") 0%nat (outlineOf twoModules) w in
  fst run = Ok tt
  /\ CapsuleLesson.content <$> capsuleLessons (store (snd run))
     = [JObj [(str "practiceQuestions", JArr [dragDropQuestion])]].
Proof.
  cbn zeta.
  edestruct (module_content_is_stored_as_returned JSON_parse (answers dragDropModule)
               (timeline JSON_parse outlined) 0%nat 0%nat (str "gen_1") 0%nat
               (outlineOf twoModules))
    as (Hok & _ & (returned & Hret & Hcontent) & _).
  - vm_compute. reflexivity.
  - reflexivity.
  - vm_compute. reflexivity.
  - vm_compute. reflexivity.
  - vm_compute. reflexivity.
  - vm_compute. reflexivity.
  - split; [exact Hok|].
    rewrite <- (drop_0 (capsuleLessons _)).
    etransitivity; [exact Hcontent|].
    vm_compute in Hret. injection Hret as <-. vm_compute. reflexivity.
Defined.

(** *** Job progress

    The invariant of the store, the facts a pending call relies on, and a
    small program logic for actions: [triple P m Q E] says that [m], run in
    a world satisfying [P], ends in a world satisfying [Q] when it returns
    and [E] when it throws. *)

Definition bounded (j : Job.t) : Prop :=
  (Job.modulesGenerated j <= Job.totalModules j)%nat
  /\ (Job.currentStage j = str "completed" ->
      Job.modulesGenerated j = Job.totalModules j).

Definition taskJob (t : Task) : nat :=
  match t with
  | GenerateOutline _ jobId _ => jobId
  | GenerateModuleContent _ jobId _ _ _ => jobId
  | FinalizeGeneration _ jobId _ => jobId
  end.

(** What a pending call needs of the counters of its job: [g] modules
    generated out of [n]. *)
Definition taskCond (t : Task) (g n : nat) : Prop :=
  match t with
  | GenerateOutline _ _ _ => g = 0%nat
  | GenerateModuleContent _ _ _ moduleIndex outline =>
      n = length (Outline.modules outline)
      /\ (moduleIndex < n)%nat /\ (g <= moduleIndex)%nat
  | FinalizeGeneration _ _ _ => g = n
  end.

Definition counters (j : Job.t) (cond : nat -> nat -> Prop) : Prop :=
  cond (Job.modulesGenerated j) (Job.totalModules j).

Definition taskOk (js : list Job.t) (t : Task) : Prop :=
  exists j, js !! taskJob t = Some j /\ counters j (taskCond t).

Definition pendingJobs (q : list (N * Task)) : list nat :=
  (fun dt => taskJob (snd dt)) <$> q.

Definition Inv (st : Store) : Prop :=
  Forall bounded (capsuleGenerationJobs st)
  /\ Forall (fun dt => taskOk (capsuleGenerationJobs st) (snd dt)) (scheduled st)
  /\ NoDup (pendingJobs (scheduled st)).

(** Every job of [st] is in [st'], with at least as many modules generated. *)
Definition advances (st st' : Store) : Prop :=
  forall id j, capsuleGenerationJobs st !! id = Some j ->
    exists j', capsuleGenerationJobs st' !! id = Some j'
               /\ (Job.modulesGenerated j <= Job.modulesGenerated j')%nat.

(** A list of stores, latest first, in which every store has bounded jobs
    and advances on the one before it. *)
Fixpoint chain (l : list Store) : Prop :=
  match l with
  | [] => True
  | st' :: rest =>
      Forall bounded (capsuleGenerationJobs st')
      /\ match rest with
         | [] => True
         | st :: _ => advances st st'
         end
      /\ chain rest
  end.

(** No handler is running. *)
Definition quiet (w : World) : Prop := chain (observed w) /\ Inv (store w).

(** The handler of a call for job [jobId] is running: the call is off the
    queue, and the counters of the job satisfy [cond]. *)
Definition running (jobId : nat) (cond : nat -> nat -> Prop) (w : World) : Prop :=
  quiet w
  /\ ~ elem_of jobId (pendingJobs (scheduled (store w)))
  /\ exists j, capsuleGenerationJobs (store w) !! jobId = Some j /\ counters j cond.

Definition triple {A} (P : World -> Prop) (m : Act A)
    (Q : A -> World -> Prop) (E : World -> Prop) : Prop :=
  forall w, P w ->
    match m w with
    | (Ok a, w') => Q a w'
    | (Throw _, w') => E w'
    end.

Lemma triple_bind {A B} P (m : Act A) (k : A -> Act B) Q1 Q E :
  triple P m Q1 E -> (forall a, triple (Q1 a) (k a) Q E) -> triple P (bind m k) Q E.
Proof.
  intros Hm Hk w Hw. specialize (Hm w Hw). unfold bind.
  destruct (m w) as [[a|e] w']; [|done]. by apply Hk.
Qed.

Lemma triple_try {A} P (body : Act A) (h : jsstring -> Act A) Q E1 E :
  triple P body Q E1 -> (forall e, triple E1 (h e) Q E) -> triple P (try_catch body h) Q E.
Proof.
  intros Hb Hh w Hw. specialize (Hb w Hw). unfold try_catch.
  destruct (body w) as [[a|e] w']; [done|]. by apply Hh.
Qed.

Lemma triple_ret {A} (P : World -> Prop) (a : A) (Q : A -> World -> Prop) E :
  (forall w, P w -> Q a w) -> triple P (ret a) Q E.
Proof. intros H w Hw. by apply H. Qed.

Lemma triple_throw {A} (P : World -> Prop) e (Q : A -> World -> Prop) (E : World -> Prop) :
  (forall w, P w -> E w) -> triple P (throw e) Q E.
Proof. intros H w Hw. by apply H. Qed.

Lemma triple_lift {A} (P : World -> Prop) (o : outcome A) (Q : A -> World -> Prop)
    (E : World -> Prop) :
  (forall a w, o = Ok a -> P w -> Q a w) -> (forall w, P w -> E w) -> triple P (lift o) Q E.
Proof. intros HQ HE w Hw. unfold lift. destruct o; [by apply HQ|by apply HE]. Qed.

Lemma triple_query {A} (P : World -> Prop) (q : Store -> A) (Q : A -> World -> Prop) E :
  (forall w, P w -> Q (q (store w)) w) -> triple P (runQuery q) Q E.
Proof. intros H w Hw. by apply H. Qed.

Lemma triple_mutation {A} (P : World -> Prop) (m : Mutation A)
    (Q : A -> World -> Prop) (E : World -> Prop) :
  (forall w a st', P w -> m (store w) = Ok (a, st') -> Q a (commit st' w)) ->
  (forall w, P w -> E w) ->
  triple P (runMutation m) Q E.
Proof.
  intros HQ HE w Hw. unfold runMutation.
  destruct (m (store w)) as [[a st']|e] eqn:Hm; [by eapply HQ|by apply HE].
Qed.

Lemma triple_weaken {A} (P P' : World -> Prop) (m : Act A) Q E :
  (forall w, P' w -> P w) -> triple P m Q E -> triple P' m Q E.
Proof. intros H Hm w Hw. apply Hm. by apply H. Qed.

Lemma advances_refl st st' :
  capsuleGenerationJobs st' = capsuleGenerationJobs st -> advances st st'.
Proof. intros E id j Hj. exists j. rewrite E. split; [done|lia]. Qed.

Lemma chain_commit w st' :
  chain (observed w) ->
  Forall bounded (capsuleGenerationJobs st') ->
  advances (store w) st' ->
  chain (observed (commit st' w)).
Proof. intros Hc Hb Ha. simpl. done. Qed.

Lemma running_quiet jobId cond w : running jobId cond w -> quiet w.
Proof. by intros [H _]. Qed.

(** A commit that leaves the jobs and the queue as they are. *)
Lemma quiet_frame w st' :
  capsuleGenerationJobs st' = capsuleGenerationJobs (store w) ->
  scheduled st' = scheduled (store w) ->
  quiet w -> quiet (commit st' w).
Proof.
  intros Hj Hq [Hc (Hb & Ht & Hn)]. split.
  - apply chain_commit; [done| by rewrite Hj |by apply advances_refl].
  - unfold Inv. simpl. rewrite Hj, Hq. done.
Qed.

Lemma running_frame jobId cond w st' :
  capsuleGenerationJobs st' = capsuleGenerationJobs (store w) ->
  scheduled st' = scheduled (store w) ->
  running jobId cond w -> running jobId cond (commit st' w).
Proof.
  intros Hj Hq (Hquiet & Hp & Hjob). split; [by apply quiet_frame|].
  simpl. rewrite Hj, Hq. done.
Qed.

Lemma taskOk_lt js t : taskOk js t -> (taskJob t < length js)%nat.
Proof. intros (j & Hj & _). by eapply lookup_lt_Some. Qed.

(** Taking a call off the queue. *)
Lemma running_dequeue w k d t :
  quiet w ->
  scheduled (store w) !! k = Some (d, t) ->
  running (taskJob t) (taskCond t)
    (commit (set_scheduled (delete k (scheduled (store w))) (store w)) w).
Proof.
  intros [Hc (Hb & Ht & Hn)] Hk.
  pose proof (take_drop_middle _ _ _ Hk) as Hsplit.
  assert (Hdel : delete k (scheduled (store w))
                 = take k (scheduled (store w)) ++ drop (S k) (scheduled (store w)))
    by apply delete_take_drop.
  rewrite <- Hsplit in Ht, Hn.
  apply Forall_app in Ht as [Ht1 Ht2]. apply Forall_cons in Ht2 as [Htask Ht2].
  unfold pendingJobs in Hn. rewrite fmap_app, fmap_cons in Hn.
  apply NoDup_app in Hn as (Hn1 & Hn12 & Hn2).
  apply NoDup_cons in Hn2 as [Hnot Hn2]. simpl in Hnot.
  split; [split|split].
  - by apply chain_commit; [|simpl|apply advances_refl].
  - unfold Inv. simpl. rewrite Hdel. split; [done|]. split.
    + apply Forall_app. done.
    + unfold pendingJobs. rewrite fmap_app. apply NoDup_app. split; [done|].
      split; [|done]. intros x Hx Hx'. apply (Hn12 x Hx). by right.
  - simpl. rewrite Hdel. unfold pendingJobs. rewrite fmap_app.
    intros Hin. apply elem_of_app in Hin as [Hin|Hin]; [|done].
    apply (Hn12 _ Hin). by left.
  - exact Htask.
Qed.

(** Putting the next call of the running job on the queue. *)
Lemma quiet_enqueue w cond d t :
  running (taskJob t) cond w ->
  (forall g n, cond g n -> taskCond t g n) ->
  quiet (commit (set_scheduled (scheduled (store w) ++ [(d, t)]) (store w)) w).
Proof.
  intros ([Hc (Hb & Ht & Hn)] & Hnot & j & Hj & Hcond) Himp. split.
  - by apply chain_commit; [|simpl|apply advances_refl].
  - unfold Inv. simpl. split; [done|]. split.
    + apply Forall_app. split; [done|]. constructor; [|done].
      exists j. split; [done|]. by apply Himp.
    + unfold pendingJobs. rewrite fmap_app. apply NoDup_app. split; [done|].
      split.
      * intros x Hx Hx'. simpl in Hx'. apply list_elem_of_singleton in Hx'.
        subst. done.
      * apply NoDup_singleton.
Qed.

(** Patching the running job. *)
Lemma running_patch w jobId cond cond' j j' :
  running jobId cond w ->
  capsuleGenerationJobs (store w) !! jobId = Some j ->
  (bounded j -> counters j cond ->
   bounded j' /\ (Job.modulesGenerated j <= Job.modulesGenerated j')%nat
   /\ counters j' cond') ->
  running jobId cond'
    (commit (set_jobs (<[jobId := j']> (capsuleGenerationJobs (store w))) (store w)) w).
Proof.
  intros ([Hc (Hb & Ht & Hn)] & Hnot & j0 & Hj0 & Hcond) Hj Hstep.
  rewrite Hj in Hj0. injection Hj0 as <-.
  assert (Hbj : bounded j) by (by eapply Forall_lookup_1).
  destruct (Hstep Hbj Hcond) as (Hb' & Hle & Hc').
  assert (Hlt : (jobId < length (capsuleGenerationJobs (store w)))%nat)
    by (by eapply lookup_lt_Some).
  split; [split|split].
  - apply chain_commit; [done| |].
    + simpl. apply Forall_insert; done.
    + intros id x Hx. simpl. destruct (decide (id = jobId)) as [->|Hne].
      * rewrite Hj in Hx. injection Hx as <-. exists j'.
        by rewrite list_lookup_insert_eq.
      * exists x. rewrite list_lookup_insert_ne by done. split; [done|lia].
  - unfold Inv. simpl. split; [by apply Forall_insert|]. split; [|done].
    apply Forall_forall. intros [d t] Hin.
    rewrite Forall_forall in Ht. specialize (Ht _ Hin). simpl in *.
    destruct Ht as (x & Hx & Hxc). exists x. split; [|done].
    rewrite list_lookup_insert_ne; [done|].
    intros ->. apply Hnot. unfold pendingJobs.
    apply list_elem_of_fmap. by exists (d, t).
  - done.
  - exists j'. split; [|done]. simpl. by rewrite list_lookup_insert_eq.
Qed.

(** Inserting a new job. *)
Lemma running_create w j0 :
  quiet w ->
  bounded j0 ->
  running (length (capsuleGenerationJobs (store w)))
    (fun g n => g = Job.modulesGenerated j0 /\ n = Job.totalModules j0)
    (commit (set_jobs (capsuleGenerationJobs (store w) ++ [j0]) (store w)) w).
Proof.
  intros [Hc (Hb & Ht & Hn)] Hb0. split; [split|split].
  - apply chain_commit; [done| |].
    + simpl. apply Forall_app. split; [done|]. by constructor.
    + intros id x Hx. exists x. simpl. rewrite lookup_app_l; [|by eapply lookup_lt_Some].
      split; [done|lia].
  - unfold Inv. simpl. split; [apply Forall_app; split; [done|by constructor]|].
    split; [|done]. eapply Forall_impl; [exact Ht|].
    intros [d t] (x & Hx & Hxc). exists x. split; [|done]. simpl in *.
    rewrite lookup_app_l; [done|by eapply lookup_lt_Some].
  - simpl. intros Hin. unfold pendingJobs in Hin.
    apply list_elem_of_fmap in Hin as ([d t] & Heq & Hin).
    rewrite Forall_forall in Ht. specialize (Ht _ Hin). apply taskOk_lt in Ht.
    simpl in *. lia.
  - exists j0. simpl. split; [|done].
    by rewrite lookup_app_r, Nat.sub_diag.
Qed.

Lemma triple_conseq {A} (P P' : World -> Prop) (m : Act A)
    (Q Q' : A -> World -> Prop) (E E' : World -> Prop) :
  triple P m Q E ->
  (forall w, P' w -> P w) -> (forall a w, Q a w -> Q' a w) -> (forall w, E w -> E' w) ->
  triple P' m Q' E'.
Proof.
  intros Hm HP HQ HE w Hw. specialize (Hm w (HP w Hw)).
  destruct (m w) as [[a|e] w']; [by apply HQ|by apply HE].
Qed.

Lemma bind_lift_ok {A B} (a : A) (k : A -> Act B) : bind (lift (Ok a)) k = k a.
Proof. reflexivity. Qed.

Lemma bind_lift_throw {A B} e (k : A -> Act B) : bind (lift (Throw e)) k = throw e.
Proof. reflexivity. Qed.

Lemma running_weaken jobId (cond cond' : nat -> nat -> Prop) w :
  (forall g n, cond g n -> cond' g n) -> running jobId cond w -> running jobId cond' w.
Proof.
  intros H (Hq & Hn & j & Hj & Hc). split; [done|]. split; [done|].
  exists j. split; [done|]. by apply H.
Qed.

Lemma module_stage_not_completed x : str "module_" ++ x <> str "completed".
Proof.
  change (str "module_") with (109 :: str "odule_").
  change (str "completed") with (99 :: str "ompleted"). discriminate.
Qed.

Lemma finalizing_not_completed : str "finalizing" <> str "completed".
Proof. by vm_compute. Qed.

(** The mutations of the pipeline, as triples. *)

Lemma updateCapsuleStatus_running jobId cond args :
  triple (running jobId cond) (runMutation (updateCapsuleStatus args))
    (fun _ => running jobId cond) (running jobId cond).
Proof.
  apply triple_mutation; [|done]. intros w a st' Hw Hm.
  unfold updateCapsuleStatus in Hm.
  destruct (capsules (store w) !! u_capsuleId args); [|done].
  injection Hm as _ <-. by apply running_frame.
Qed.

Lemma updateCapsuleStatus_quiet args :
  triple quiet (runMutation (updateCapsuleStatus args)) (fun _ => quiet) quiet.
Proof.
  apply triple_mutation; [|done]. intros w a st' Hw Hm.
  unfold updateCapsuleStatus in Hm.
  destruct (capsules (store w) !! u_capsuleId args); [|done].
  injection Hm as _ <-. by apply quiet_frame.
Qed.

Lemma saveGeneratedModule_running jobId cond capsuleId data lessons :
  triple (running jobId cond)
    (runMutation (saveGeneratedModule capsuleId data lessons))
    (fun _ => running jobId cond) (running jobId cond).
Proof.
  apply triple_mutation; [|done]. intros w a st' Hw Hm.
  injection Hm as _ <-. by apply running_frame.
Qed.

Lemma updateGenerationJob_running jobId (cond cond' : nat -> nat -> Prop) updates :
  (forall t j, bounded j -> counters j cond ->
     bounded (patchJob updates t j)
     /\ (Job.modulesGenerated j <= Job.modulesGenerated (patchJob updates t j))%nat
     /\ counters (patchJob updates t j) cond') ->
  triple (running jobId cond) (runMutation (updateGenerationJob jobId updates))
    (fun _ => running jobId cond') (running jobId cond).
Proof.
  intros Hstep. apply triple_mutation; [|done]. intros w a st' Hw Hm.
  unfold updateGenerationJob in Hm.
  destruct (capsuleGenerationJobs (store w) !! jobId) as [j|] eqn:Hj; [|done].
  injection Hm as _ <-. eapply running_patch; [exact Hw|exact Hj|]. apply Hstep.
Qed.

(** An update of the error fields only. *)
Definition errorUpdate (error : jsstring) (retryCount : option nat) : JobUpdates :=
  {| up_currentStage := None; up_outlineGenerated := None; up_outlineJson := None;
     up_modulesGenerated := None; up_totalModules := None;
     up_currentModuleIndex := None; up_lastError := Some error;
     up_retryCount := retryCount; up_completedAt := None |}.

Lemma errorUpdate_running jobId cond error retryCount :
  triple (running jobId cond)
    (runMutation (updateGenerationJob jobId (errorUpdate error retryCount)))
    (fun _ => running jobId cond) (running jobId cond).
Proof.
  apply updateGenerationJob_running. intros t j [Hle Hco] Hc.
  unfold bounded, counters in *. simpl. split_and!; [lia|done|lia|done].
Qed.

Lemma runAfter_quiet (cond : nat -> nat -> Prop) d t E :
  (forall g n, cond g n -> taskCond t g n) ->
  triple (running (taskJob t) cond) (runMutation (runAfter d t)) (fun _ => quiet) E.
Proof.
  intros Himp w Hw. unfold runMutation, runAfter. simpl.
  by eapply quiet_enqueue.
Qed.

(** The handlers, as triples. *)

Local Opaque str decimal.

Lemma finalizeGeneration_quiet capsuleId jobId generationId :
  triple (running jobId (fun g n => g = n))
    (finalizeGeneration capsuleId jobId generationId) (fun _ => quiet) quiet.
Proof.
  unfold finalizeGeneration.
  eapply triple_try with (E1 := running jobId (fun g n => g = n)).
  - eapply triple_bind; [apply updateCapsuleStatus_running|]. intros ?.
    eapply triple_bind;
      [apply triple_query with (Q := fun _ => running jobId (fun g n => g = n)); done|].
    intros t.
    eapply triple_conseq;
      [apply updateGenerationJob_running with (cond' := fun g n => g = n)
      |done| |done].
    + intros t' j [Hle Hco] Hc. unfold bounded, counters in *. simpl.
      split_and!; [lia|done|lia|done].
    + intros ? w Hw. cbn beta in Hw. exact (running_quiet _ _ _ Hw).
  - intros e.
    eapply triple_conseq; [apply updateCapsuleStatus_running|done| |apply running_quiet].
    intros ? w Hw. cbn beta in Hw. exact (running_quiet _ _ _ Hw).
Qed.

Lemma generateOutline_quiet JSON_parse env capsuleId jobId generationId :
  triple (running jobId (fun g n => g = 0%nat))
    (generateOutline JSON_parse env capsuleId jobId generationId)
    (fun _ => quiet) quiet.
Proof.
  unfold generateOutline.
  eapply triple_try with (E1 := running jobId (fun _ _ => True)).
  - eapply triple_bind;
      [apply triple_query with (Q := fun _ => running jobId (fun g n => g = 0%nat)); done|].
    intros [capsule|].
    2:{ apply triple_throw. intros w. by apply running_weaken. }
    destruct (generateCapsuleOutlineAI JSON_parse env) as [outline|e].
    2:{ rewrite bind_lift_throw. apply triple_throw. intros w. by apply running_weaken. }
    rewrite bind_lift_ok.
    destruct (member "error" outline) as [error|e].
    2:{ rewrite bind_lift_throw. apply triple_throw. intros w. by apply running_weaken. }
    rewrite bind_lift_ok.
    destruct (is_truthy error).
    { destruct (requiredString _) as [errorMessage|e].
      2:{ rewrite bind_lift_throw. apply triple_throw. intros w.
          by apply running_weaken. }
      rewrite bind_lift_ok.
      eapply triple_conseq; [apply updateCapsuleStatus_running|done| |].
      - intros ? w Hw. cbn beta in Hw. exact (running_quiet _ _ _ Hw).
      - intros w. by apply running_weaken. }
    cbn zeta.
    destruct (outlineModules outline) as [modules|e].
    2:{ rewrite bind_lift_throw. apply triple_throw. intros w. by apply running_weaken. }
    rewrite bind_lift_ok.
    destruct (lessonSum modules (Number (Exactly 0))) as [totalLessons|e].
    2:{ rewrite bind_lift_throw. apply triple_throw. intros w. by apply running_weaken. }
    rewrite bind_lift_ok.
    destruct (outlineArguments _ _ _ _) as [arguments|e].
    2:{ rewrite bind_lift_throw. apply triple_throw. intros w. by apply running_weaken. }
    rewrite bind_lift_ok.
    set (n := length modules).
    eapply triple_bind.
    { eapply triple_conseq; [apply updateCapsuleStatus_running|done|done|].
      intros w. by apply running_weaken. }
    intros ?.
    eapply triple_bind.
    { eapply triple_conseq;
        [apply updateGenerationJob_running
           with (cond' := fun g k => g = 0%nat /\ k = n)
        |done|done|].
      - intros t j [Hle Hco] Hc. unfold bounded, counters in *. simpl.
        split_and!; [lia|intros Hs; by vm_compute in Hs|lia|done|done].
      - intros w. by apply running_weaken. }
    intros ?.
    destruct (0 <? n)%nat eqn:Hn.
    + apply (runAfter_quiet (fun g k => g = 0%nat /\ k = n) 0
               (GenerateModuleContent capsuleId jobId generationId 0
                  {| Outline.document := outline; Outline.modules := modules |})).
      intros g k [-> ->]. simpl. apply Nat.ltb_lt in Hn. fold n. lia.
    + apply Nat.ltb_ge in Hn.
      eapply triple_bind.
      { eapply triple_conseq; [apply updateCapsuleStatus_running|done|done|].
        intros w. by apply running_weaken. }
      intros ?.
      eapply triple_bind;
        [apply triple_query
           with (Q := fun _ => running jobId (fun g k => g = 0%nat /\ k = n)); done|].
      intros t.
      eapply triple_conseq;
        [apply updateGenerationJob_running with (cond' := fun _ _ => True)|done| |].
      * intros t' j [Hle Hco] [Hg Hk]. unfold bounded, counters in *. simpl.
        split_and!; [lia|lia|lia|done].
      * intros ? w Hw. cbn beta in Hw. exact (running_quiet _ _ _ Hw).
      * intros w. by apply running_weaken.
  - intros e.
    eapply triple_bind.
    { eapply triple_conseq;
        [apply (updateCapsuleStatus_running jobId (fun _ _ => True))
        |done|done|apply running_quiet]. }
    intros ?.
    eapply triple_conseq;
      [apply (errorUpdate_running jobId (fun _ _ => True) e None)|done|
      |apply running_quiet].
    intros ? w Hw. cbn beta in Hw. exact (running_quiet _ _ _ Hw).
Qed.

Lemma generateModuleContent_quiet JSON_parse env capsuleId jobId generationId
    moduleIndex outline :
  let call := GenerateModuleContent capsuleId jobId generationId moduleIndex outline in
  triple (running jobId (taskCond call))
    (generateModuleContent JSON_parse env capsuleId jobId generationId moduleIndex outline)
    (fun _ => quiet) quiet.
Proof.
  intros call. unfold generateModuleContent.
  eapply triple_try with (E1 := running jobId (taskCond call)).
  - cbn zeta.
    destruct (Outline.modules outline !! moduleIndex) as [moduleOutline|];
      [|by apply triple_throw].
    destruct (negb (truthy moduleOutline)); [by apply triple_throw|].
    eapply triple_bind;
      [apply triple_query with (Q := fun _ => running jobId (taskCond call)); done|].
    intros [capsule|]; [|by apply triple_throw].
    destruct (generateModuleContentAI JSON_parse env _) as [moduleContent|e].
    2:{ rewrite bind_lift_throw. by apply triple_throw. }
    rewrite bind_lift_ok.
    destruct (moduleArguments moduleContent moduleOutline moduleIndex) as [arguments|e].
    2:{ rewrite bind_lift_throw. by apply triple_throw. }
    rewrite bind_lift_ok.
    eapply triple_bind; [apply saveGeneratedModule_running|]. intros ?.
    set (n := length (Outline.modules outline)).
    eapply triple_bind.
    { apply updateGenerationJob_running
        with (cond' := fun g k => k = n /\ (moduleIndex < n)%nat
                                  /\ g = (moduleIndex + 1)%nat).
      intros t j [Hle Hco] Hc. unfold bounded, counters in *. simpl in *.
      fold n in Hc. destruct Hc as (Hk & Hlt & Hg).
      split_and!; [lia| |lia|done|lia|done].
      intros Hs. exfalso.
      destruct (n <=? moduleIndex + 1)%nat.
      - by apply finalizing_not_completed.
      - by eapply module_stage_not_completed. }
    intros ?.
    destruct (n <=? moduleIndex + 1)%nat eqn:Hlast.
    + apply (runAfter_quiet _ 0 (FinalizeGeneration capsuleId jobId generationId)).
      intros g k (-> & Hlt & ->). simpl. apply Nat.leb_le in Hlast. lia.
    + apply (runAfter_quiet _ 0
               (GenerateModuleContent capsuleId jobId generationId
                  (moduleIndex + 1) outline)).
      intros g k (-> & Hlt & ->). simpl. fold n.
      apply Nat.leb_gt in Hlast. lia.
  - intros e.
    eapply triple_bind;
      [apply triple_query with (Q := fun _ => running jobId (taskCond call)); done|].
    intros job.
    destruct (_ <? 3)%nat.
    + eapply triple_bind.
      { eapply triple_conseq;
          [apply (errorUpdate_running jobId (taskCond call))
          |done|done|apply running_quiet]. }
      intros ?. apply (runAfter_quiet (taskCond call) _ call). done.
    + eapply triple_bind.
      { eapply triple_conseq;
          [apply (updateCapsuleStatus_running jobId (taskCond call))
          |done|done|apply running_quiet]. }
      intros ?.
      eapply triple_conseq;
        [apply (errorUpdate_running jobId (taskCond call) e None)|done|
        |apply running_quiet].
      intros ? w Hw. cbn beta in Hw. exact (running_quiet _ _ _ Hw).
Qed.

Lemma generateCapsuleContent_quiet generationId capsuleId :
  triple quiet (generateCapsuleContent generationId capsuleId) (fun _ => quiet) quiet.
Proof.
  unfold generateCapsuleContent.
  eapply triple_bind; [apply triple_query with (Q := fun _ => quiet); done|].
  intros [capsule|]; [|by apply triple_throw].
  destruct (_ && _); [by apply triple_ret|].
  eapply triple_bind with
    (Q1 := fun jobId => running jobId (fun g n => g = 0%nat /\ n = 0%nat)).
  { apply triple_mutation; [|done]. intros w a st' Hw Hm.
    injection Hm as <- <-.
    apply (running_create w
             {| Job.capsuleId := capsuleId; Job.generationId := generationId;
                Job.currentStage := str "outline"; Job.outlineGenerated := false;
                Job.modulesGenerated := 0; Job.totalModules := 0;
                Job.currentModuleIndex := 0; Job.outlineJson := None;
                Job.lastError := None; Job.retryCount := 0;
                Job.startedAt := now (store w); Job.updatedAt := now (store w);
                Job.completedAt := None |}); [done|].
    split; simpl; [lia|done]. }
  intros jobId.
  eapply triple_bind.
  { eapply triple_conseq;
      [apply updateCapsuleStatus_running|done|done|apply running_quiet]. }
  intros ?.
  eapply triple_bind.
  { apply (runAfter_quiet _ 0 (GenerateOutline capsuleId jobId generationId)).
    by intros g n [-> _]. }
  intros ?. by apply triple_ret.
Qed.

Lemma exec_quiet JSON_parse e w : quiet w -> quiet (exec JSON_parse e w).
Proof.
  intros Hw. destruct e as [args|args|generationId capsuleId|k env|dt]; simpl.
  - unfold runMutation. destruct (createCapsule args (store w)) as [[a st']|?] eqn:Hm;
      [|done]. simpl. unfold createCapsule in Hm.
    repeat (destruct (_ : bool) in Hm; [done|]).
    injection Hm as _ <-. by apply quiet_frame.
  - pose proof (updateCapsuleStatus_quiet args w Hw) as H.
    by destruct (runMutation (updateCapsuleStatus args) w) as [[?|?] ?].
  - pose proof (generateCapsuleContent_quiet generationId capsuleId w Hw) as H.
    by destruct (generateCapsuleContent generationId capsuleId w) as [[?|?] ?].
  - destruct (scheduled (store w) !! k) as [[d task]|] eqn:Hk; [|done].
    assert (T : triple (fun w' => w' = w)
                  (runMutation (dequeue k) ;; runTask JSON_parse env task)
                  (fun _ => quiet) quiet).
    { eapply triple_bind with (Q1 := fun _ => running (taskJob task) (taskCond task)).
      - intros w' ->. unfold runMutation, dequeue. simpl.
        by eapply running_dequeue.
      - intros ?. destruct task; simpl.
        + apply generateOutline_quiet.
        + apply generateModuleContent_quiet.
        + apply finalizeGeneration_quiet. }
    specialize (T w eq_refl).
    by destruct ((runMutation (dequeue k) ;; runTask JSON_parse env task) w)
      as [[?|?] ?].
  - unfold runMutation, advance. simpl. by apply quiet_frame.
Qed.

Local Transparent str decimal.

Lemma timeline_quiet JSON_parse events : quiet (timeline JSON_parse events).
Proof.
  unfold timeline.
  assert (H : quiet initial).
  { split; simpl; [done|]. split_and!; constructor. }
  revert H. generalize initial. induction events as [|e events IH]; intros w Hw.
  - done.
  - simpl. apply IH. by apply exec_quiet.
Qed.

Lemma advances_trans st1 st2 st3 :
  advances st1 st2 -> advances st2 st3 -> advances st1 st3.
Proof.
  intros H12 H23 id j Hj. destruct (H12 id j Hj) as (j2 & Hj2 & Hle).
  destruct (H23 id j2 Hj2) as (j3 & Hj3 & Hle'). exists j3. split; [done|lia].
Qed.

Lemma chain_bounded l st :
  chain l -> In st l -> Forall bounded (capsuleGenerationJobs st).
Proof.
  induction l as [|x l IH]; intros Hc Hin; [done|].
  destruct Hc as (Hb & _ & Hc). destruct Hin as [<-|Hin]; [done|by apply IH].
Qed.

(** In a chain, which lists the latest store first, a store advances on
    every store at or after its position. *)
Lemma chain_advances l :
  chain l ->
  forall a b later earlier,
    l !! a = Some later -> l !! b = Some earlier -> (a <= b)%nat ->
    advances earlier later.
Proof.
  induction l as [|x l IH]; intros Hc a b later earlier Ha Hb Hle; [done|].
  destruct Hc as (Hbx & Hadv & Hc).
  destruct a as [|a].
  - simpl in Ha. injection Ha as <-.
    destruct b as [|b].
    + simpl in Hb. injection Hb as <-. by apply advances_refl.
    + simpl in Hb. destruct l as [|y l']; [done|].
      eapply advances_trans; [|exact Hadv].
      apply (IH Hc 0%nat b y earlier); [done|done|lia].
  - destruct b as [|b]; [lia|]. simpl in Ha, Hb.
    apply (IH Hc a b); [done|done|lia].
Qed.

(** C8. In every store the pipeline can reach, committed stores within a
    handler run included, every job has modulesGenerated <= totalModules, and
    a job whose stage is "completed" has modulesGenerated = totalModules;
    along the sequence of stores a job keeps existing and its modulesGenerated
    never decreases.  [observed] lists the stores latest first. *)
Theorem job_progress_is_bounded_and_monotone
    (JSON_parse : jsstring -> outcome json) (events : list Event) :
  let snapshots := observed (timeline JSON_parse events) in
  (forall st id job,
     In st snapshots -> capsuleGenerationJobs st !! id = Some job ->
     (Job.modulesGenerated job <= Job.totalModules job)%nat
     /\ (Job.currentStage job = str "completed" ->
         Job.modulesGenerated job = Job.totalModules job))
  /\ (forall a b later earlier id job,
        snapshots !! a = Some later -> snapshots !! b = Some earlier -> (a <= b)%nat ->
        capsuleGenerationJobs earlier !! id = Some job ->
        exists job', capsuleGenerationJobs later !! id = Some job'
                     /\ (Job.modulesGenerated job <= Job.modulesGenerated job')%nat).
Proof.
  intros snapshots. destruct (timeline_quiet JSON_parse events) as [Hc _].
  fold snapshots in Hc. split.
  - intros st id job Hin Hjob.
    pose proof (chain_bounded _ _ Hc Hin) as Hb.
    by eapply (Forall_lookup_1 bounded).
  - intros a b later earlier id job Ha Hb Hle Hjob.
    by eapply (chain_advances snapshots Hc a b later earlier).
Qed.

(** A run that completes: both modules are generated and the job is
    finalized. *)
Definition finished : list Event :=
  outlined
  ++ [RunTask 0 (answers insertionSort); RunTask 0 (answers mergeSort);
      RunTask 0 unavailable].

Definition progressOf (jobId : nat) (st : Store) : option (nat * nat * jsstring) :=
  (fun j => (Job.modulesGenerated j, Job.totalModules j, Job.currentStage j))
    <$> capsuleGenerationJobs st !! jobId.

Example finished_run_completes :
  statusOf 0 (timeline JSON_parse finished) = Some completed
  /\ progressOf 0 (store (timeline JSON_parse finished))
     = Some (2%nat, 2%nat, str "completed")
  /\ ordersOf 0 (timeline JSON_parse finished) = [0%nat; 1%nat]
  /\ omap (fun st => fst <$> (fst <$> progressOf 0 st))
       (rev (observed (timeline JSON_parse finished)))
     = [0; 0; 0; 0; 0; 0; 0; 0; 0; 1; 1; 1; 1; 2; 2; 2; 2; 2]%nat.
Proof. vm_compute. repeat split; reflexivity. Qed.

Lemma job_progress_is_bounded_and_monotone_witness :
  exists job,
    capsuleGenerationJobs (store (timeline JSON_parse finished)) !! 0%nat = Some job
    /\ Job.modulesGenerated job = Job.totalModules job.
Proof.
  assert (Hst : Job.currentStage
                  <$> capsuleGenerationJobs (store (timeline JSON_parse finished)) !! 0%nat
                = Some (str "completed")) by (vm_compute; reflexivity).
  destruct (job_progress_is_bounded_and_monotone JSON_parse finished) as [Hb _].
  remember (timeline JSON_parse finished) as w eqn:Hw. clear Hw.
  destruct (capsuleGenerationJobs (store w) !! 0%nat) as [job|] eqn:Hjob;
    [|discriminate Hst].
  exists job. split; [reflexivity|].
  destruct (Hb (store w) 0%nat job (in_eq _ _) Hjob) as [_ Hdone].
  apply Hdone. simpl in Hst. by injection Hst.
Defined.

End GenerationFacts.

(* ===================================================================== *)
(** * Part III. Further properties                                        *)
(* ===================================================================== *)

(** ** [removeEmptyArrays] *)

Module CleaningFacts.
Import Repair.

(** Induction on a JSON value, with the hypothesis for the members of an
    array and the values of an object. *)
Lemma json_nested_ind (P : json -> Prop) :
  P JNull -> (forall b, P (JBool b)) -> (forall l, P (JNum l)) ->
  (forall s, P (JStr s)) ->
  (forall items, Forall P items -> P (JArr items)) ->
  (forall fields, Forall (fun kv => P (snd kv)) fields -> P (JObj fields)) ->
  forall v, P v.
Proof.
  intros Hnull Hbool Hnum Hstr Harr Hobj.
  fix IH 1. intros [|b|l|s|items|fields].
  - exact Hnull.
  - apply Hbool.
  - apply Hnum.
  - apply Hstr.
  - apply Harr. induction items as [|x items IHitems]; constructor; [apply IH|exact IHitems].
  - apply Hobj. induction fields as [|[k x] fields IHfields]; constructor;
      [apply IH|exact IHfields].
Qed.

(** The properties [removeEmptyArrays] copies: those whose value is not an
    empty array and whose key an assignment defines. *)
Definition kept (key : jsstring) (value : json) : bool :=
  negb (is_empty_array value) && negb (jsstring_eqb key (str "__proto__")).

(** No object of the value has a property that [removeEmptyArrays] drops. *)
Fixpoint tidy (v : json) : bool :=
  match v with
  | JArr items => forallb tidy items
  | JObj fields => forallb (fun kv => let '(key, value) := kv in
                                      kept key value && tidy value) fields
  | _ => true
  end.

Lemma is_empty_array_clean v :
  is_empty_array v = false -> is_empty_array (removeEmptyArrays v) = false.
Proof. destruct v as [| | | |[|x items]|fields]; simpl; done. Qed.

(** X1. [removeEmptyArrays] leaves no property holding an empty array, at any
    depth: every object of the result has only properties the function
    would copy. *)
Theorem cleaned_value_is_tidy (v : json) : tidy (removeEmptyArrays v) = true.
Proof.
  induction v as [| | | |items IH|fields IH] using json_nested_ind; simpl; try done.
  - induction IH as [|x items Hx _ IHitems]; simpl; [done|]. by rewrite Hx, IHitems.
  - induction IH as [|[k x] fields Hx _ IHfields]; simpl; [done|].
    destruct (is_empty_array x) eqn:He; [done|].
    destruct (jsstring_eqb k (str "__proto__")) eqn:Hk; [done|].
    simpl in Hx |- *. unfold kept at 1.
    rewrite (is_empty_array_clean _ He), Hk, Hx. exact IHfields.
Qed.

(** X2. A value without such properties is returned as it is. *)
Theorem tidy_value_is_unchanged (v : json) :
  tidy v = true -> removeEmptyArrays v = v.
Proof.
  induction v as [| | | |items IH|fields IH] using json_nested_ind; simpl; try done.
  - intros Ht. f_equal.
    induction IH as [|x items Hx _ IHitems]; simpl in *; [done|].
    apply andb_true_iff in Ht as [Ht1 Ht2]. by rewrite Hx, IHitems.
  - intros Ht. f_equal.
    induction IH as [|[k x] fields Hx _ IHfields]; simpl in *; [done|].
    apply andb_true_iff in Ht as [Ht1 Ht2].
    apply andb_true_iff in Ht1 as [Hk Htx].
    unfold kept in Hk. apply andb_true_iff in Hk as [He Hk].
    apply negb_true_iff in He, Hk. rewrite He, Hk.
    by rewrite Hx, IHfields.
Qed.

Definition nestedNotes : json :=
  JObj [(str "topic", JStr (str "Sorting"));
        (str "sections", JArr [JObj [(str "title", JStr (str "Idea"));
                                     (str "grid", JArr [JArr []])]])].

Lemma tidy_value_is_unchanged_witness :
  removeEmptyArrays nestedNotes = nestedNotes.
Proof. apply tidy_value_is_unchanged. vm_compute. reflexivity. Defined.

(** X3. Cleaning twice is cleaning once. *)
Theorem cleaning_is_idempotent (v : json) :
  removeEmptyArrays (removeEmptyArrays v) = removeEmptyArrays v.
Proof.
  induction v as [| | | |items IH|fields IH] using json_nested_ind; simpl; try done.
  - f_equal. induction IH as [|x items Hx _ IHitems]; simpl; [done|].
    by rewrite Hx, IHitems.
  - f_equal. induction IH as [|[k x] fields Hx _ IHfields]; simpl; [done|].
    destruct (is_empty_array x) eqn:He; [done|].
    destruct (jsstring_eqb k (str "__proto__")) eqn:Hk; [done|].
    simpl. rewrite (is_empty_array_clean _ He), Hk. simpl in *.
    by rewrite Hx, IHfields.
Qed.

End CleaningFacts.

(** ** [stripMarkdownFences] *)

Module TrimFacts.
Import Repair.

Lemma trimStart_idemp s : trimStart (trimStart s) = trimStart s.
Proof.
  induction s as [|c t IH]; simpl; [done|].
  destruct (is_space c) eqn:Hc; [done|]. simpl. by rewrite Hc.
Qed.

Lemma trimStart_length s : (length (trimStart s) <= length s)%nat.
Proof.
  induction s as [|c t IH]; simpl; [done|]. destruct (is_space c); simpl; lia.
Qed.

(** A text is its own [trimStart] exactly when it does not begin with white
    space. *)
Lemma trimStart_fixed s :
  trimStart s = s <-> match s with [] => True | c :: _ => is_space c = false end.
Proof.
  destruct s as [|c t]; simpl; [done|].
  destruct (is_space c) eqn:Hc; split; try done.
  intros H. pose proof (trimStart_length t) as Hl. rewrite H in Hl. simpl in Hl. lia.
Qed.

Lemma trimStart_suffix s : exists sp, s = sp ++ trimStart s.
Proof.
  induction s as [|c t [sp IH]]; simpl; [by exists []|].
  destruct (is_space c); [|by exists []].
  exists (c :: sp). simpl. by f_equal.
Qed.

Lemma trimEnd_keeps_start a : trimStart a = a -> trimStart (trimEnd a) = trimEnd a.
Proof.
  intros Ha. unfold trimEnd. apply trimStart_fixed.
  destruct (trimStart_suffix (rev a)) as [sp Hsp].
  destruct (rev (trimStart (rev a))) as [|c r] eqn:Hr; [done|].
  assert (Hrev : a = (c :: r) ++ rev sp).
  { rewrite <- Hr, <- rev_app_distr, <- Hsp. by rewrite rev_involutive. }
  apply trimStart_fixed in Ha. rewrite Hrev in Ha. exact Ha.
Qed.

Lemma trimEnd_idemp a : trimEnd (trimEnd a) = trimEnd a.
Proof. unfold trimEnd. by rewrite rev_involutive, trimStart_idemp. Qed.

Lemma trim_idemp s : trim (trim s) = trim s.
Proof.
  unfold trim. rewrite (trimEnd_keeps_start (trimStart s)) by apply trimStart_idemp.
  apply trimEnd_idemp.
Qed.

(** X4. The result of [stripMarkdownFences] has no white space at either end. *)
Theorem stripped_text_is_trimmed (raw : jsstring) :
  trim (stripMarkdownFences raw) = stripMarkdownFences raw.
Proof.
  unfold stripMarkdownFences.
  destruct (nonempty _); [apply trim_idemp|].
  destruct (nonempty _); apply trim_idemp.
Qed.

End TrimFacts.

Module FenceFacts.
Import Repair TrimFacts.

(** The code unit before the position reached after reading [w]. *)
Definition last_or (prev : option N) (w : jsstring) : option N :=
  match last w with
  | Some c => Some c
  | None => prev
  end.

Lemma last_or_cons prev c w : last_or prev (c :: w) = last_or (Some c) w.
Proof.
  unfold last_or. destruct w as [|x w]; [reflexivity|].
  change (last (c :: x :: w)) with (last (x :: w)).
  destruct (last (x :: w)) eqn:E; [done|]. by apply last_None in E.
Qed.

Lemma last_or_app prev v w : last_or prev (v ++ w) = last_or (last_or prev v) w.
Proof.
  revert prev. induction v as [|c v IH]; intros prev; [done|].
  simpl. by rewrite !last_or_cons, IH.
Qed.

(** Reading a literal word. *)
Lemma run_lit_app w k prev rest pos cap :
  run (lit w) k (MState prev (w ++ rest) pos cap)
  = k (MState (last_or prev w) rest (pos + length w) cap).
Proof.
  revert prev pos. induction w as [|c w IH]; intros prev pos; simpl.
  - unfold last_or. simpl. by rewrite Nat.add_0_r.
  - rewrite N.eqb_refl, IH, last_or_cons. do 2 f_equal. lia.
Qed.

Lemma run_lit_inv w k prev rest pos cap m :
  run (lit w) k (MState prev rest pos cap) = Some m ->
  exists rest', rest = w ++ rest'.
Proof.
  revert prev rest pos. induction w as [|c w IH]; intros prev rest pos; simpl.
  - intros _. by exists rest.
  - destruct rest as [|x rest]; [done|].
    destruct (x =? c) eqn:Hx; [|done]. apply N.eqb_eq in Hx as ->.
    intros H. apply IH in H as [rest' ->]. by exists rest'.
Qed.

Definition backtick : N := 96.

Lemma fence_word : str "```" = [backtick; backtick; backtick].
Proof. reflexivity. Qed.

(** The fence pattern matches only at a backtick. *)
Lemma fence_needs_backtick prev rest pos :
  head rest <> Some backtick -> match_at fencePattern prev rest pos = None.
Proof.
  intros Hh. unfold match_at, fencePattern. rewrite fence_word.
  simpl. destruct rest as [|x rest].
  - by destruct prev as [c|]; [destruct (is_line_terminator c)|].
  - destruct (x =? backtick) eqn:Hx.
    + apply N.eqb_eq in Hx as ->. done.
    + by destruct prev as [c|]; [destruct (is_line_terminator c)|].
Qed.

Lemma search_here r prev rest pos m :
  match_at r prev rest pos = Some m -> search r prev rest pos = Some (pos, m).
Proof. intros H. destruct rest; simpl; by rewrite H. Qed.

Lemma fence_not_found prev rest pos :
  ~ In backtick rest -> search fencePattern prev rest pos = None.
Proof.
  revert prev pos. induction rest as [|x rest IH]; intros prev pos Hn; simpl.
  - by rewrite fence_needs_backtick.
  - rewrite fence_needs_backtick.
    + apply IH. intros H. apply Hn. by right.
    + simpl. intros [=->]. apply Hn. by left.
Qed.

(** [[\s\S]*] before a continuation that needs one more code unit: the
    longest repetition comes first, so the continuation gets the last code
    unit when it accepts it. *)
Lemma star_any_to_last (kc : K) middle c prev pos cap :
  (forall p n, kc (MState p [] n cap) = None) ->
  (forall p n, is_Some (kc (MState p [c] n cap))) ->
  star_greedy any kc prev (middle ++ [c]) pos cap
  = kc (MState (last_or prev middle) [c] (pos + length middle) cap).
Proof.
  intros Hnil Hc. revert prev pos.
  induction middle as [|x middle IH]; intros prev pos; simpl.
  - rewrite Hnil. unfold last_or. simpl. by rewrite Nat.add_0_r.
  - rewrite IH, last_or_cons.
    replace (S pos + length middle)%nat with (pos + S (length middle))%nat by lia.
    by destruct (Hc (last_or (Some x) middle) (pos + S (length middle))%nat) as [m ->].
Qed.

Lemma In_trimStart c s : In c (trimStart s) -> In c s.
Proof.
  destruct (trimStart_suffix s) as [sp Hsp]. intros H.
  rewrite Hsp. apply in_or_app. by right.
Qed.

Lemma In_trim c s : In c (trim s) -> In c s.
Proof.
  unfold trim, trimEnd. intros H. apply In_trimStart.
  apply in_rev in H. apply In_trimStart in H. by apply in_rev.
Qed.

Definition opens (c : N) : bool := (c =? 91) || (c =? 123).
Definition closes (c : N) : bool := (c =? 93) || (c =? 125).

(** X5. A text without backticks that is, white space at the ends apart, a
    bracket, anything, a closing bracket, is returned trimmed and otherwise
    unchanged. *)
Theorem bare_json_passes_through (raw : jsstring) (first last : N) (middle : jsstring) :
  ~ In backtick raw ->
  trim raw = first :: middle ++ [last] ->
  opens first = true -> closes last = true ->
  stripMarkdownFences raw = trim raw.
Proof.
  intros Hb Ht Ho Hc. unfold stripMarkdownFences.
  assert (Hfence : match_group1 fencePattern (trim raw) = None).
  { unfold match_group1. rewrite fence_not_found; [done|].
    intros H. by apply Hb, In_trim. }
  rewrite Hfence. simpl.
  assert (Hjson : match_group1 jsonPattern (trim raw) = Some (Some (trim raw))).
  { unfold match_group1. rewrite Ht. unfold search, match_at, jsonPattern.
    cbn [run m_rest m_pos m_cap m_prev].
    unfold opens in Ho. rewrite Ho.
    rewrite star_any_to_last.
    - cbn [m_rest m_pos m_cap m_prev]. unfold closes in Hc. rewrite Hc.
      cbn [m_cap]. unfold slice. rewrite drop_0. do 2 f_equal.
      rewrite take_ge; [done|]. simpl. rewrite length_app. simpl. lia.
    - done.
    - intros p n. cbn [m_rest m_pos m_cap m_prev]. unfold closes in Hc.
      rewrite Hc. by eexists. }
  rewrite Hjson, Ht. simpl. rewrite <- Ht. apply trim_idemp.
Qed.

Lemma bare_json_passes_through_witness :
  stripMarkdownFences (jtext "  {'a': [1, 2]}  ") = jtext "{'a': [1, 2]}".
Proof.
  rewrite (bare_json_passes_through (jtext "  {'a': [1, 2]}  ") 123 125
             (jtext "'a': [1, 2]")).
  - vm_compute. reflexivity.
  - vm_compute. intros H. repeat (destruct H as [H|H]; [discriminate H|]). exact H.
  - vm_compute. reflexivity.
  - reflexivity.
  - reflexivity.
Defined.

(** *** A fenced answer *)

(** What follows the group in the fence pattern: [\n?```$]. *)
Definition closing : re := Cat (Opt (Chr 10)) (Cat (lit (str "```")) Eol).

Lemma closing_needs_fence k prev x rest pos cap :
  x <> backtick -> head rest <> Some backtick ->
  run closing k (MState prev (x :: rest) pos cap) = None.
Proof.
  intros Hx Hr. unfold closing. rewrite fence_word. simpl.
  assert (E : (x =? backtick) = false) by (by apply N.eqb_neq). rewrite E.
  destruct (x =? 10); [|done].
  destruct rest as [|y rest]; [done|].
  assert (E' : (y =? backtick) = false).
  { apply N.eqb_neq. intros ->. by apply Hr. }
  by rewrite E'.
Qed.

Lemma closing_at_fence prev pos cap :
  run closing Some (MState prev (10 :: str "```") pos cap)
  = Some (MState (Some backtick) [] (pos + 4) cap).
Proof.
  unfold closing. rewrite fence_word. simpl. do 2 f_equal. lia.
Qed.

(** The lazy repetition stops at the first position where the rest of the
    pattern matches. *)
Lemma star_lazy_skip (k : K) pre r prev pos cap m :
  (forall i p, (i < length pre)%nat ->
     k (MState p (drop i pre ++ r) (pos + i) cap) = None) ->
  k (MState (last_or prev pre) r (pos + length pre) cap) = Some m ->
  star_lazy any k prev (pre ++ r) pos cap = Some m.
Proof.
  revert prev pos. induction pre as [|x pre IH]; intros prev pos Hfail Hk.
  - simpl in *. unfold last_or in Hk. simpl in Hk. rewrite Nat.add_0_r in Hk.
    destruct r; simpl; by rewrite Hk.
  - simpl. specialize (Hfail 0%nat prev) as H0. simpl in H0.
    rewrite Nat.add_0_r in H0. rewrite H0 by lia.
    apply IH.
    + intros i p Hi. specialize (Hfail (S i) p). simpl in Hfail.
      replace (S pos + i)%nat with (pos + S i)%nat by lia. apply Hfail. lia.
    + rewrite last_or_cons in Hk. simpl in Hk.
      replace (S pos + length pre)%nat with (pos + S (length pre))%nat by lia. done.
Qed.

(** The greedy [\s*] takes all the white space when the rest of the
    pattern matches after it. *)
Lemma star_space_all (k : K) rest prev pos cap m :
  (forall p, k (MState p (trimStart rest)
                  (pos + (length rest - length (trimStart rest))) cap) = Some m) ->
  star_greedy is_space k prev rest pos cap = Some m.
Proof.
  revert prev pos. induction rest as [|x rest IH]; intros prev pos Hk; simpl in *.
  - specialize (Hk prev). by rewrite Nat.add_0_r in Hk.
  - destruct (is_space x) eqn:Hx.
    + rewrite (IH (Some x) (S pos)); [done|].
      intros p. specialize (Hk p).
      pose proof (trimStart_length rest).
      replace (S pos + (length rest - length (trimStart rest)))%nat
        with (pos + (S (length rest) - length (trimStart rest)))%nat by lia. done.
    + specialize (Hk prev). simpl in Hk.
      by rewrite Nat.sub_diag, Nat.add_0_r in Hk.
Qed.

Lemma trimStart_app_nonempty s t : trimStart s <> [] -> trimStart (s ++ t) = trimStart s ++ t.
Proof.
  induction s as [|c s IH]; simpl; [done|].
  destruct (is_space c); [exact IH|done].
Qed.

(** The opening fence, with or without the [json] tag. *)
Definition opening (tagged : bool) : jsstring :=
  str "```" ++ (if tagged then str "json" else []).

(** The pattern after the white space that follows the opening fence:
    [\n?([\s\S]*?)\n?```$]. *)
Definition afterSpace : re := Cat (Opt (Chr 10)) (Cat (Grp (StarLazy any)) closing).

Definition afterTag : re := Cat (Star is_space) afterSpace.

Lemma fencePattern_parts :
  fencePattern
  = Cat Bol (Cat (lit (str "```")) (Cat (Opt (lit (str "json"))) afterTag)).
Proof. reflexivity. Qed.

Lemma In_dropped {A} (y : A) i l : In y (drop i l) -> In y l.
Proof. intros H. rewrite <- (take_drop i l). apply in_or_app. by right. Qed.

Lemma afterSpace_match x tb p pos :
  is_space x = false ->
  ~ In backtick (x :: tb) ->
  run afterSpace Some (MState p ((x :: tb) ++ 10 :: str "```") pos None)
  = Some (MState (Some backtick) [] (pos + length (x :: tb) + 4)
            (Some (pos, (pos + length (x :: tb))%nat))).
Proof.
  intros Hx Hb.
  assert (Hx10 : (x =? 10) = false).
  { destruct (x =? 10) eqn:E; [|done]. apply N.eqb_eq in E as ->. done. }
  unfold afterSpace.
  change (run (Cat (Opt (Chr 10)) (Cat (Grp (StarLazy any)) closing)) Some
            (MState p ((x :: tb) ++ 10 :: str "```") pos None))
    with (match (if x =? 10
                 then run (Cat (Grp (StarLazy any)) closing) Some
                        (MState (Some x) (tb ++ 10 :: str "```") (S pos) None)
                 else None) with
          | Some m => Some m
          | None =>
              star_lazy any
                (fun s' => run closing Some
                             (MState (m_prev s') (m_rest s') (m_pos s')
                                (Some (pos, m_pos s'))))
                p ((x :: tb) ++ 10 :: str "```") pos None
          end).
  rewrite Hx10.
  apply star_lazy_skip.
  - intros i p' Hi.
    destruct (drop i (x :: tb)) as [|y rest'] eqn:Hd.
    { apply (f_equal length) in Hd. rewrite length_drop in Hd. simpl in *. lia. }
    cbn [m_prev m_rest m_pos app]. apply closing_needs_fence.
    + intros ->. apply Hb. apply (In_dropped _ i). rewrite Hd. by left.
    + destruct rest' as [|z rest'']; simpl; [discriminate|].
      intros [=->]. apply Hb. apply (In_dropped _ i). rewrite Hd. right. by left.
  - cbn [m_prev m_rest m_pos]. rewrite closing_at_fence. done.
Qed.

Lemma afterTag_match body p pos :
  trimStart body <> [] ->
  ~ In backtick body ->
  let skipped := (1 + (length body - length (trimStart body)))%nat in
  run afterTag Some (MState p (10 :: body ++ 10 :: str "```") pos None)
  = Some (MState (Some backtick) [] (pos + skipped + length (trimStart body) + 4)
            (Some ((pos + skipped)%nat,
                   (pos + skipped + length (trimStart body))%nat))).
Proof.
  intros Hne Hb skipped. unfold afterTag.
  change (run (Cat (Star is_space) afterSpace) Some
            (MState p (10 :: body ++ 10 :: str "```") pos None))
    with (star_greedy is_space (run afterSpace Some) p
            (10 :: body ++ 10 :: str "```") pos None).
  apply star_space_all. intros p'.
  cbn [trimStart]. change (is_space 10) with true. cbn iota.
  rewrite trimStart_app_nonempty by done.
  pose proof (trimStart_length body) as Hlen.
  destruct (trimStart body) as [|x tb] eqn:Htb; [done|].
  assert (Hx : is_space x = false).
  { assert (H : trimStart (x :: tb) = x :: tb)
      by (rewrite <- Htb; apply trimStart_idemp).
    by apply trimStart_fixed in H. }
  rewrite afterSpace_match; [|done|].
  2:{ intros H. apply Hb, In_trimStart. by rewrite Htb. }
  assert (Hl : length (body ++ 10 :: str "```") = (length body + 4)%nat)
    by (rewrite length_app; reflexivity).
  assert (Hl' : length ((x :: tb) ++ 10 :: str "```") = (S (length tb) + 4)%nat)
    by (rewrite length_app; reflexivity).
  unfold skipped. cbn [length] in *. rewrite Hl, Hl'.
  f_equal. f_equal; [lia|]. f_equal. f_equal; lia.
Qed.

Lemma fence_match body tagged :
  trimStart body <> [] ->
  ~ In backtick body ->
  let start := (length (opening tagged) + 1
                + (length body - length (trimStart body)))%nat in
  exists m,
    match_at fencePattern None (opening tagged ++ [10] ++ body ++ [10] ++ str "```") 0
    = Some m
    /\ m_cap m = Some (start, (start + length (trimStart body))%nat).
Proof.
  intros Hne Hb start. unfold match_at. rewrite fencePattern_parts.
  change (run (Cat Bol (Cat (lit (str "```")) (Cat (Opt (lit (str "json"))) afterTag))) Some
            (MState None (opening tagged ++ [10] ++ body ++ [10] ++ str "```") 0 None))
    with (run (lit (str "```")) (run (Cat (Opt (lit (str "json"))) afterTag) Some)
            (MState None (opening tagged ++ [10] ++ body ++ [10] ++ str "```") 0 None)).
  unfold opening. rewrite <- app_assoc, run_lit_app.
  change (run (Cat (Opt (lit (str "json"))) afterTag) Some)
    with (fun s => match run (lit (str "json")) (run afterTag Some) s with
                   | Some m => Some m
                   | None => run afterTag Some s
                   end).
  cbv beta.
  destruct tagged.
  - rewrite run_lit_app.
    change ([10] ++ body ++ [10] ++ str "```") with (10 :: body ++ 10 :: str "```").
    rewrite afterTag_match by done. eexists. split; [reflexivity|].
    cbn [m_cap]. unfold start. change (length (opening true)) with 7%nat.
    change (length (str "```")) with 3%nat. change (length (str "json")) with 4%nat.
    f_equal; f_equal; lia.
  - change ([] ++ [10] ++ body ++ [10] ++ str "```")
      with (10 :: body ++ 10 :: str "```").
    assert (Hj : run (lit (str "json")) (run afterTag Some)
                   (MState (last_or None (str "```")) (10 :: body ++ 10 :: str "```")
                      (0 + length (str "```")) None) = None) by reflexivity.
    rewrite Hj. rewrite afterTag_match by done. eexists. split; [reflexivity|].
    cbn [m_cap]. unfold start. change (length (opening false)) with 3%nat.
    change (length (str "```")) with 3%nat.
    f_equal; f_equal; lia.
Qed.

(** X6. A fenced answer: an opening fence, a line break, a body without
    backticks that is not blank, a line break and the closing fence.  The
    function returns the trimmed body. *)
Theorem fenced_body_is_unwrapped (raw body : jsstring) (tagged : bool) :
  ~ In backtick body ->
  trim body <> [] ->
  trim raw = opening tagged ++ [10] ++ body ++ [10] ++ str "```" ->
  stripMarkdownFences raw = trim body.
Proof.
  intros Hb Hne Ht. unfold stripMarkdownFences. rewrite Ht.
  assert (Hts : trimStart body <> []).
  { intros E. apply Hne. unfold trim. by rewrite E. }
  set (text := opening tagged ++ [10] ++ body ++ [10] ++ str "```").
  destruct (fence_match body tagged Hts Hb) as (m & Hm & Hcap).
  fold text in Hm.
  assert (Hgroup : match_group1 fencePattern text = Some (Some (trimStart body))).
  { unfold match_group1.
    assert (Hs : search fencePattern None text 0 = Some (0%nat, m)).
    { by apply search_here. }
    rewrite Hs, Hcap. do 2 f_equal. unfold slice, text.
    destruct (trimStart_suffix body) as [sp Hsp].
    assert (Hlen : (length body - length (trimStart body))%nat = length sp).
    { rewrite Hsp at 1. rewrite length_app. lia. }
    rewrite Hlen.
    replace (opening tagged ++ [10] ++ body ++ [10] ++ str "```")
      with ((opening tagged ++ [10] ++ sp) ++ trimStart body ++ [10] ++ str "```").
    2:{ rewrite Hsp at 2. by rewrite <- !app_assoc. }
    rewrite drop_app_length'.
    2:{ rewrite !length_app. simpl. lia. }
    rewrite take_app_length'; [done|lia]. }
  rewrite Hgroup. destruct (trimStart body) as [|x tb] eqn:Htb; [done|].
  simpl nonempty. cbv iota. rewrite <- Htb. unfold trim. by rewrite trimStart_idemp.
Qed.

Lemma fenced_body_is_unwrapped_witness :
  stripMarkdownFences (str "```json" ++ [10] ++ jtext "{'a': 1}" ++ [10] ++ str "```")
  = jtext "{'a': 1}".
Proof.
  rewrite (fenced_body_is_unwrapped _ (jtext "{'a': 1}") true).
  - vm_compute. reflexivity.
  - vm_compute. intros H. repeat (destruct H as [H|H]; [discriminate H|]). exact H.
  - vm_compute. discriminate.
  - vm_compute. reflexivity.
Defined.

End FenceFacts.

(** ** [fixLatexEscapes] *)

Module LatexFacts.
Import Repair FenceFacts.

Definition backslash : N := 92.

(** [t] begins with the word [d], and no letter follows it. *)
Fixpoint follows (d t : jsstring) : bool :=
  match d with
  | [] => match t with
          | [] => true
          | x :: _ => negb (is_letter x)
          end
  | a :: d' => match t with
               | y :: t' => (y =? a) && follows d' t'
               | [] => false
               end
  end.

(** The text left after an occurrence of the pattern for [d] at the
    position, if there is one. *)
Definition command_at (d : jsstring) (prev : option N) (rest : jsstring)
  : option jsstring :=
  if bool_decide (prev = Some backslash) then None
  else match rest with
       | x :: t => if (x =? backslash) && follows d t
                   then Some (drop (length d) t) else None
       | [] => None
       end.

Lemma run_command d prev t pos :
  run (Cat (lit d) (NotAhead is_letter)) Some (MState prev t pos None)
  = if follows d t
    then Some (MState (last_or prev d) (drop (length d) t) (pos + length d) None)
    else None.
Proof.
  revert prev t pos. induction d as [|a d IH]; intros prev t pos.
  - simpl. unfold last_or. simpl. rewrite Nat.add_0_r.
    destruct t as [|x t]; [done|]. simpl. by destruct (is_letter x).
  - destruct t as [|y t]; [done|].
    change (run (Cat (lit (a :: d)) (NotAhead is_letter)) Some (MState prev (y :: t) pos None))
      with (if y =? a
            then run (Cat (lit d) (NotAhead is_letter)) Some (MState (Some y) t (S pos) None)
            else None).
    simpl follows. destruct (y =? a) eqn:Hy; [|done].
    apply N.eqb_eq in Hy as ->. rewrite IH, last_or_cons. simpl.
    destruct (follows d t); [|done]. do 2 f_equal. lia.
Qed.

(** The pattern of [fixLatexEscapes], read off the matcher. *)
Lemma match_command d prev rest pos :
  match_at (singleBackslashPattern d) prev rest pos
  = (fun r => MState (last_or (Some backslash) d) r (S pos + length d) None)
      <$> command_at d prev rest.
Proof.
  unfold match_at, singleBackslashPattern, command_at.
  change (run (Cat (NotBehind 92) (Cat (Chr 92) (Cat (lit d) (NotAhead is_letter)))) Some
            (MState prev rest pos None))
    with (match prev with
          | Some x =>
              if x =? 92 then None
              else match rest with
                   | x :: t =>
                       if x =? 92
                       then run (Cat (lit d) (NotAhead is_letter)) Some
                              (MState (Some x) t (S pos) None)
                       else None
                   | [] => None
                   end
          | None =>
              match rest with
              | x :: t =>
                  if x =? 92
                  then run (Cat (lit d) (NotAhead is_letter)) Some
                         (MState (Some x) t (S pos) None)
                  else None
              | [] => None
              end
          end).
  assert (Hbody : match rest with
                  | x :: t =>
                      if x =? 92
                      then run (Cat (lit d) (NotAhead is_letter)) Some
                             (MState (Some x) t (S pos) None)
                      else None
                  | [] => None
                  end
                  = (fun r => MState (last_or (Some backslash) d) r (S pos + length d) None)
                      <$> match rest with
                          | x :: t => if (x =? backslash) && follows d t
                                      then Some (drop (length d) t) else None
                          | [] => None
                          end).
  { destruct rest as [|x t]; [done|]. unfold backslash.
    destruct (x =? 92) eqn:Hx; [|done]. apply N.eqb_eq in Hx as ->.
    rewrite run_command. simpl. by destruct (follows d t). }
  destruct prev as [x|].
  - destruct (x =? 92) eqn:Hx.
    + apply N.eqb_eq in Hx as ->. by rewrite bool_decide_true.
    + rewrite bool_decide_false; [exact Hbody|].
      intros [=->]. by rewrite N.eqb_refl in Hx.
  - rewrite bool_decide_false by done. exact Hbody.
Qed.

Lemma follows_app d t : follows d t = true -> t = d ++ drop (length d) t.
Proof.
  revert t. induction d as [|a d IH]; intros t; simpl; [done|].
  destruct t as [|y t]; [done|]. intros H. apply andb_true_iff in H as [Hy H].
  apply N.eqb_eq in Hy as ->. simpl. f_equal. by apply IH.
Qed.

Lemma command_at_inv d prev rest r :
  command_at d prev rest = Some r ->
  prev <> Some backslash /\ rest = backslash :: d ++ r.
Proof.
  unfold command_at. case_bool_decide as Hp; [done|].
  destruct rest as [|x t]; [done|].
  destruct (x =? backslash) eqn:Hx; [|done]. apply N.eqb_eq in Hx as ->.
  simpl. destruct (follows d t) eqn:Hf; [|done]. intros [= <-].
  split; [done|]. f_equal. by apply follows_app.
Qed.

(** The text [fixLatexEscapes] puts for an occurrence of [c]. *)
Definition escaped (c : jsstring) : jsstring := [backslash; backslash] ++ c.

(** One step of the replacement. *)
Lemma replace_step fuel c prev rest pos :
  replace_from (S fuel) (singleBackslashPattern c) (escaped c) prev rest pos
  = match command_at c prev rest with
    | Some r =>
        escaped c ++ replace_from fuel (singleBackslashPattern c) (escaped c)
                       (last_or (Some backslash) c) r (S pos + length c)
    | None =>
        match rest with
        | [] => []
        | x :: t => x :: replace_from fuel (singleBackslashPattern c) (escaped c)
                           (Some x) t (S pos)
        end
    end.
Proof.
  cbn [replace_from]. rewrite match_command.
  destruct (command_at c prev rest) as [r|]; [|done].
  cbn [fmap option_fmap option_map m_pos m_rest m_prev].
  assert (E : (S pos + length c =? pos)%nat = false) by (apply Nat.eqb_neq; lia).
  by rewrite E.
Qed.

Lemma replace_zero c prev rest pos :
  replace_from 0 (singleBackslashPattern c) (escaped c) prev rest pos = rest.
Proof. reflexivity. Qed.

(** *** Backslashes are only added *)

(** [t] is [s] with backslashes inserted. *)
Inductive inserted : jsstring -> jsstring -> Prop :=
| inserted_nil : inserted [] []
| inserted_keep x s t : inserted s t -> inserted (x :: s) (x :: t)
| inserted_add s t : inserted s t -> inserted s (backslash :: t).

Lemma inserted_refl s : inserted s s.
Proof. induction s; by constructor. Qed.

Lemma inserted_trans s t u : inserted s t -> inserted t u -> inserted s u.
Proof.
  intros Hst Htu. revert s Hst. induction Htu as [|x t u Htu IH|t u Htu IH]; intros s Hst.
  - done.
  - inversion Hst as [|y s' t' H|s' t' H]; subst.
    + constructor. by apply IH.
    + apply inserted_add. by apply IH.
  - apply inserted_add. by apply IH.
Qed.

Lemma inserted_app w s t : inserted s t -> inserted (w ++ s) (w ++ t).
Proof. intros H. induction w; simpl; [done|by constructor]. Qed.

Lemma replace_inserted fuel c prev rest pos :
  inserted rest (replace_from fuel (singleBackslashPattern c) (escaped c) prev rest pos).
Proof.
  revert prev rest pos. induction fuel as [|fuel IH]; intros prev rest pos.
  - apply inserted_refl.
  - rewrite replace_step. destruct (command_at c prev rest) as [r|] eqn:Hc.
    + apply command_at_inv in Hc as [_ ->]. unfold escaped. simpl.
      apply inserted_add, inserted_keep, inserted_app, IH.
    + destruct rest as [|x t]; constructor. apply IH.
Qed.

(** X7. [fixLatexEscapes] changes a text by inserting backslashes, and in no
    other way. *)
Theorem latex_fix_only_adds_backslashes (jsonString : jsstring) :
  inserted jsonString (fixLatexEscapes jsonString).
Proof.
  unfold fixLatexEscapes. generalize latexCommands. intros cmds.
  revert jsonString. induction cmds as [|c cmds IH]; intros s; simpl.
  - apply inserted_refl.
  - eapply inserted_trans; [|apply IH]. apply (replace_inserted _ c).
Qed.

(** *** Idempotence *)

(** No occurrence of the pattern for [d] in [s], read after [prev]. *)
Fixpoint clean (d : jsstring) (prev : option N) (s : jsstring) : Prop :=
  command_at d prev s = None
  /\ match s with
     | [] => True
     | x :: t => clean d (Some x) t
     end.

(** Every occurrence of the pattern for [d] is one of the pattern for [c]. *)
Fixpoint covered (d c : jsstring) (prev : option N) (s : jsstring) : Prop :=
  (command_at d prev s = None \/ is_Some (command_at c prev s))
  /\ match s with
     | [] => True
     | x :: t => covered d c (Some x) t
     end.

Lemma covered_self c prev s : covered c c prev s.
Proof.
  revert prev. induction s as [|x t IH]; intros prev; simpl.
  - split; [|done]. destruct (command_at c prev []); [right; by eexists|by left].
  - split; [|apply IH].
    destruct (command_at c prev (x :: t)); [right; by eexists|by left].
Qed.

Lemma clean_covered d c prev s : clean d prev s -> covered d c prev s.
Proof.
  revert prev. induction s as [|x t IH]; intros prev [H1 H2]; simpl.
  - split; [by left|done].
  - split; [by left|by apply IH].
Qed.

Lemma covered_drop d c prev w r :
  covered d c prev (w ++ r) -> covered d c (last_or prev w) r.
Proof.
  revert prev. induction w as [|x w IH]; intros prev H; [done|].
  rewrite last_or_cons. apply IH. simpl in H. by destruct H.
Qed.

(** A command: a word that is not empty and has no backslash. *)
Definition command (d : jsstring) : Prop := d <> [] /\ ~ In backslash d.

Lemma command_at_no_backslash d prev x t :
  x <> backslash -> command_at d prev (x :: t) = None.
Proof.
  intros Hx. unfold command_at. case_bool_decide; [done|].
  assert (E : (x =? backslash) = false) by (by apply N.eqb_neq). by rewrite E.
Qed.

Lemma clean_app d prev w s :
  ~ In backslash w -> clean d (last_or prev w) s -> clean d prev (w ++ s).
Proof.
  revert prev. induction w as [|x w IH]; intros prev Hw Hs; [done|].
  simpl. split.
  - apply command_at_no_backslash. intros ->. apply Hw. by left.
  - apply IH; [|by rewrite <- (last_or_cons prev)]. intros H. apply Hw. by right.
Qed.

Lemma head_replace fuel c prev rest pos :
  head (replace_from fuel (singleBackslashPattern c) (escaped c) prev rest pos)
  = head rest.
Proof.
  destruct fuel as [|fuel]; [done|]. rewrite replace_step.
  destruct (command_at c prev rest) as [r|] eqn:Hc.
  - apply command_at_inv in Hc as [_ ->]. done.
  - by destruct rest.
Qed.

(** Whether [d] follows is not changed by the replacement of [c]. *)
Lemma follows_replace d fuel c prev t pos :
  ~ In backslash d ->
  follows d (replace_from fuel (singleBackslashPattern c) (escaped c) prev t pos)
  = follows d t.
Proof.
  revert fuel prev t pos. induction d as [|a d IH]; intros fuel prev t pos Hd.
  - simpl. pose proof (head_replace fuel c prev t pos) as Hh.
    destruct (replace_from fuel (singleBackslashPattern c) (escaped c) prev t pos)
      as [|x out], t as [|y t]; simpl in Hh; try done. by injection Hh as ->.
  - assert (Ha : a <> backslash) by (intros ->; apply Hd; by left).
    assert (Hd' : ~ In backslash d) by (intros H; apply Hd; by right).
    destruct fuel as [|fuel]; [done|]. rewrite replace_step.
    destruct (command_at c prev t) as [r|] eqn:Hc.
    + apply command_at_inv in Hc as [_ ->]. unfold escaped. cbn [app follows].
      assert (E : (backslash =? a) = false) by (apply N.eqb_neq; congruence).
      by rewrite E.
    + destruct t as [|y t]; [done|]. cbn [follows]. by rewrite IH.
Qed.

Lemma command_at_replace d fuel c prev x t pos p :
  ~ In backslash d ->
  command_at d prev
    (x :: replace_from fuel (singleBackslashPattern c) (escaped c) p t pos)
  = None <-> command_at d prev (x :: t) = None.
Proof.
  intros Hd. unfold command_at. case_bool_decide as Hp; [done|].
  rewrite follows_replace by done.
  destruct ((x =? backslash) && follows d t) eqn:E; [|done].
  split; intros Hn; discriminate Hn.
Qed.

(** After the replacement of [c], the pattern for [d] occurs nowhere if
    it occurred only where the pattern for [c] did. *)
Lemma replace_clean d c fuel prev rest pos :
  command d -> ~ In backslash c ->
  (length rest < fuel)%nat ->
  covered d c prev rest ->
  clean d prev (replace_from fuel (singleBackslashPattern c) (escaped c) prev rest pos).
Proof.
  intros [Hne Hd] Hcb. revert prev rest pos.
  induction fuel as [|fuel IH]; intros prev rest pos Hlen Hcov; [lia|].
  rewrite replace_step. destruct (command_at c prev rest) as [r|] eqn:Hc.
  - pose proof Hc as Hc'. apply command_at_inv in Hc' as [Hp Hrest]. subst rest.
    unfold escaped. cbn [app clean]. split.
    { unfold command_at. case_bool_decide; [done|]. rewrite N.eqb_refl.
      destruct d as [|a d]; [done|]. cbn [follows andb].
      assert (E : (backslash =? a) = false).
      { apply N.eqb_neq. intros <-. apply Hd. by left. }
      by rewrite E. }
    split.
    { unfold command_at. by rewrite bool_decide_true. }
    apply clean_app; [done|].
    apply IH.
    + simpl in Hlen. rewrite length_app in Hlen. lia.
    + change (backslash :: c ++ r) with ((backslash :: c) ++ r) in Hcov.
      apply covered_drop in Hcov. by rewrite last_or_cons in Hcov.
  - destruct rest as [|x t].
    + simpl. split; [|done]. unfold command_at. by case_bool_decide.
    + simpl. destruct Hcov as [Hhere Hcov]. split.
      * apply command_at_replace; [done|].
        destruct Hhere as [H|[? H]]; [done|]. rewrite Hc in H. discriminate H.
      * apply IH; [simpl in Hlen; lia|done].
Qed.

(** Without an occurrence, the replacement changes nothing. *)
Lemma replace_unchanged c fuel prev rest pos :
  clean c prev rest ->
  replace_from fuel (singleBackslashPattern c) (escaped c) prev rest pos = rest.
Proof.
  revert prev rest pos. induction fuel as [|fuel IH]; intros prev rest pos Hc; [done|].
  rewrite replace_step. destruct rest as [|x t]; simpl in Hc; destruct Hc as [-> Hc].
  - done.
  - f_equal. by apply IH.
Qed.

Definition pass (result cmd : jsstring) : jsstring :=
  replace_all (singleBackslashPattern cmd) ([92; 92] ++ cmd) result.

Lemma pass_clean d c s :
  command d -> ~ In backslash c -> covered d c None s -> clean d None (pass s c).
Proof.
  intros Hd Hc Hcov. unfold pass, replace_all.
  apply (replace_clean d c); [done|done|lia|done].
Qed.

Lemma passes_clean cmds ran s :
  Forall command cmds -> Forall command ran ->
  Forall (fun d => clean d None s) ran ->
  Forall (fun d => clean d None (fold_left pass cmds s)) (ran ++ cmds).
Proof.
  revert ran s. induction cmds as [|c cmds IH]; intros ran s Hcmds Hran Hclean.
  - simpl. by rewrite app_nil_r.
  - simpl. apply Forall_cons in Hcmds as [Hc Hcmds].
    replace (ran ++ c :: cmds) with ((ran ++ [c]) ++ cmds) by (by rewrite <- app_assoc).
    apply IH; [done|apply Forall_app; split; [done|by constructor]|].
    apply Forall_app. split.
    + rewrite Forall_forall in Hran, Hclean. apply Forall_forall. intros d Hin.
      apply pass_clean; [by apply Hran|by destruct Hc|].
      by apply clean_covered, Hclean.
    + constructor; [|done]. apply pass_clean; [done|by destruct Hc|].
      apply covered_self.
Qed.

Lemma passes_unchanged cmds s :
  Forall (fun d => clean d None s) cmds -> fold_left pass cmds s = s.
Proof.
  induction cmds as [|c cmds IH]; intros H; [done|].
  apply Forall_cons in H as [Hc H]. simpl.
  assert (E : pass s c = s) by (by apply (replace_unchanged c)).
  rewrite E. by apply IH.
Qed.

Definition is_command (d : jsstring) : bool :=
  negb (bool_decide (d = [])) && forallb (fun x => negb (x =? backslash)) d.

Lemma is_command_spec d : is_command d = true -> command d.
Proof.
  unfold is_command. intros H. apply andb_true_iff in H as [Hne Hb].
  split.
  - apply negb_true_iff in Hne. by apply bool_decide_eq_false in Hne.
  - intros Hin. rewrite forallb_forall in Hb. specialize (Hb _ Hin).
    by rewrite N.eqb_refl in Hb.
Qed.

Lemma latexCommands_are_commands : Forall command latexCommands.
Proof.
  apply Forall_forall. intros d Hin. apply is_command_spec.
  assert (H : forallb is_command latexCommands = true) by (vm_compute; reflexivity).
  rewrite forallb_forall in H. apply H. by apply list_elem_of_In.
Qed.

(** X8. [fixLatexEscapes] is idempotent: applied to its own result it changes
    nothing. *)
Theorem latex_fix_is_idempotent (jsonString : jsstring) :
  fixLatexEscapes (fixLatexEscapes jsonString) = fixLatexEscapes jsonString.
Proof.
  change fixLatexEscapes with (fun s => fold_left pass latexCommands s). cbv beta.
  apply passes_unchanged.
  apply (passes_clean latexCommands [] jsonString);
    [apply latexCommands_are_commands|constructor|constructor].
Qed.

(** X9. A text without a backslash is left as it is. *)
Theorem text_without_backslash_is_unchanged (jsonString : jsstring) :
  ~ In backslash jsonString -> fixLatexEscapes jsonString = jsonString.
Proof.
  intros Hb. change fixLatexEscapes with (fun s => fold_left pass latexCommands s).
  cbv beta. apply passes_unchanged. apply Forall_forall. intros d _.
  rewrite <- (app_nil_r jsonString). apply clean_app; [done|].
  split; [|done]. unfold command_at. by case_bool_decide.
Qed.

Lemma text_without_backslash_is_unchanged_witness :
  fixLatexEscapes (jtext "{'formula': 'a + b'}") = jtext "{'formula': 'a + b'}".
Proof.
  apply text_without_backslash_is_unchanged.
  vm_compute. intros H. repeat (destruct H as [H|H]; [discriminate H|]). exact H.
Defined.

End LatexFacts.

(** ** The repair loop of [validateAndCorrectJson] *)

Module LoopFacts.
Import Repair.

Section Loop.

Variable JSON_parse : jsstring -> outcome json.
Variable JSON_stringify : json -> jsstring.
Variable generateText : RepairPayload -> outcome jsstring.

Local Abbreviation attempts := (attempts JSON_parse JSON_stringify generateText).
Local Abbreviation cycle := (cycle JSON_parse JSON_stringify).

(** The text [text] is the serialization of a value that the cycle read
    from [candidate] and that the schema, when there is one, returned. *)
Definition validated (schema : option ZodType) (candidate text : jsstring) : Prop :=
  exists parsed v,
    JSON_parse (fixLatexEscapes (stripMarkdownFences candidate)) = Ok parsed
    /\ match schema with
       | Some sch => sch (removeEmptyArrays parsed) = Ok v
       | None => v = removeEmptyArrays parsed
       end
    /\ text = JSON_stringify v.

Lemma cycle_validated schema candidate text :
  cycle schema candidate = Ok text -> validated schema candidate text.
Proof.
  unfold cycle. intros H.
  destruct (JSON_parse (fixLatexEscapes (stripMarkdownFences candidate)))
    as [parsed|] eqn:Hp; [|done].
  destruct schema as [sch|].
  - destruct (sch (removeEmptyArrays parsed)) as [v|] eqn:Hv; [|done].
    injection H as <-. by exists parsed, v.
  - injection H as <-. by exists parsed, (removeEmptyArrays parsed).
Qed.

(** The candidate a run is working on: the stripped input, or the stripped
    answer to the latest repair request. *)
Definition current (input cur : jsstring) (calls : list RepairPayload) : Prop :=
  match last calls with
  | None => cur = stripMarkdownFences input
  | Some p => exists t, generateText p = Ok t /\ cur = stripMarkdownFences t
  end.

Lemma attempts_returned opts m n input text :
  forall k cur lastError calls ran,
    current input cur calls ->
    result (attempts opts m n k cur lastError calls ran) = Ok text ->
    exists candidate,
      validated (o_schema opts) candidate text
      /\ current input candidate
           (repairCalls (attempts opts m n k cur lastError calls ran))
      /\ (cycles (attempts opts m n k cur lastError calls ran) + length calls
          = ran + 1
            + length (repairCalls (attempts opts m n k cur lastError calls ran)))%nat.
Proof.
  induction n as [|n IH]; intros k cur lastError calls ran Hcur; simpl; [done|].
  destruct (cycle (o_schema opts) cur) as [t|error] eqn:Hcy; simpl.
  - intros [= ->]. exists cur. split; [by apply cycle_validated|]. split; [done|lia].
  - unfold repairStructuredJson.
    match goal with |- context [generateText ?p] =>
      set (payload := p); destruct (generateText payload) as [t|e] eqn:Hg end.
    + intros H. edestruct IH as (candidate & Hv & Hc & Hn); [|exact H|].
      * unfold current. rewrite last_snoc. by exists t.
      * exists candidate. split; [done|]. split; [done|].
        rewrite length_app in Hn. simpl in Hn. lia.
    + simpl. done.
Qed.

(** How a run can fail. *)
Lemma attempts_thrown opts m n e :
  forall k cur lastError calls ran,
    lastError = errorMessage <$> last calls ->
    let r := attempts opts m n k cur lastError calls ran in
    result r = Throw e ->
    (e = str "Failed to validate JSON after " ++ decimalZ m ++ str " attempts: "
         ++ buildErrorMessage (errorMessage <$> last (repairCalls r))
     /\ cycles r = (ran + n)%nat
     /\ length (repairCalls r) = (length calls + n)%nat)
    \/ (exists p, last (repairCalls r) = Some p /\ generateText p = Throw e).
Proof.
  induction n as [|n IH]; intros k cur lastError calls ran Hl; cbn zeta; simpl.
  - intros [= <-]. left. subst. split; [done|]. split; lia.
  - destruct (cycle (o_schema opts) cur) as [t|error] eqn:Hcy; simpl; [done|].
    unfold repairStructuredJson.
    match goal with |- context [generateText ?p] =>
      set (payload := p); destruct (generateText payload) as [t|e'] eqn:Hg end.
    + intros H. specialize (IH (S k) (stripMarkdownFences t) (Some error)
                              (calls ++ [payload]) (S ran)).
      cbn zeta in IH. rewrite last_snoc in IH. specialize (IH eq_refl H).
      destruct IH as [(He & Hc & Hn)|Hex]; [left|by right].
      split; [done|]. rewrite length_app in Hn. simpl in Hn. split; lia.
    + simpl. intros [= <-]. right. exists payload. by rewrite last_snoc.
Qed.

(** The repair requests of a run: numbered from [k + 1] on, cut to the
    limit, each quoting the answer to the request before it. *)
Definition cut (s : jsstring) : jsstring := take PROMPT_TRUNCATION_LIMIT s.

Definition request_of (opts : Options) (p : RepairPayload) : Prop :=
  format p = default (str "generic-json") (o_format opts)
  /\ schemaName p = default (str "JSON payload") (o_schemaName opts)
  /\ schemaDescription p = default (str "Generic JSON structure") (o_schemaDescription opts)
  /\ originalInput p = cut <$> o_originalInput opts.

Definition quotes (input : jsstring) (calls : list RepairPayload) : Prop :=
  (forall p, calls !! 0%nat = Some p -> previousOutput p = cut (stripMarkdownFences input))
  /\ (forall i p q, calls !! i = Some p -> calls !! S i = Some q ->
        exists t, generateText p = Ok t
                  /\ previousOutput q = cut (stripMarkdownFences t)).

Lemma quotes_snoc input cur calls payload :
  current input cur calls ->
  quotes input calls ->
  previousOutput payload = cut cur ->
  quotes input (calls ++ [payload]).
Proof.
  intros Hcur [H0 Hs] Hp. split.
  - intros p Hl. destruct calls as [|p0 calls].
    + simpl in Hl. injection Hl as <-. unfold current in Hcur. simpl in Hcur.
      by rewrite Hp, Hcur.
    + apply H0. simpl in *. done.
  - intros i p q Hi Hi'.
    destruct (decide (S i < length calls)%nat) as [Hlt|Hge].
    + rewrite lookup_app_l in Hi, Hi' by lia. by eapply Hs.
    + assert (Hlen : length calls = S i).
      { apply lookup_lt_Some in Hi'. rewrite length_app in Hi'. simpl in Hi'. lia. }
      rewrite lookup_app_l in Hi by lia.
      rewrite lookup_app_r in Hi' by lia.
      replace (S i - length calls)%nat with 0%nat in Hi' by lia.
      simpl in Hi'. injection Hi' as <-.
      unfold current in Hcur.
      assert (Hlast : last calls = Some p).
      { rewrite last_lookup, Hlen. simpl. done. }
      rewrite Hlast in Hcur. destruct Hcur as (t & Ht & ->). exists t. by rewrite Hp.
Qed.

Lemma attempts_requests opts m n input :
  forall k cur lastError calls ran,
    current input cur calls ->
    quotes input calls ->
    Forall (request_of opts) calls ->
    attempt <$> calls = seq 1 k ->
    let r := attempts opts m n k cur lastError calls ran in
    quotes input (repairCalls r)
    /\ Forall (request_of opts) (repairCalls r)
    /\ attempt <$> repairCalls r = seq 1 (length (repairCalls r)).
Proof.
  induction n as [|n IH]; intros k cur lastError calls ran Hcur Hq Hr Hk;
    cbn zeta; simpl.
  - split; [done|]. split; [done|].
    rewrite Hk. f_equal. apply (f_equal length) in Hk.
    by rewrite length_fmap, length_seq in Hk.
  - assert (Hlen : length calls = k).
    { apply (f_equal length) in Hk. by rewrite length_fmap, length_seq in Hk. }
    destruct (cycle (o_schema opts) cur) as [t|error] eqn:Hcy; simpl.
    { split; [done|]. split; [done|]. by rewrite Hk, Hlen. }
    unfold repairStructuredJson.
    match goal with |- context [generateText ?p] =>
      set (payload := p); destruct (generateText payload) as [t|e'] eqn:Hg end.
    + apply IH.
      * unfold current. rewrite last_snoc. by exists t.
      * by apply (quotes_snoc input cur).
      * apply Forall_app. split; [done|]. constructor; [|done]. by repeat split.
      * rewrite fmap_app, Hk, seq_S. f_equal. simpl. f_equal. lia.
    + simpl. split; [by apply (quotes_snoc input cur)|]. split.
      * apply Forall_app. split; [done|]. constructor; [|done]. by repeat split.
      * rewrite fmap_app, Hk, length_app, Hlen. cbn [length].
        rewrite Nat.add_1_r, seq_S. f_equal. simpl. f_equal. lia.
Qed.

End Loop.

(** X10. A text that [validateAndCorrectJson] returns is the serialization of a
    value read from a candidate and accepted by the schema: the candidate
    is the stripped input when no repair was requested and the stripped
    answer to the last repair request otherwise; the run made one cycle
    more than it sent requests. *)
Theorem returned_text_is_validated
    (JSON_parse : jsstring -> outcome json) (JSON_stringify : json -> jsstring)
    (generateText : RepairPayload -> outcome jsstring)
    (jsonString : jsstring) (options : Options) (text : jsstring) :
  let r := validateAndCorrectJson JSON_parse JSON_stringify generateText
             jsonString options in
  result r = Ok text ->
  (exists candidate,
     validated JSON_parse JSON_stringify (o_schema options) candidate text
     /\ current generateText jsonString candidate (repairCalls r))
  /\ cycles r = (length (repairCalls r) + 1)%nat.
Proof.
  cbn zeta. unfold validateAndCorrectJson. intros H.
  edestruct (attempts_returned JSON_parse JSON_stringify generateText)
    as (candidate & Hv & Hc & Hn); [|exact H|].
  - reflexivity.
  - split; [by exists candidate|]. simpl in Hn. lia.
Qed.

(** A model that answers every request with a valid document. *)
Definition fixedAnswer : RepairPayload -> outcome jsstring :=
  fun _ => Ok (jtext "{'topic': 'Sorting'}").

Lemma returned_text_is_validated_witness :
  let r := validateAndCorrectJson JSON_parse JSON_stringify_pretty fixedAnswer
             (str "Sorry, no notes") RepairFacts.plainOptions in
  result r = Ok (JSON_stringify_pretty (JObj [(str "topic", JStr (str "Sorting"))]))
  /\ cycles r = 2%nat.
Proof.
  cbn zeta.
  assert (Hr : result (validateAndCorrectJson JSON_parse JSON_stringify_pretty
                         fixedAnswer (str "Sorry, no notes") RepairFacts.plainOptions)
               = Ok (JSON_stringify_pretty (JObj [(str "topic", JStr (str "Sorting"))])))
    by (vm_compute; reflexivity).
  split; [exact Hr|].
  destruct (returned_text_is_validated JSON_parse JSON_stringify_pretty fixedAnswer
              (str "Sorry, no notes") RepairFacts.plainOptions _ Hr) as [_ Hn].
  rewrite Hn. vm_compute. reflexivity.
Defined.

(** X11. [validateAndCorrectJson] throws in two ways only.  Either the attempts
    are used up: it ran [maxAttempts] cycles (none when [maxAttempts] is
    not positive), sent as many requests, and the message quotes the error
    of the last cycle, or [undefined] when there was none.  Or a repair
    request failed: the error of the model call is thrown as it is, and
    that request is the last one. *)
Theorem failure_is_exhaustion_or_model_error
    (JSON_parse : jsstring -> outcome json) (JSON_stringify : json -> jsstring)
    (generateText : RepairPayload -> outcome jsstring)
    (jsonString : jsstring) (options : Options) (e : jsstring) :
  let maxAttempts := default DEFAULT_ATTEMPTS (o_maxAttempts options) in
  let r := validateAndCorrectJson JSON_parse JSON_stringify generateText
             jsonString options in
  result r = Throw e ->
  (e = str "Failed to validate JSON after " ++ decimalZ maxAttempts
         ++ str " attempts: "
         ++ buildErrorMessage (errorMessage <$> last (repairCalls r))
   /\ cycles r = Z.to_nat maxAttempts
   /\ length (repairCalls r) = Z.to_nat maxAttempts)
  \/ (exists p, last (repairCalls r) = Some p /\ generateText p = Throw e).
Proof.
  cbn zeta. unfold validateAndCorrectJson. intros H.
  by apply (attempts_thrown JSON_parse JSON_stringify generateText) in H.
Qed.

(** A model that is out of service. *)
Definition noAnswer : RepairPayload -> outcome jsstring :=
  fun _ => Throw (str "quota exceeded").

Lemma failure_is_exhaustion_or_model_error_witness :
  let r := validateAndCorrectJson JSON_parse JSON_stringify_pretty noAnswer
             (str "Sorry, no notes") RepairFacts.plainOptions in
  result r = Throw (str "quota exceeded")
  /\ exists p, last (repairCalls r) = Some p /\ attempt p = 1%nat.
Proof.
  cbn zeta.
  assert (Hr : result (validateAndCorrectJson JSON_parse JSON_stringify_pretty
                         noAnswer (str "Sorry, no notes") RepairFacts.plainOptions)
               = Throw (str "quota exceeded")) by (vm_compute; reflexivity).
  split; [exact Hr|].
  destruct (failure_is_exhaustion_or_model_error JSON_parse JSON_stringify_pretty
              noAnswer (str "Sorry, no notes") RepairFacts.plainOptions _ Hr)
    as [(He & _)|(p & Hp & _)].
  - vm_compute in He. discriminate He.
  - exists p. split; [exact Hp|]. vm_compute in Hp. by injection Hp as <-.
Defined.

(** X12. With [maxAttempts] at 0 or below nothing is tried: no cycle, no
    request, and the error text ends with [undefined], whatever the input. *)
Theorem no_attempt_without_budget
    (JSON_parse : jsstring -> outcome json) (JSON_stringify : json -> jsstring)
    (generateText : RepairPayload -> outcome jsstring)
    (jsonString : jsstring) (options : Options) (maxAttempts : Z) :
  o_maxAttempts options = Some maxAttempts ->
  (maxAttempts <= 0)%Z ->
  validateAndCorrectJson JSON_parse JSON_stringify generateText jsonString options
  = {| result := Throw (str "Failed to validate JSON after " ++ decimalZ maxAttempts
                        ++ str " attempts: undefined");
       repairCalls := []; cycles := 0 |}.
Proof.
  intros Hm Hle. unfold validateAndCorrectJson. rewrite Hm. simpl.
  replace (Z.to_nat maxAttempts) with 0%nat by lia. reflexivity.
Qed.

Definition noBudget : Options :=
  {| o_schema := None; o_schemaName := None; o_schemaDescription := None;
     o_originalInput := None; o_format := None; o_maxAttempts := Some 0%Z |}.

Lemma no_attempt_without_budget_witness :
  validateAndCorrectJson JSON_parse JSON_stringify_pretty fixedAnswer
    (jtext "{'topic': 'Sorting'}") noBudget
  = {| result := Throw (str "Failed to validate JSON after 0 attempts: undefined");
       repairCalls := []; cycles := 0 |}.
Proof.
  rewrite (no_attempt_without_budget JSON_parse JSON_stringify_pretty fixedAnswer
             (jtext "{'topic': 'Sorting'}") noBudget 0%Z).
  - reflexivity.
  - reflexivity.
  - lia.
Defined.

(** X13. The repair requests of a run are numbered 1, 2, ... in the order they
    are sent; each carries the options' format, schema name and description
    (or the defaults) and the original input cut to 12000 code units; the
    first quotes the stripped input and each later one the stripped answer
    to the request before it, cut to 12000 code units as well. *)
Theorem repair_requests_are_numbered_and_chained
    (JSON_parse : jsstring -> outcome json) (JSON_stringify : json -> jsstring)
    (generateText : RepairPayload -> outcome jsstring)
    (jsonString : jsstring) (options : Options) :
  let r := validateAndCorrectJson JSON_parse JSON_stringify generateText
             jsonString options in
  attempt <$> repairCalls r = seq 1 (length (repairCalls r))
  /\ Forall (request_of options) (repairCalls r)
  /\ quotes generateText jsonString (repairCalls r)
  /\ Forall (fun p => (length (previousOutput p) <= PROMPT_TRUNCATION_LIMIT)%nat)
       (repairCalls r).
Proof.
  cbn zeta. unfold validateAndCorrectJson.
  destruct (attempts_requests JSON_parse JSON_stringify generateText options
              (default DEFAULT_ATTEMPTS (o_maxAttempts options))
              (Z.to_nat (default DEFAULT_ATTEMPTS (o_maxAttempts options)))
              jsonString 0%nat (stripMarkdownFences jsonString) None [] 0%nat)
    as (Hq & Hr & Hn).
  - reflexivity.
  - split; [intros p Hp; discriminate Hp|intros i p q Hp; discriminate Hp].
  - constructor.
  - reflexivity.
  - cbn zeta in *. split; [done|]. split; [done|]. split; [done|].
    apply Forall_forall. intros p Hin.
    apply list_elem_of_lookup in Hin as [i Hi]. destruct Hq as [H0 Hs].
    assert (Hcut : exists s, previousOutput p = cut s).
    { destruct i as [|i].
      - eexists. by apply H0.
      - destruct (lookup_lt_is_Some_2
                    (repairCalls
                       (attempts JSON_parse JSON_stringify generateText options
                          (default DEFAULT_ATTEMPTS (o_maxAttempts options))
                          (Z.to_nat (default DEFAULT_ATTEMPTS (o_maxAttempts options)))
                          0 (stripMarkdownFences jsonString) None [] 0)) i) as [q Hq'].
        { apply lookup_lt_Some in Hi. lia. }
        destruct (Hs i q p Hq' Hi) as (t & _ & Ht). by eexists. }
    destruct Hcut as [s ->]. unfold cut. rewrite length_take. lia.
Qed.

End LoopFacts.

(** ** Accepted quiz items *)

Module QuizFacts.
Import NotesSchema NotesSchemaFacts.

Lemma min1_nil s msg p : min1 s msg p = [] <-> s <> [].
Proof. destruct s; simpl; split; done. Qed.

Lemma optionIssues_nil opts :
  forall i, optionIssues i opts = [] <-> Forall (fun o => o <> []) opts.
Proof.
  induction opts as [|o opts IH]; intros i; simpl.
  - split; [constructor|done].
  - split.
    + intros H. apply app_eq_nil in H as [Ho Hr]. constructor.
      * by apply min1_nil in Ho.
      * by apply (IH (S i)).
    + intros H. apply Forall_cons in H as [Ho Hr].
      rewrite (proj2 (min1_nil _ _ _) Ho). simpl. by apply IH.
Qed.

(** X14. What an accepted quiz item looks like: the question, the answer and
    the explanation are not empty, no option is empty, a multiple-choice
    item has exactly four options with the answer among them, and any other
    item has no options or an empty list of them. *)
Theorem quiz_item_is_accepted_iff (value : SectionQuiz) :
  sectionQuizSchema value = true <->
  question value <> [] /\ correctAnswer value <> [] /\ explanation value <> []
  /\ Forall (fun o => o <> []) (default [] (options value))
  /\ match type value with
     | mcq => exists opts, options value = Some opts /\ length opts = 4%nat
                           /\ In (correctAnswer value) opts
     | _ => options value = None \/ options value = Some []
     end.
Proof.
  unfold sectionQuizSchema, sectionQuizIssues, objectIssues, refineIssues.
  destruct value as [t q o a e]. simpl.
  split.
  - intros H.
    destruct (_ ++ _) as [|i l] eqn:E; [|done]. clear H.
    apply app_eq_nil in E as [E1 E2].
    apply app_eq_nil in E1 as [Eq E1]. apply app_eq_nil in E1 as [Eo E1].
    apply app_eq_nil in E1 as [Ea Ee]. apply app_eq_nil in E2 as [Em En].
    apply min1_nil in Eq, Ea, Ee. split_and!; try done.
    + destruct o as [opts|]; simpl; [by apply (optionIssues_nil opts 0%nat)|constructor].
    + destruct t; simpl in *.
      * destruct o as [opts|]; [|done].
        destruct (length opts =? 4)%nat eqn:Hl; [|done]. simpl in Em.
        destruct (includes opts a) eqn:Hi; [|done].
        exists opts. split; [done|]. split; [by apply Nat.eqb_eq|].
        by apply includes_In.
      * destruct o as [[|x opts]|]; [by right|done|by left].
      * destruct o as [[|x opts]|]; [by right|done|by left].
  - intros (Hq & Ha & He & Ho & Ht).
    rewrite (proj2 (min1_nil _ _ _) Hq), (proj2 (min1_nil _ _ _) Ha),
      (proj2 (min1_nil _ _ _) He). simpl.
    assert (Eo : match o with Some opts => optionIssues 0 opts | None => [] end = []).
    { destruct o as [opts|]; [|done]. by apply optionIssues_nil. }
    rewrite Eo. simpl.
    destruct t; simpl in *.
    + destruct Ht as (opts & -> & Hl & Hin).
      apply Nat.eqb_eq in Hl. rewrite Hl. simpl.
      apply includes_In in Hin. by rewrite Hin.
    + by destruct Ht as [->| ->].
    + by destruct Ht as [->| ->].
Qed.

(** X15. Options on an item that is not multiple choice are reported with "Only
    multiple choice questions can include options", and that message is
    reported for nothing else. *)
Theorem options_are_for_multiple_choice_only (value : SectionQuiz) :
  has_violation "Only multiple choice questions can include options" value
  <-> type value <> mcq /\ exists o opts, options value = Some (o :: opts).
Proof.
  unfold has_violation, sectionQuizIssues. split.
  - intros (i & Hin & Hmsg).
    apply in_app_or in Hin as [Hin|Hin].
    { exfalso. unfold objectIssues in Hin.
      assert (Hmin : forall s m p, In i (min1 s m p) -> message i = str m).
      { intros s m p H. destruct s; [|done]. destruct H as [<-|[]]. done. }
      repeat (apply in_app_or in Hin as [Hin|Hin]).
      - apply Hmin in Hin. rewrite Hin in Hmsg. by vm_compute in Hmsg.
      - destruct (options value) as [opts|]; [|done].
        apply optionIssues_message in Hin. rewrite Hin in Hmsg. by vm_compute in Hmsg.
      - apply Hmin in Hin. rewrite Hin in Hmsg. by vm_compute in Hmsg.
      - apply Hmin in Hin. rewrite Hin in Hmsg. by vm_compute in Hmsg. }
    unfold refineIssues in Hin. destruct (type value) eqn:Ht; simpl in Hin.
    + exfalso. rewrite app_nil_r in Hin.
      destruct (options value) as [opts|].
      * destruct (negb (length opts =? 4)%nat).
        { destruct Hin as [<-|[]]. by vm_compute in Hmsg. }
        destruct (negb (includes opts (correctAnswer value))); [|done].
        destruct Hin as [<-|[]]. by vm_compute in Hmsg.
      * destruct Hin as [<-|[]]. by vm_compute in Hmsg.
    + split; [done|]. destruct (options value) as [[|o opts]|]; [done| |done].
      by exists o, opts.
    + split; [done|]. destruct (options value) as [[|o opts]|]; [done| |done].
      by exists o, opts.
  - intros (Ht & o & opts & Ho).
    eexists {| message := _; path := _ |}. split; [|reflexivity].
    apply in_or_app. right. unfold refineIssues. rewrite Ho.
    destruct (type value); [done| |]; simpl; by left.
Qed.

End QuizFacts.

(** ** Capsule creation *)

Module CreationFacts.
Import Capsules Generation GenerationFacts.

(** The arguments [createCapsule] accepts. *)
Definition creatable (args : CreateCapsuleArgs) : Prop :=
  (2 <= length (cc_title args) <= 200)%nat
  /\ (cc_topicSource args = true ->
      exists topic, cc_sourceTopic args = Some topic /\ topic <> [])
  /\ (forall topic, cc_sourceTopic args = Some topic -> (length topic <= 500)%nat).

(** X16. [createCapsule] succeeds exactly on a title of 2 to 200 code units
    and a topic of at most 500, present and not empty for a topic-based
    capsule.  It then returns a new id under which the store has a
    "pending" capsule with the given title, topic and prompt and no error
    message; every other capsule and every other table is as before. *)
Theorem capsule_creation_checks_and_stores (args : CreateCapsuleArgs) (st : Store) :
  ((exists r, createCapsule args st = Ok r) <-> creatable args)
  /\ (forall id st', createCapsule args st = Ok (id, st') ->
        id = length (capsules st)
        /\ (exists c, getCapsule id st' = Some c
                      /\ Capsule.status c = pending
                      /\ Capsule.title c = cc_title args
                      /\ Capsule.sourceTopic c = cc_sourceTopic args
                      /\ Capsule.userPrompt c = cc_userPrompt args
                      /\ Capsule.errorMessage c = None
                      /\ Capsule.createdAt c = now st)
        /\ (forall other, (other < id)%nat -> getCapsule other st' = getCapsule other st)
        /\ capsuleGenerationJobs st' = capsuleGenerationJobs st
        /\ capsuleModules st' = capsuleModules st
        /\ capsuleLessons st' = capsuleLessons st
        /\ scheduled st' = scheduled st).
Proof.
  split.
  - unfold createCapsule, creatable.
    destruct (length (cc_title args) <? 2)%nat eqn:H2.
    { apply Nat.ltb_lt in H2. split; [by intros [r Hr]|]. intros [Hl _]. lia. }
    destruct (200 <? length (cc_title args))%nat eqn:H200.
    { apply Nat.ltb_lt in H200. split; [by intros [r Hr]|]. intros [Hl _]. lia. }
    apply Nat.ltb_ge in H2, H200. cbn [orb].
    destruct (cc_topicSource args) eqn:Hts; cbn [andb].
    + case_bool_decide as Htopic; cbn [negb].
      * destruct Htopic as [[topic Ht] Hne]. rewrite Ht in *.
        destruct (500 <? length topic)%nat eqn:H500.
        -- apply Nat.ltb_lt in H500. split; [by intros [r Hr]|].
           intros (_ & _ & Hmax). specialize (Hmax topic eq_refl). lia.
        -- apply Nat.ltb_ge in H500. split; [|by eexists].
           intros _. split_and!; [lia|lia| |].
           ++ intros _. exists topic. split; [done|]. intros ->. by apply Hne.
           ++ by intros t [= <-].
      * split; [by intros [r Hr]|]. intros (_ & Hreq & _).
        destruct (Hreq eq_refl) as (topic & Ht & Hne). exfalso. apply Htopic.
        rewrite Ht. split; [by eexists|]. intros [= ->]. by apply Hne.
    + destruct (cc_sourceTopic args) as [topic|] eqn:Ht.
      * destruct (500 <? length topic)%nat eqn:H500.
        -- apply Nat.ltb_lt in H500. split; [by intros [r Hr]|].
           intros (_ & _ & Hmax). specialize (Hmax topic eq_refl). lia.
        -- apply Nat.ltb_ge in H500. split; [|by eexists].
           intros _. split_and!; [lia|lia|done|]. by intros t [= <-].
      * split; [|by eexists]. intros _. split_and!; [lia|lia|done|done].
  - intros id st' H. unfold createCapsule in H.
    repeat (destruct (_ : bool) in H; [done|]).
    injection H as <- <-. split; [done|]. split.
    + eexists. unfold getCapsule. cbn [capsules set_capsules].
      rewrite lookup_app_r, Nat.sub_diag by done. split; [reflexivity|]. done.
    + split; [|done]. intros other Hlt. unfold getCapsule. cbn [capsules set_capsules].
      by rewrite lookup_app_l.
Qed.

Lemma capsule_creation_checks_and_stores_witness :
  exists st', createCapsule sorting emptyStore = Ok (0%nat, st')
              /\ Capsule.status <$> getCapsule 0 st' = Some pending.
Proof.
  eexists. split; [reflexivity|].
  destruct (proj2 (capsule_creation_checks_and_stores sorting emptyStore) _ _ eq_refl)
    as (_ & (c & Hc & Hs & _) & _).
  transitivity (Capsule.status <$> Some c);
    [exact (f_equal (fmap Capsule.status) Hc)|simpl; by rewrite Hs].
Defined.

End CreationFacts.

(** ** The commits of the system *)

Module StepFacts.
Import Capsules Generation GenerationFacts.

(** One commit of the system: a call of one of the mutations of
    [convex/capsules.ts], of the scheduler, or the passing of time.  A job
    and a module are created for a capsule that exists; a retry count is
    written only as the stored count plus one, and only below 3. *)
Inductive Step (st : Store) : Store -> Prop :=
| step_createCapsule args id st' :
    createCapsule args st = Ok (id, st') -> Step st st'
| step_updateCapsuleStatus args st' :
    updateCapsuleStatus args st = Ok (tt, st') -> Step st st'
| step_createGenerationJob capsuleId generationId id st' :
    is_Some (capsules st !! capsuleId) ->
    createGenerationJob capsuleId generationId st = Ok (id, st') -> Step st st'
| step_updateGenerationJob jobId updates st' :
    (forall r, up_retryCount updates = Some r ->
       (r < 3)%nat
       /\ exists j, capsuleGenerationJobs st !! jobId = Some j
                    /\ r = (Job.retryCount j + 1)%nat) ->
    updateGenerationJob jobId updates st = Ok (tt, st') -> Step st st'
| step_saveGeneratedModule capsuleId data lessons id st' :
    is_Some (capsules st !! capsuleId) ->
    saveGeneratedModule capsuleId data lessons st = Ok (id, st') -> Step st st'
| step_runAfter delay task st' :
    runAfter delay task st = Ok (tt, st') -> Step st st'
| step_dequeue k st' :
    dequeue k st = Ok (tt, st') -> Step st st'
| step_advance dt st' :
    advance dt st = Ok (tt, st') -> Step st st'.

(** A list of stores, latest first, each a step from the one before it. *)
Fixpoint stepwise (l : list Store) : Prop :=
  match l with
  | [] => True
  | st' :: rest =>
      match rest with
      | [] => True
      | st :: _ => Step st st'
      end /\ stepwise rest
  end.

(** The stores of the world were committed one step at a time, starting
    from the empty store. *)
Definition traced (w : World) : Prop :=
  stepwise (observed w) /\ last (observed w) = Some emptyStore.

Lemma traced_commit w st' : traced w -> Step (store w) st' -> traced (commit st' w).
Proof.
  intros [Hs Hl] Hstep. split.
  - simpl. split; [done|]. exact Hs.
  - change (observed (commit st' w)) with (st' :: observed w).
    unfold observed in *. by rewrite last_cons, Hl.
Qed.

Lemma traced_mutation {A} (P : World -> Prop) (m : Mutation A) :
  (forall w, P w -> traced w) ->
  (forall w a st', P w -> m (store w) = Ok (a, st') -> Step (store w) st') ->
  triple P (runMutation m) (fun _ => traced) traced.
Proof.
  intros HP Hstep. apply triple_mutation.
  - intros w a st' Hw Hm. apply traced_commit; [by apply HP|by eapply Hstep].
  - exact HP.
Qed.

Lemma status_traced args :
  triple traced (runMutation (updateCapsuleStatus args)) (fun _ => traced) traced.
Proof.
  apply traced_mutation; [done|]. intros w [] st' _ H. by eapply step_updateCapsuleStatus.
Qed.

Lemma runAfter_traced d t :
  triple traced (runMutation (runAfter d t)) (fun _ => traced) traced.
Proof.
  apply traced_mutation; [done|]. intros w [] st' _ H. by eapply step_runAfter.
Qed.

(** An update that leaves the retry count alone. *)
Lemma update_traced jobId updates :
  up_retryCount updates = None ->
  triple traced (runMutation (updateGenerationJob jobId updates)) (fun _ => traced) traced.
Proof.
  intros Hr. apply traced_mutation; [done|]. intros w [] st' _ H.
  eapply step_updateGenerationJob; [|exact H]. intros r Hr'. congruence.
Qed.

Lemma now_traced :
  triple traced (runQuery now) (fun _ => traced) traced.
Proof. by apply triple_query. Qed.

Local Opaque str decimal.

Lemma finalizeGeneration_traced capsuleId jobId generationId :
  triple traced (finalizeGeneration capsuleId jobId generationId)
    (fun _ => traced) traced.
Proof.
  unfold finalizeGeneration. eapply triple_try with (E1 := traced).
  - eapply triple_bind; [apply status_traced|]. intros ?.
    eapply triple_bind; [apply now_traced|]. intros t.
    by apply update_traced.
  - intros e. apply status_traced.
Qed.

Lemma generateOutline_traced JSON_parse env capsuleId jobId generationId :
  triple traced (generateOutline JSON_parse env capsuleId jobId generationId)
    (fun _ => traced) traced.
Proof.
  unfold generateOutline. eapply triple_try with (E1 := traced).
  - eapply triple_bind; [apply triple_query with (Q := fun _ => traced); done|].
    intros [capsule|]; [|by apply triple_throw].
    destruct (generateCapsuleOutlineAI JSON_parse env) as [outline|e].
    2:{ rewrite bind_lift_throw. by apply triple_throw. }
    rewrite bind_lift_ok.
    destruct (member "error" outline) as [error|e].
    2:{ rewrite bind_lift_throw. by apply triple_throw. }
    rewrite bind_lift_ok.
    destruct (is_truthy error).
    { destruct (requiredString _) as [errorMessage|e].
      2:{ rewrite bind_lift_throw. by apply triple_throw. }
      rewrite bind_lift_ok. apply status_traced. }
    cbn zeta.
    destruct (outlineModules outline) as [modules|e].
    2:{ rewrite bind_lift_throw. by apply triple_throw. }
    rewrite bind_lift_ok.
    destruct (lessonSum modules (Number (Exactly 0))) as [totalLessons|e].
    2:{ rewrite bind_lift_throw. by apply triple_throw. }
    rewrite bind_lift_ok.
    destruct (outlineArguments _ _ _ _) as [arguments|e].
    2:{ rewrite bind_lift_throw. by apply triple_throw. }
    rewrite bind_lift_ok.
    eapply triple_bind; [apply status_traced|]. intros ?.
    eapply triple_bind; [by apply update_traced|]. intros ?.
    destruct (0 <? _)%nat; [apply runAfter_traced|].
    eapply triple_bind; [apply status_traced|]. intros ?.
    eapply triple_bind; [apply now_traced|]. intros t.
    by apply update_traced.
  - intros e. eapply triple_bind; [apply status_traced|]. intros ?.
    by apply update_traced.
Qed.

Lemma generateModuleContent_traced JSON_parse env capsuleId jobId generationId
    moduleIndex outline :
  triple traced
    (generateModuleContent JSON_parse env capsuleId jobId generationId moduleIndex outline)
    (fun _ => traced) traced.
Proof.
  unfold generateModuleContent. eapply triple_try with (E1 := traced).
  - cbn zeta.
    destruct (Outline.modules outline !! moduleIndex) as [moduleOutline|];
      [|by apply triple_throw].
    destruct (negb (truthy moduleOutline)); [by apply triple_throw|].
    eapply triple_bind with
      (Q1 := fun capsule w => traced w /\ capsule = capsules (store w) !! capsuleId).
    { apply triple_query. done. }
    intros [capsule|]; [|by apply triple_throw; intros w []].
    destruct (generateModuleContentAI JSON_parse env _) as [moduleContent|e].
    2:{ rewrite bind_lift_throw. by apply triple_throw; intros w []. }
    rewrite bind_lift_ok.
    destruct (moduleArguments moduleContent moduleOutline moduleIndex) as [arguments|e].
    2:{ rewrite bind_lift_throw. by apply triple_throw; intros w []. }
    rewrite bind_lift_ok.
    eapply triple_bind.
    { apply traced_mutation; [by intros w []|].
      intros w a st' [_ Hc] H. eapply step_saveGeneratedModule; [|exact H].
      rewrite <- Hc. by eexists. }
    intros ?.
    eapply triple_bind; [by apply update_traced|]. intros ?.
    destruct (_ <=? _)%nat; apply runAfter_traced.
  - intros e.
    eapply triple_bind with
      (Q1 := fun job w => traced w /\ job = capsuleGenerationJobs (store w) !! jobId).
    { apply triple_query. done. }
    intros job.
    destruct (_ <? 3)%nat eqn:Hlt.
    + eapply triple_bind; [|intros ?; apply runAfter_traced].
      apply traced_mutation; [by intros w []|].
      intros w a st' [_ Hj] H. destruct a.
      eapply step_updateGenerationJob; [|exact H].
      intros r [= <-]. split; [exact (proj1 (Nat.ltb_lt _ _) Hlt)|].
      unfold updateGenerationJob in H. rewrite <- Hj in H.
      destruct job as [j|]; [|done]. by exists j.
    + apply (triple_weaken traced); [by intros w []|].
      eapply triple_bind; [apply status_traced|]. intros ?.
      by apply update_traced.
Qed.

Lemma generateCapsuleContent_traced generationId capsuleId :
  triple traced (generateCapsuleContent generationId capsuleId)
    (fun _ => traced) traced.
Proof.
  unfold generateCapsuleContent.
  eapply triple_bind with
    (Q1 := fun capsule w => traced w /\ capsule = capsules (store w) !! capsuleId).
  { apply triple_query. done. }
  intros [capsule|]; [|by apply triple_throw; intros w []].
  destruct (_ && _); [by apply triple_ret; intros w []|].
  eapply triple_bind.
  { apply traced_mutation; [by intros w []|].
    intros w a st' [_ Hc] H. eapply step_createGenerationJob; [|exact H].
    rewrite <- Hc. by eexists. }
  intros jobId.
  eapply triple_bind; [apply status_traced|]. intros ?.
  eapply triple_bind; [apply runAfter_traced|]. intros ?.
  by apply triple_ret.
Qed.

Lemma exec_traced JSON_parse e w : traced w -> traced (exec JSON_parse e w).
Proof.
  intros Hw.
  assert (run : forall A (m : Act A),
            triple traced m (fun _ => traced) traced -> traced (snd (m w))).
  { intros A m T. specialize (T w Hw). by destruct (m w) as [[?|?] ?]. }
  destruct e as [args|args|generationId capsuleId|k env|dt]; cbn [exec].
  - apply run. apply traced_mutation; [done|].
    intros w' a st' _ H. by eapply step_createCapsule.
  - apply run. apply status_traced.
  - apply run. apply generateCapsuleContent_traced.
  - destruct (scheduled (store w) !! k) as [[d task]|]; [|done].
    apply run. eapply triple_bind.
    + apply traced_mutation; [done|]. intros w' [] st' _ H. by eapply step_dequeue.
    + intros ?. destruct task; cbn [runTask].
      * apply generateOutline_traced.
      * apply generateModuleContent_traced.
      * apply finalizeGeneration_traced.
  - apply run. apply traced_mutation; [done|].
    intros w' [] st' _ H. by eapply step_advance.
Qed.

Local Transparent str decimal.

Lemma timeline_traced JSON_parse events : traced (timeline JSON_parse events).
Proof.
  unfold timeline.
  assert (H : traced initial) by (by split).
  revert H. generalize initial. induction events as [|e events IH]; intros w Hw.
  - done.
  - simpl. apply IH. by apply exec_traced.
Qed.

(** What holds of the empty store and is kept by every step holds of every
    store the system commits. *)
Lemma stepwise_invariant (I : Store -> Prop) l :
  I emptyStore ->
  (forall st st', Step st st' -> I st -> I st') ->
  stepwise l -> last l = Some emptyStore -> Forall I l.
Proof.
  intros H0 Hstep. induction l as [|st' l IH]; intros Hs Hl; [constructor|].
  destruct l as [|st l].
  - simpl in Hl. injection Hl as ->. by constructor.
  - destruct Hs as [Hst Hs]. rewrite last_cons_cons in Hl.
    specialize (IH Hs Hl). constructor; [|done].
    apply Forall_cons in IH as [Hi _]. by eapply Hstep.
Qed.

(** A relation that every step is in, reflexive and transitive, relates
    each store to every later one. *)
Lemma stepwise_relation (R : Store -> Store -> Prop) l :
  (forall st, R st st) ->
  (forall a b c, R a b -> R b c -> R a c) ->
  (forall st st', Step st st' -> R st st') ->
  stepwise l ->
  forall a b later earlier,
    l !! a = Some later -> l !! b = Some earlier -> (a <= b)%nat -> R earlier later.
Proof.
  intros Hrefl Htrans Hstep. induction l as [|x l IH]; intros Hs a b later earlier Ha Hb Hle;
    [done|].
  destruct Hs as [Hx Hs]. destruct a as [|a].
  - simpl in Ha. injection Ha as <-. destruct b as [|b].
    + simpl in Hb. injection Hb as <-. apply Hrefl.
    + simpl in Hb. destruct l as [|y l']; [done|].
      eapply Htrans; [|apply Hstep, Hx].
      apply (IH Hs 0%nat b y earlier); [done|done|lia].
  - destruct b as [|b]; [lia|]. simpl in Ha, Hb.
    apply (IH Hs a b); [done|done|lia].
Qed.

End StepFacts.

(** ** What no commit changes *)

Module StoreFacts.
Import Capsules Generation GenerationFacts StepFacts.

(** A relation that every step is in, reflexive and transitive, holds
    between every store of the list and each earlier one. *)
Lemma stepwise_sorted (R : Store -> Store -> Prop) l :
  (forall st, R st st) ->
  (forall a b c, R a b -> R b c -> R a c) ->
  (forall st st', Step st st' -> R st st') ->
  stepwise l ->
  StronglySorted (fun later earlier => R earlier later) l.
Proof.
  intros Hrefl Htrans Hstep Hs. induction l as [|x l IH]; [constructor|].
  destruct Hs as [Hx Hs]. specialize (IH Hs). constructor; [done|].
  destruct l as [|y l]; [constructor|].
  apply StronglySorted_inv in IH as [_ Hy]. constructor.
  - by apply Hstep.
  - eapply Forall_impl; [exact Hy|]. intros z Hz. simpl in *.
    eapply Htrans; [exact Hz|]. by apply Hstep.
Qed.

Ltac step_cases H :=
  destruct H as [args id st' H|args st' H|capsuleId generationId id st' Hc H
                |jobId updates st' Hr H|capsuleId data lessons id st' Hc H
                |delay task st' H|k st' H|dt st' H].

Lemma createCapsule_inv args st id st' :
  createCapsule args st = Ok (id, st') ->
  exists c, st' = set_capsules (capsules st ++ [c]) st
            /\ id = length (capsules st)
            /\ Capsule.status c = pending /\ Capsule.title c = cc_title args
            /\ Capsule.errorMessage c = None.
Proof.
  unfold createCapsule. intros H.
  repeat (destruct (_ : bool) in H; [done|]).
  injection H as <- <-. eexists. by repeat split.
Qed.

Lemma updateCapsuleStatus_inv args st st' :
  updateCapsuleStatus args st = Ok (tt, st') ->
  exists c c', capsules st !! u_capsuleId args = Some c
               /\ st' = set_capsules (<[u_capsuleId args := c']> (capsules st)) st
               /\ Capsule.title c' = Capsule.title c
               /\ Capsule.userPrompt c' = Capsule.userPrompt c
               /\ Capsule.sourceTopic c' = Capsule.sourceTopic c
               /\ Capsule.createdAt c' = Capsule.createdAt c
               /\ Capsule.status c' = u_status args
               /\ Capsule.errorMessage c'
                  = patched (u_errorMessage args) (Capsule.errorMessage c)
               /\ Capsule.completedAt c'
                  = (if bool_decide (u_status args = completed) then Some (now st)
                     else Capsule.completedAt c).
Proof.
  unfold updateCapsuleStatus. intros H.
  destruct (capsules st !! u_capsuleId args) as [c|] eqn:Hc; [|done].
  injection H as <-. exists c. eexists. by repeat split.
Qed.

Lemma updateGenerationJob_inv jobId updates st st' :
  updateGenerationJob jobId updates st = Ok (tt, st') ->
  exists j, capsuleGenerationJobs st !! jobId = Some j
            /\ st' = set_jobs (<[jobId := patchJob updates (now st) j]>
                                 (capsuleGenerationJobs st)) st.
Proof.
  unfold updateGenerationJob. intros H.
  destruct (capsuleGenerationJobs st !! jobId) as [j|] eqn:Hj; [|done].
  injection H as <-. by exists j.
Qed.

(** *** Stored content is never changed *)

(** The modules and lessons of [st] are those of [st'], in the same
    places, [st'] having possibly more. *)
Definition extended (st st' : Store) : Prop :=
  capsuleModules st `prefix_of` capsuleModules st'
  /\ capsuleLessons st `prefix_of` capsuleLessons st'.

Lemma step_extended st st' : Step st st' -> extended st st'.
Proof.
  intros H. step_cases H.
  - apply createCapsule_inv in H as (c & -> & _). by split.
  - apply updateCapsuleStatus_inv in H as (c & c' & _ & -> & _). by split.
  - injection H as _ <-. by split.
  - apply updateGenerationJob_inv in H as (j & _ & ->). by split.
  - injection H as _ <-. split; simpl; by apply prefix_app_r.
  - injection H as <-. by split.
  - injection H as <-. by split.
  - injection H as <-. by split.
Qed.

(** X17. No commit of the system changes or removes a stored module or lesson:
    in the sequence of committed stores, the module table and the lesson
    table of every store begin with those of each earlier store. *)
Theorem stored_content_is_append_only
    (JSON_parse : jsstring -> outcome json) (events : list Event) :
  StronglySorted (fun later earlier => extended earlier later)
    (observed (timeline JSON_parse events)).
Proof.
  apply stepwise_sorted.
  - by split.
  - intros a b c [H1 H2] [H3 H4]. split; by etransitivity.
  - apply step_extended.
  - apply timeline_traced.
Qed.

(** *** References between documents *)

(** Every job and every module belongs to a capsule of the store, and
    every lesson to a module of the store that belongs to the lesson's
    capsule. *)
Definition linked (st : Store) : Prop :=
  Forall (fun j => is_Some (capsules st !! Job.capsuleId j)) (capsuleGenerationJobs st)
  /\ Forall (fun m => is_Some (capsules st !! CapsuleModule.capsuleId m))
       (capsuleModules st)
  /\ Forall (fun l => exists m,
                 capsuleModules st !! CapsuleLesson.moduleId l = Some m
                 /\ CapsuleModule.capsuleId m = CapsuleLesson.capsuleId l)
       (capsuleLessons st).

Lemma is_Some_app {A} (l k : list A) i : is_Some (l !! i) -> is_Some ((l ++ k) !! i).
Proof. intros [x Hx]. exists x. by apply lookup_app_l_Some. Qed.

Lemma is_Some_insert {A} (l : list A) i j x : is_Some (l !! i) -> is_Some (<[j := x]> l !! i).
Proof.
  intros H. apply lookup_lt_is_Some. rewrite length_insert. by apply lookup_lt_is_Some.
Qed.

Lemma step_linked st st' : Step st st' -> linked st -> linked st'.
Proof.
  intros H (Hj & Hm & Hl). step_cases H.
  - apply createCapsule_inv in H as (c & -> & _). split_and!; simpl; [| |done].
    + eapply Forall_impl; [exact Hj|]. intros j. apply is_Some_app.
    + eapply Forall_impl; [exact Hm|]. intros m. apply is_Some_app.
  - apply updateCapsuleStatus_inv in H as (c & c' & _ & -> & _).
    split_and!; simpl; [| |done].
    + eapply Forall_impl; [exact Hj|]. intros j. apply is_Some_insert.
    + eapply Forall_impl; [exact Hm|]. intros m. apply is_Some_insert.
  - injection H as _ <-. split_and!; simpl; [|done|done].
    apply Forall_app. split; [done|]. by constructor.
  - apply updateGenerationJob_inv in H as (j & Hjob & ->).
    split_and!; simpl; [|done|done].
    apply Forall_insert; [done|]. simpl.
    by apply (Forall_lookup_1 _ _ _ _ Hj Hjob).
  - injection H as _ <-. split_and!; simpl; [done| |].
    + apply Forall_app. split; [done|]. by constructor.
    + apply Forall_app. split.
      * eapply Forall_impl; [exact Hl|]. intros l (m & Hlm & Hc').
        exists m. split; [|done]. by apply lookup_app_l_Some.
      * apply Forall_forall. intros l Hin.
        apply list_elem_of_fmap in Hin as (d & -> & _). simpl.
        eexists. split; [by rewrite lookup_app_r, Nat.sub_diag|reflexivity].
  - injection H as <-. by split_and!.
  - injection H as <-. by split_and!.
  - injection H as <-. by split_and!.
Qed.

(** X18. In every store the system commits, every job and every module refers
    to an existing capsule, and every lesson to an existing module of its
    own capsule. *)
Theorem references_are_valid
    (JSON_parse : jsstring -> outcome json) (events : list Event) :
  Forall linked (observed (timeline JSON_parse events)).
Proof.
  destruct (timeline_traced JSON_parse events) as [Hs Hl].
  apply stepwise_invariant; [|apply step_linked|done|done].
  split_and!; constructor.
Qed.

(** *** The retry count *)

Definition retriesBounded (st : Store) : Prop :=
  Forall (fun j => (Job.retryCount j <= 2)%nat) (capsuleGenerationJobs st).

(** Every job of [st] is in [st'] under the same id, for the same capsule
    and generation, with a retry count that is not lower. *)
Definition retriesKept (st st' : Store) : Prop :=
  forall id j, capsuleGenerationJobs st !! id = Some j ->
    exists j', capsuleGenerationJobs st' !! id = Some j'
               /\ Job.capsuleId j' = Job.capsuleId j
               /\ Job.generationId j' = Job.generationId j
               /\ (Job.retryCount j <= Job.retryCount j')%nat.

Lemma retriesKept_same st st' :
  capsuleGenerationJobs st' = capsuleGenerationJobs st -> retriesKept st st'.
Proof. intros E id j Hj. exists j. rewrite E. by split_and!. Qed.

Lemma step_retriesBounded st st' : Step st st' -> retriesBounded st -> retriesBounded st'.
Proof.
  intros H Hb. unfold retriesBounded in *. step_cases H.
  - apply createCapsule_inv in H as (c & -> & _). done.
  - apply updateCapsuleStatus_inv in H as (c & c' & _ & -> & _). done.
  - injection H as _ <-. simpl. apply Forall_app. split; [done|].
    constructor; [simpl; lia|done].
  - apply updateGenerationJob_inv in H as (j & Hjob & ->). simpl.
    apply Forall_insert; [done|]. simpl.
    destruct (up_retryCount updates) as [r|] eqn:Hup; simpl.
    + destruct (Hr r eq_refl) as [Hlt _]. lia.
    + by apply (Forall_lookup_1 _ _ _ _ Hb Hjob).
  - injection H as _ <-. done.
  - injection H as <-. done.
  - injection H as <-. done.
  - injection H as <-. done.
Qed.

Lemma step_retriesKept st st' : Step st st' -> retriesKept st st'.
Proof.
  intros H. step_cases H.
  - apply createCapsule_inv in H as (c & -> & _). by apply retriesKept_same.
  - apply updateCapsuleStatus_inv in H as (c & c' & _ & -> & _).
    by apply retriesKept_same.
  - injection H as _ <-. intros i j Hj. exists j. split_and!; try done.
    simpl. by apply lookup_app_l_Some.
  - apply updateGenerationJob_inv in H as (j & Hjob & ->).
    intros i x Hx. simpl. destruct (decide (i = jobId)) as [->|Hne].
    + rewrite Hjob in Hx. injection Hx as <-.
      eexists. rewrite list_lookup_insert_eq by (by eapply lookup_lt_Some).
      split; [done|]. simpl. split_and!; try done.
      destruct (up_retryCount updates) as [r|] eqn:Hup; simpl; [|lia].
      destruct (Hr r eq_refl) as (_ & j' & Hj' & ->).
      rewrite Hjob in Hj'. injection Hj' as <-. lia.
    + exists x. rewrite list_lookup_insert_ne by done. by split_and!.
  - injection H as _ <-. by apply retriesKept_same.
  - injection H as <-. by apply retriesKept_same.
  - injection H as <-. by apply retriesKept_same.
  - injection H as <-. by apply retriesKept_same.
Qed.

(** X19. The retry count of a job is at most 2 in every store the system
    commits, and it is never lowered: a job keeps its id, capsule and
    generation, and its count only grows, whichever module the failures
    came from. *)
Theorem retry_count_is_bounded_and_never_reset
    (JSON_parse : jsstring -> outcome json) (events : list Event) :
  Forall retriesBounded (observed (timeline JSON_parse events))
  /\ StronglySorted (fun later earlier => retriesKept earlier later)
       (observed (timeline JSON_parse events)).
Proof.
  destruct (timeline_traced JSON_parse events) as [Hs Hl]. split.
  - apply stepwise_invariant; [constructor|apply step_retriesBounded|done|done].
  - apply stepwise_sorted; [| |apply step_retriesKept|done].
    + intros st. by apply retriesKept_same.
    + intros a b c Hab Hbc id j Hj.
      destruct (Hab id j Hj) as (j' & Hj' & Hc & Hg & Hr).
      destruct (Hbc id j' Hj') as (j'' & Hj'' & Hc' & Hg' & Hr').
      exists j''. split_and!; [done|congruence|congruence|lia].
Qed.

(** *** Capsules *)

(** Every capsule of [st] is in [st'] under the same id with the same
    title, prompt, topic and creation time; an error message or a completion
    time it had is still there, possibly replaced. *)
Definition capsulesKept (st st' : Store) : Prop :=
  forall id c, capsules st !! id = Some c ->
    exists c', capsules st' !! id = Some c'
               /\ Capsule.title c' = Capsule.title c
               /\ Capsule.userPrompt c' = Capsule.userPrompt c
               /\ Capsule.sourceTopic c' = Capsule.sourceTopic c
               /\ Capsule.createdAt c' = Capsule.createdAt c
               /\ (is_Some (Capsule.errorMessage c) -> is_Some (Capsule.errorMessage c'))
               /\ (is_Some (Capsule.completedAt c) -> is_Some (Capsule.completedAt c')).

Lemma capsulesKept_same st st' : capsules st' = capsules st -> capsulesKept st st'.
Proof. intros E id c Hc. exists c. rewrite E. by split_and!. Qed.

Lemma step_capsulesKept st st' : Step st st' -> capsulesKept st st'.
Proof.
  intros H. step_cases H.
  - apply createCapsule_inv in H as (c & -> & _). intros i x Hx. exists x.
    split_and!; try done. simpl. by apply lookup_app_l_Some.
  - apply updateCapsuleStatus_inv
      in H as (c & c' & Hc & -> & Ht & Hp & Hs & Hcr & _ & He & Hco).
    intros i x Hx. simpl. destruct (decide (i = u_capsuleId args)) as [->|Hne].
    + rewrite Hc in Hx. injection Hx as <-. exists c'.
      rewrite list_lookup_insert_eq by (by eapply lookup_lt_Some).
      split_and!; try done.
      * rewrite He. destruct (u_errorMessage args); simpl; [by eexists|done].
      * rewrite Hco. case_bool_decide; [by eexists|done].
    + exists x. rewrite list_lookup_insert_ne by done. by split_and!.
  - injection H as _ <-. by apply capsulesKept_same.
  - apply updateGenerationJob_inv in H as (j & _ & ->). by apply capsulesKept_same.
  - injection H as _ <-. by apply capsulesKept_same.
  - injection H as <-. by apply capsulesKept_same.
  - injection H as <-. by apply capsulesKept_same.
  - injection H as <-. by apply capsulesKept_same.
Qed.

(** X20. No commit of the system removes a capsule, changes its title, prompt,
    topic or creation time, or clears its error message or completion
    time: a capsule that failed once keeps an error message through a
    retry and after completion. *)
Theorem capsule_identity_is_kept
    (JSON_parse : jsstring -> outcome json) (events : list Event) :
  StronglySorted (fun later earlier => capsulesKept earlier later)
    (observed (timeline JSON_parse events)).
Proof.
  apply stepwise_sorted; [| |apply step_capsulesKept|apply timeline_traced].
  - intros st. by apply capsulesKept_same.
  - intros a b c Hab Hbc id x Hx.
    destruct (Hab id x Hx) as (x' & Hx' & H1 & H2 & H3 & H4 & H5 & H6).
    destruct (Hbc id x' Hx') as (x'' & Hx'' & G1 & G2 & G3 & G4 & G5 & G6).
    exists x''. split_and!; [done|congruence|congruence|congruence|congruence|auto|auto].
Qed.

End StoreFacts.

(** ** The stages of the pipeline *)

Module StageFacts.
Import Capsules Generation GenerationFacts.

(** *** The model call *)

Definition unparsable : jsstring := str "Could not parse JSON from AI response".

Lemma extract_failure JSON_parse text e :
  extractJsonFromResponse JSON_parse text = Throw e -> e = unparsable.
Proof.
  unfold extractJsonFromResponse. intros H.
  destruct (JSON_parse text); [done|].
  assert (Hb : forall e',
             match indexOf 123 text, lastIndexOf 125 text with
             | Some firstBrace, Some lastBrace =>
                 if (firstBrace <? lastBrace)%nat then
                   match JSON_parse (slice firstBrace (lastBrace + 1) text) with
                   | Ok v => Ok v
                   | Throw _ => Throw unparsable
                   end
                 else Throw unparsable
             | _, _ => Throw unparsable
             end = Throw e' -> e' = unparsable).
  { intros e' H'. destruct (indexOf 123 text), (lastIndexOf 125 text);
      try (by injection H' as <-).
    destruct (_ <? _)%nat; [|by injection H' as <-].
    destruct (JSON_parse _); [done|by injection H' as <-]. }
  destruct (match_group1 codeBlockPattern text) as [g|]; [|by apply Hb].
  destruct (JSON_parse (default [] g)); [done|by apply Hb].
Qed.

(** X21. The errors of a model call.  Without an API key it throws before the
    request is looked at.  Otherwise it throws the rejection of the
    request, "AI API error:" with the status and the body of a reply that is
    not ok, "No response from AI" for a reply without text, and "Could not
    parse JSON from AI response" for a text from which no JSON could be
    read: the parser's own message is never passed on. *)
Theorem model_call_failures
    (JSON_parse : jsstring -> outcome json) (env : AiEnv) (e : jsstring) :
  generateAI JSON_parse env = Throw e <->
  if falsy_string (apiKey env)
  then e = str "GOOGLE_GENERATIVE_AI_API_KEY not configured"
  else match reply env with
       | Rejected message => e = message
       | NotOk status errorText =>
           e = str "AI API error: " ++ decimal (N.to_nat status) ++ str " - "
               ++ errorText
       | Candidates text =>
           if falsy_string text then e = str "No response from AI"
           else e = unparsable
                /\ exists e', extractJsonFromResponse JSON_parse (default [] text)
                              = Throw e'
       end.
Proof.
  unfold generateAI, request. destruct (falsy_string (apiKey env)).
  { split; [by intros [= <-]|by intros ->]. }
  destruct (reply env) as [message|status errorText|text].
  - split; [by intros [= <-]|by intros ->].
  - split; [by intros [= <-]|by intros ->].
  - destruct (falsy_string text); [split; [by intros [= <-]|by intros ->]|].
    split.
    + intros H. split; [by eapply extract_failure|by exists e].
    + intros [-> [e' He']]. rewrite He'. f_equal. by eapply extract_failure.
Qed.

(** *** A JSON object inside a prose answer *)

Lemma indexOf_first c pre rest :
  ~ In c pre -> indexOf c (pre ++ c :: rest) = Some (length pre).
Proof.
  induction pre as [|x pre IH]; intros Hn; simpl.
  - by rewrite N.eqb_refl.
  - destruct (x =? c) eqn:Hx.
    + apply N.eqb_eq in Hx as ->. exfalso. apply Hn. by left.
    + rewrite IH; [done|]. intros H. apply Hn. by right.
Qed.

Lemma lastIndexOf_last c rest post :
  ~ In c post -> lastIndexOf c (rest ++ c :: post) = Some (length rest).
Proof.
  intros Hn. unfold lastIndexOf.
  rewrite rev_app_distr. simpl. rewrite <- app_assoc. simpl.
  rewrite indexOf_first.
  - simpl. f_equal. rewrite length_rev, length_app. simpl. lia.
  - intros H. apply Hn. by apply in_rev.
Qed.

Lemma codeBlock_needs_backtick prev rest pos :
  head rest <> Some FenceFacts.backtick -> match_at codeBlockPattern prev rest pos = None.
Proof.
  intros Hh. unfold match_at, codeBlockPattern. rewrite FenceFacts.fence_word.
  simpl. destruct rest as [|x rest]; [done|].
  destruct (x =? FenceFacts.backtick) eqn:Hx; [|done].
  apply N.eqb_eq in Hx as ->. done.
Qed.

Lemma codeBlock_not_found prev rest pos :
  ~ In FenceFacts.backtick rest -> search codeBlockPattern prev rest pos = None.
Proof.
  revert prev pos. induction rest as [|x rest IH]; intros prev pos Hn; cbn [search].
  - by rewrite codeBlock_needs_backtick.
  - rewrite codeBlock_needs_backtick.
    + apply IH. intros H. apply Hn. by right.
    + simpl. intros [=->]. apply Hn. by left.
Qed.

(** X22. An answer that is not JSON itself and has no code fence, but holds a
    JSON object between its first opening brace and its last closing brace:
    the object is what [extractJsonFromResponse] returns. *)
Theorem object_in_prose_is_extracted
    (JSON_parse : jsstring -> outcome json) (pre body post : jsstring) (v : json) :
  let text := pre ++ [123] ++ body ++ [125] ++ post in
  ~ In 123 pre -> ~ In 125 post -> ~ In FenceFacts.backtick text ->
  (exists e, JSON_parse text = Throw e) ->
  JSON_parse ([123] ++ body ++ [125]) = Ok v ->
  extractJsonFromResponse JSON_parse text = Ok v.
Proof.
  intros text Hpre Hpost Hb [e He] Hv. unfold extractJsonFromResponse. rewrite He.
  unfold match_group1. rewrite codeBlock_not_found by done.
  assert (Hfirst : indexOf 123 text = Some (length pre))
    by (by apply (indexOf_first 123 pre (body ++ [125] ++ post))).
  rewrite Hfirst.
  assert (Hlast : lastIndexOf 125 text = Some (length pre + 1 + length body)%nat).
  { unfold text.
    replace (pre ++ [123] ++ body ++ [125] ++ post)
      with ((pre ++ [123] ++ body) ++ 125 :: post) by (by rewrite <- !app_assoc).
    rewrite lastIndexOf_last by done. rewrite !length_app. simpl. f_equal. lia. }
  rewrite Hlast.
  assert (Hlt : (length pre <? length pre + 1 + length body)%nat = true)
    by (apply Nat.ltb_lt; lia).
  rewrite Hlt.
  assert (Hslice : slice (length pre) (length pre + 1 + length body + 1) text
                   = [123] ++ body ++ [125]).
  { unfold slice, text. rewrite drop_app_length.
    replace (length pre + 1 + length body + 1 - length pre)%nat
      with (length ([123] ++ body ++ [125])) by (rewrite !length_app; simpl; lia).
    replace ([123] ++ body ++ [125] ++ post) with (([123] ++ body ++ [125]) ++ post)
      by (by rewrite <- !app_assoc).
    by rewrite take_app_length. }
  by rewrite Hslice, Hv.
Qed.

Lemma object_in_prose_is_extracted_witness :
  extractJsonFromResponse JSON_parse (jtext "Here it is: {'title': 'Sorting'} Enjoy!")
  = Ok (JObj [(str "title", JStr (str "Sorting"))]).
Proof.
  apply (object_in_prose_is_extracted JSON_parse (jtext "Here it is: ")
           (jtext "'title': 'Sorting'") (jtext " Enjoy!")).
  - vm_compute. intros H. repeat (destruct H as [H|H]; [discriminate H|]). exact H.
  - vm_compute. intros H. repeat (destruct H as [H|H]; [discriminate H|]). exact H.
  - vm_compute. intros H. repeat (destruct H as [H|H]; [discriminate H|]). exact H.
  - eexists. vm_compute. reflexivity.
  - vm_compute. reflexivity.
Defined.

(** *** The outline stage *)

(** The number of lessons of a module of the outline whose [lessons] are
    an array, or absent. *)
Definition lessonCountOf (m : json) : nat :=
  length (default [] (prop_array "lessons" m)).

Definition listsLessons (m : json) : Prop :=
  is_null m = false
  /\ (prop "lessons" m = None \/ exists lessons, prop "lessons" m = Some (JArr lessons)).

(** For modules that list their lessons the sum is the number of the
    lessons. *)
Lemma lessonSum_arrays modules :
  Forall listsLessons modules ->
  forall k, lessonSum modules (Number (Exactly k))
            = Ok (Number (Exactly (k + sum_list_with lessonCountOf modules))).
Proof.
  induction 1 as [|m modules [Hnull Hl] _ IH]; intros k.
  - cbn. f_equal. f_equal. f_equal. lia.
  - cbn [lessonSum sum_list_with]. unfold lessonsLength, lessonCountOf at 1, prop_array.
    rewrite Hnull. destruct Hl as [->|[lessons ->]]; cbn [andThen add add_length].
    + rewrite IH. cbn. f_equal. f_equal. f_equal. lia.
    + rewrite IH. cbn. f_equal. f_equal. f_equal. lia.
Qed.

(** The update of the job after the outline. *)
Definition outlineUpdate (outline : json) (totalModules : nat) : JobUpdates :=
  {| up_currentStage := Some (str "module_0");
     up_outlineGenerated := Some true;
     up_outlineJson := Some outline;
     up_modulesGenerated := None;
     up_totalModules := Some totalModules;
     up_currentModuleIndex := None;
     up_lastError := None; up_retryCount := None;
     up_completedAt := None |}.

Definition completion (t : N) : JobUpdates :=
  {| up_currentStage := Some (str "completed");
     up_outlineGenerated := None; up_outlineJson := None;
     up_modulesGenerated := None; up_totalModules := None;
     up_currentModuleIndex := None;
     up_lastError := None; up_retryCount := None;
     up_completedAt := Some t |}.

(** [outline.estimatedDuration || 30], as the validator of
    [updateCapsuleStatus] lets it pass. *)
Definition durationOf (outline : json) : outcome (option jsstring) :=
  optionalNumber (Some (or_json (prop "estimatedDuration" outline) (JNum (str "30")))).

(** X23. An outline with at least one module.  The document has no truthy
    [error], its [modules] are an array that is not empty, the lesson counts
    of the modules add up to a number, its [description] is absent or a
    string and its [estimatedDuration] is falsy or a number.  Then the
    capsule goes to "generating_content" with the number of modules, the sum
    of the lesson counts, the description and the duration (30 when the
    document gives none); the job records the outline, the module count and
    the stage "module_0"; and the generation of module 0 is scheduled, with
    no delay, behind the calls already pending. *)
Theorem outline_schedules_the_first_module
    (JSON_parse : jsstring -> outcome json) (env : AiEnv) (w : World)
    (capsuleId jobId : nat) (generationId : jsstring) (c : Capsule.t) (job : Job.t)
    (outline : json) (modules : list json) (totalLessons : Count)
    (description estimatedDuration : option jsstring) :
  capsules (store w) !! capsuleId = Some c ->
  capsuleGenerationJobs (store w) !! jobId = Some job ->
  generateCapsuleOutlineAI JSON_parse env = Ok outline ->
  is_truthy (prop "error" outline) = false ->
  prop "modules" outline = Some (JArr modules) ->
  modules <> [] ->
  lessonSum modules (Number (Exactly 0)) = Ok (Number totalLessons) ->
  optionalString (prop "description" outline) = Ok description ->
  durationOf outline = Ok estimatedDuration ->
  let run := generateOutline JSON_parse env capsuleId jobId generationId w in
  let st' := store (snd run) in
  fst run = Ok tt
  /\ (exists c', capsules st' !! capsuleId = Some c'
                 /\ Capsule.status c' = generating_content
                 /\ Capsule.moduleCount c' = Some (length modules)
                 /\ Capsule.lessonCount c' = Some totalLessons
                 /\ Capsule.description c' = patched description (Capsule.description c)
                 /\ Capsule.estimatedDuration c'
                    = patched estimatedDuration (Capsule.estimatedDuration c)
                 /\ Capsule.errorMessage c' = Capsule.errorMessage c)
  /\ capsuleGenerationJobs st' !! jobId
     = Some (patchJob (outlineUpdate outline (length modules)) (now (store w)) job)
  /\ scheduled st'
     = scheduled (store w)
       ++ [(0, GenerateModuleContent capsuleId jobId generationId 0
                 {| Outline.document := outline; Outline.modules := modules |})]
  /\ capsuleModules st' = capsuleModules (store w).
Proof.
  intros Hc Hj Hai Herr Hm Hne Hsum Hd He. cbn zeta.
  assert (Hpos : (0 <? length modules)%nat = true).
  { apply Nat.ltb_lt. destruct modules; [done|simpl; lia]. }
  assert (Hnull : is_null outline = false) by (by destruct outline).
  unfold generateOutline, try_catch, bind, runQuery, getCapsuleForGeneration, lift,
    member, outlineModules, outlineArguments, andThen.
  unfold durationOf in He.
  rewrite Hc, Hai, Hnull, Herr, Hm, Hsum, Hd, He, Hpos.
  unfold runMutation, updateCapsuleStatus. cbn [u_capsuleId store commit].
  rewrite Hc. cbn [store commit].
  unfold updateGenerationJob. cbn [capsuleGenerationJobs set_capsules].
  rewrite Hj. cbn [fst snd store commit runAfter].
  split; [done|]. split.
  - eexists. cbn [capsules set_scheduled set_jobs set_capsules].
    rewrite list_lookup_insert_eq by (by eapply lookup_lt_Some).
    split; [reflexivity|]. cbn. done.
  - cbn [capsuleGenerationJobs set_scheduled set_jobs set_capsules scheduled
         capsuleModules].
    rewrite list_lookup_insert_eq by (by eapply lookup_lt_Some).
    done.
Qed.

Lemma outline_schedules_the_first_module_witness :
  let w := timeline JSON_parse outlined in
  (Capsule.moduleCount <$> capsules (store w) !! 0%nat) = Some (Some 2%nat)
  /\ (Capsule.lessonCount <$> capsules (store w) !! 0%nat) = Some (Some (Exactly 3))
  /\ (Capsule.estimatedDuration <$> capsules (store w) !! 0%nat)
     = Some (Some (str "45"))
  /\ (snd <$> scheduled (store w)) = [moduleTask 0].
Proof.
  cbn zeta.
  change (timeline JSON_parse outlined)
    with (exec JSON_parse (RunTask 0 (answers twoModules)) (timeline JSON_parse started)).
  assert (Hq : scheduled (store (timeline JSON_parse started)) !! 0%nat
               = Some (0, GenerateOutline 0 0 (str "gen_1")))
    by (vm_compute; reflexivity).
  unfold exec. rewrite Hq.
  set (w0 := timeline JSON_parse started) in *.
  assert (Hd : (runMutation (dequeue 0) w0).1 = Ok tt) by reflexivity.
  unfold bind. destruct (runMutation (dequeue 0) w0) as [[[]|] w1] eqn:Hrun;
    [|discriminate Hd].
  assert (Hw1 : w1 = commit (set_scheduled [] (store w0)) w0).
  { vm_compute in Hrun. injection Hrun as <-. vm_compute. reflexivity. }
  cbn [runTask].
  edestruct (outline_schedules_the_first_module JSON_parse (answers twoModules) w1
               0%nat 0%nat (str "gen_1"))
    as (_ & (c' & Hc' & _ & Hmc & Hlc & _ & Hdur & _) & _ & Hs & _).
  - rewrite Hw1. vm_compute. reflexivity.
  - rewrite Hw1. vm_compute. reflexivity.
  - vm_compute. reflexivity.
  - vm_compute. reflexivity.
  - vm_compute. reflexivity.
  - discriminate.
  - vm_compute. reflexivity.
  - vm_compute. reflexivity.
  - vm_compute. reflexivity.
  - rewrite Hc', Hs. simpl. rewrite Hmc, Hlc, Hdur, Hw1. vm_compute. done.
Defined.

(** X24. An outline without modules.  The document is not [null] and has no
    truthy [error], its [modules] are absent, [null] or an empty array, its
    [description] is absent or a string and its [estimatedDuration] is falsy
    or a number; a document that is a number, a string or an array is such
    an outline.  Then the capsule is completed at once, with 0 modules and 0
    lessons, the job goes to the stage "completed", and nothing is
    scheduled. *)
Theorem empty_outline_completes_at_once
    (JSON_parse : jsstring -> outcome json) (env : AiEnv) (w : World)
    (capsuleId jobId : nat) (generationId : jsstring) (c : Capsule.t) (job : Job.t)
    (outline : json) (description estimatedDuration : option jsstring) :
  capsules (store w) !! capsuleId = Some c ->
  capsuleGenerationJobs (store w) !! jobId = Some job ->
  generateCapsuleOutlineAI JSON_parse env = Ok outline ->
  is_null outline = false ->
  is_truthy (prop "error" outline) = false ->
  outlineModules outline = Ok [] ->
  optionalString (prop "description" outline) = Ok description ->
  durationOf outline = Ok estimatedDuration ->
  let run := generateOutline JSON_parse env capsuleId jobId generationId w in
  let st' := store (snd run) in
  fst run = Ok tt
  /\ (exists c', capsules st' !! capsuleId = Some c'
                 /\ Capsule.status c' = completed
                 /\ Capsule.moduleCount c' = Some 0%nat
                 /\ Capsule.lessonCount c' = Some (Exactly 0)
                 /\ Capsule.description c' = patched description (Capsule.description c)
                 /\ Capsule.estimatedDuration c'
                    = patched estimatedDuration (Capsule.estimatedDuration c)
                 /\ Capsule.completedAt c' = Some (now (store w)))
  /\ capsuleGenerationJobs st' !! jobId
     = Some (patchJob (completion (now (store w))) (now (store w))
               (patchJob (outlineUpdate outline 0) (now (store w)) job))
  /\ scheduled st' = scheduled (store w)
  /\ capsuleModules st' = capsuleModules (store w).
Proof.
  intros Hc Hj Hai Hnull Herr Hm Hd He. cbn zeta.
  unfold generateOutline, try_catch, bind, runQuery, getCapsuleForGeneration, lift,
    member, outlineArguments, andThen.
  unfold durationOf in He.
  rewrite Hc, Hai, Hnull, Herr, Hm. cbn [lessonSum]. rewrite Hd, He.
  cbn [length Nat.ltb Nat.leb].
  unfold runMutation, updateCapsuleStatus. cbn [u_capsuleId store commit].
  rewrite Hc. cbn [store commit].
  unfold updateGenerationJob. cbn [capsuleGenerationJobs set_capsules].
  rewrite Hj. cbn [fst snd store commit statusOnly u_capsuleId capsules set_jobs set_capsules].
  rewrite list_lookup_insert_eq by (by eapply lookup_lt_Some).
  cbn [fst snd store commit capsuleGenerationJobs set_jobs set_capsules].
  rewrite list_lookup_insert_eq by (by eapply lookup_lt_Some).
  cbn [fst snd store commit].
  split; [done|]. split.
  - eexists. cbn [capsules set_scheduled set_jobs set_capsules].
    rewrite list_lookup_insert_eq
      by (rewrite length_insert; by eapply lookup_lt_Some).
    split; [reflexivity|]. cbn. done.
  - cbn [capsuleGenerationJobs set_scheduled set_jobs set_capsules scheduled
         capsuleModules now].
    rewrite list_lookup_insert_eq
      by (rewrite length_insert; by eapply lookup_lt_Some).
    done.
Qed.

Definition noModules : jsstring :=
  jtext "{'description':'Nothing to teach','modules':[]}".

Lemma empty_outline_completes_at_once_witness :
  let run := generateOutline JSON_parse (answers noModules) 0%nat 0%nat (str "gen_1")
               (timeline JSON_parse started) in
  fst run = Ok tt
  /\ statusOf 0 (snd run) = Some completed
  /\ scheduled (store (snd run)) = scheduled (store (timeline JSON_parse started)).
Proof.
  cbn zeta.
  edestruct (empty_outline_completes_at_once JSON_parse (answers noModules)
               (timeline JSON_parse started) 0%nat 0%nat (str "gen_1"))
    as (Hok & (c' & Hc' & Hs & _) & _ & Hq & _).
  - vm_compute. reflexivity.
  - vm_compute. reflexivity.
  - vm_compute. reflexivity.
  - reflexivity.
  - reflexivity.
  - reflexivity.
  - vm_compute. reflexivity.
  - vm_compute. reflexivity.
  - unfold statusOf. rewrite Hc'. simpl. by rewrite Hs.
Defined.

(** X25. A failure of the outline stage is final: when the model call throws,
    the capsule becomes "failed" with the message of the error, the job
    records the message as its last error and keeps its retry count, and
    nothing is scheduled: the outline is not retried. *)
Theorem outline_failure_is_final
    (JSON_parse : jsstring -> outcome json) (env : AiEnv) (w : World)
    (capsuleId jobId : nat) (generationId : jsstring) (c : Capsule.t) (job : Job.t)
    (e : jsstring) :
  capsules (store w) !! capsuleId = Some c ->
  capsuleGenerationJobs (store w) !! jobId = Some job ->
  generateCapsuleOutlineAI JSON_parse env = Throw e ->
  let run := generateOutline JSON_parse env capsuleId jobId generationId w in
  let st' := store (snd run) in
  fst run = Ok tt
  /\ capsules st' !! capsuleId = Some (withFailure e (now (store w)) c)
  /\ capsuleGenerationJobs st' !! jobId
     = Some (patchJob (errorUpdate e None) (now (store w)) job)
  /\ scheduled st' = scheduled (store w)
  /\ capsuleModules st' = capsuleModules (store w).
Proof.
  intros Hc Hj Hai. cbn zeta.
  unfold generateOutline, try_catch, bind, runQuery, getCapsuleForGeneration, lift.
  rewrite Hc, Hai.
  unfold runMutation, updateCapsuleStatus. cbn [u_capsuleId statusWithError store commit].
  rewrite Hc. cbn [store commit].
  unfold updateGenerationJob. cbn [capsuleGenerationJobs set_capsules].
  rewrite Hj. cbn [fst snd store commit].
  split; [done|].
  cbn [capsules capsuleGenerationJobs set_scheduled set_jobs set_capsules scheduled
       capsuleModules].
  rewrite !list_lookup_insert_eq by (by eapply lookup_lt_Some).
  done.
Qed.

Lemma outline_failure_is_final_witness :
  let run := generateOutline JSON_parse unavailable 0%nat 0%nat (str "gen_1")
               (timeline JSON_parse started) in
  statusOf 0 (snd run) = Some failed
  /\ errorOf 0 (snd run) = Some (Some (str "AI API error: 503 - overloaded"))
  /\ retryCountOf 0 (snd run) = Some 0%nat
  /\ scheduled (store (snd run)) = scheduled (store (timeline JSON_parse started)).
Proof.
  cbn zeta.
  edestruct (outline_failure_is_final JSON_parse unavailable
               (timeline JSON_parse started) 0%nat 0%nat (str "gen_1"))
    as (_ & Hc' & Hj' & Hq & _).
  - vm_compute. reflexivity.
  - vm_compute. reflexivity.
  - vm_compute. reflexivity.
  - unfold statusOf, errorOf, retryCountOf. rewrite Hc', Hj', Hq. done.
Defined.

(** What [generateOutline] computes from an outline before its first
    commit: the modules, the sum of their lesson counts and the arguments of
    [updateCapsuleStatus]. *)
Definition outlineInfo (capsuleId : nat) (outline : json)
  : outcome (list json * UpdateCapsuleStatusArgs) :=
  andThen (outlineModules outline)
    (fun modules =>
       andThen (lessonSum modules (Number (Exactly 0)))
         (fun totalLessons =>
            andThen (outlineArguments capsuleId outline (length modules) totalLessons)
              (fun arguments => Ok (modules, arguments)))).

(** The document makes the handler throw the error [e] before it commits
    anything: it is [null]; or it is an error object whose message is truthy
    and not a string; or it is no error object and its modules have no
    [reduce], one of them is [null], or a validator rejects the outline
    info. *)
Definition unusable (capsuleId : nat) (outline : json) (e : jsstring) : Prop :=
  member "error" outline = Throw e
  \/ (is_truthy (prop "error" outline) = true
      /\ requiredString (or_value (prop "message" outline)
                           (Some (JStr (str "Content generation failed")))) = Throw e)
  \/ (is_null outline = false
      /\ is_truthy (prop "error" outline) = false
      /\ outlineInfo capsuleId outline = Throw e).

(** X30. An outline document the handler cannot use fails the capsule the
    way a failed model call does: when the document is [null], when its
    modules are neither absent, [null] nor an array, when one of the modules
    is [null], or when a validator of [updateCapsuleStatus] rejects the
    message of an error object or the description, the lesson count or the
    duration, the capsule becomes "failed" with the message of the error,
    the job records it as its last error, and nothing else is written:
    the capsule keeps its counts and nothing is scheduled. *)
Theorem unusable_outline_fails
    (JSON_parse : jsstring -> outcome json) (env : AiEnv) (w : World)
    (capsuleId jobId : nat) (generationId : jsstring) (c : Capsule.t) (job : Job.t)
    (outline : json) (e : jsstring) :
  capsules (store w) !! capsuleId = Some c ->
  capsuleGenerationJobs (store w) !! jobId = Some job ->
  generateCapsuleOutlineAI JSON_parse env = Ok outline ->
  unusable capsuleId outline e ->
  let run := generateOutline JSON_parse env capsuleId jobId generationId w in
  let st' := store (snd run) in
  fst run = Ok tt
  /\ capsules st' !! capsuleId = Some (withFailure e (now (store w)) c)
  /\ capsuleGenerationJobs st' !! jobId
     = Some (patchJob (errorUpdate e None) (now (store w)) job)
  /\ scheduled st' = scheduled (store w)
  /\ capsuleModules st' = capsuleModules (store w)
  /\ length (history (snd run)) = (2 + length (history w))%nat.
Proof.
  intros Hc Hj Hai Hbad. cbn zeta.
  assert (E : forall body : Act unit,
             body w = (Throw e, w) ->
             let run := try_catch body
                          (fun error =>
                             runMutation (updateCapsuleStatus
                                            (statusWithError capsuleId failed error)) ;;
                             runMutation (updateGenerationJob jobId
                                            (errorUpdate error None))) w in
             fst run = Ok tt
             /\ capsules (store (snd run)) !! capsuleId
                = Some (withFailure e (now (store w)) c)
             /\ capsuleGenerationJobs (store (snd run)) !! jobId
                = Some (patchJob (errorUpdate e None) (now (store w)) job)
             /\ scheduled (store (snd run)) = scheduled (store w)
             /\ capsuleModules (store (snd run)) = capsuleModules (store w)
             /\ length (history (snd run)) = (2 + length (history w))%nat).
  { intros body Hb. cbn zeta. unfold try_catch. rewrite Hb.
    unfold bind, runMutation, updateCapsuleStatus.
    cbn [u_capsuleId statusWithError store commit]. rewrite Hc. cbn [store commit].
    unfold updateGenerationJob. cbn [capsuleGenerationJobs set_capsules].
    rewrite Hj. cbn [fst snd store commit].
    split; [done|].
    cbn [capsules capsuleGenerationJobs set_scheduled set_jobs set_capsules scheduled
         capsuleModules history length].
    rewrite !list_lookup_insert_eq by (by eapply lookup_lt_Some).
    done. }
  unfold generateOutline. apply E.
  unfold bind, runQuery, getCapsuleForGeneration, lift.
  rewrite Hc, Hai.
  destruct Hbad as [Hm|[[Herr Hmsg]|(Hnull & Herr & Hinfo)]].
  - by rewrite Hm.
  - assert (Hnull : is_null outline = false) by (by destruct outline).
    unfold member. rewrite Hnull, Herr, Hmsg. done.
  - unfold member. rewrite Hnull, Herr. cbn zeta.
    unfold outlineInfo, andThen in Hinfo.
    destruct (outlineModules outline) as [modules|e1]; [|by injection Hinfo as ->].
    destruct (lessonSum modules (Number (Exactly 0))) as [total|e1];
      [|by injection Hinfo as ->].
    destruct (outlineArguments _ _ _ _) as [args|e1]; [done|by injection Hinfo as ->].
Qed.

Lemma unusable_outline_fails_witness :
  let run := generateOutline JSON_parse (answers (jtext "{'modules':'abc'}")) 0%nat 0%nat
               (str "gen_1") (timeline JSON_parse started) in
  statusOf 0 (snd run) = Some failed
  /\ errorOf 0 (snd run) = Some (Some typeError)
  /\ scheduled (store (snd run)) = scheduled (store (timeline JSON_parse started)).
Proof.
  cbn zeta.
  edestruct (unusable_outline_fails JSON_parse (answers (jtext "{'modules':'abc'}"))
               (timeline JSON_parse started) 0%nat 0%nat (str "gen_1"))
    as (_ & Hc' & _ & Hq & _).
  - vm_compute. reflexivity.
  - vm_compute. reflexivity.
  - vm_compute. reflexivity.
  - right. right. split; [reflexivity|]. split; [reflexivity|]. vm_compute. reflexivity.
  - unfold statusOf, errorOf. rewrite Hc', Hq. done.
Defined.

(** X26. Finalization: the capsule becomes "completed" and gets its completion
    time, the job goes to the stage "completed" with a completion time and
    its counters untouched; nothing is scheduled. *)
Theorem finalization_completes
    (w : World) (capsuleId jobId : nat) (generationId : jsstring)
    (c : Capsule.t) (job : Job.t) :
  capsules (store w) !! capsuleId = Some c ->
  capsuleGenerationJobs (store w) !! jobId = Some job ->
  let run := finalizeGeneration capsuleId jobId generationId w in
  let st' := store (snd run) in
  fst run = Ok tt
  /\ capsules st' !! capsuleId = Some (withStatus completed (now (store w)) c)
  /\ capsuleGenerationJobs st' !! jobId
     = Some (patchJob (completion (now (store w))) (now (store w)) job)
  /\ scheduled st' = scheduled (store w)
  /\ capsuleModules st' = capsuleModules (store w)
  /\ capsuleLessons st' = capsuleLessons (store w).
Proof.
  intros Hc Hj. cbn zeta.
  unfold finalizeGeneration, try_catch, bind, runQuery.
  unfold runMutation, updateCapsuleStatus. cbn [u_capsuleId statusOnly store commit].
  rewrite Hc. cbn [store commit].
  unfold updateGenerationJob. cbn [capsuleGenerationJobs set_capsules].
  rewrite Hj. cbn [fst snd store commit].
  split; [done|].
  cbn [capsules capsuleGenerationJobs set_scheduled set_jobs set_capsules scheduled
       capsuleModules capsuleLessons now].
  rewrite !list_lookup_insert_eq by (by eapply lookup_lt_Some).
  done.
Qed.

Lemma finalization_completes_witness :
  let w := timeline JSON_parse (take 5 finished) in
  let run := finalizeGeneration 0%nat 0%nat (str "gen_1") w in
  statusOf 0 (snd run) = Some completed
  /\ progressOf 0 (store (snd run)) = Some (2%nat, 2%nat, str "completed").
Proof.
  cbn zeta.
  assert (Hj : exists job,
             capsuleGenerationJobs (store (timeline JSON_parse (take 5 finished))) !! 0%nat
             = Some job
             /\ Job.modulesGenerated job = 2%nat /\ Job.totalModules job = 2%nat).
  { eexists. split; [vm_compute; reflexivity|]. split; reflexivity. }
  destruct Hj as (job & Hj & Hg & Hn).
  assert (Hc : is_Some (capsules (store (timeline JSON_parse (take 5 finished))) !! 0%nat))
    by (eexists; vm_compute; reflexivity).
  destruct Hc as [c Hc].
  remember (timeline JSON_parse (take 5 finished)) as w eqn:Hw. clear Hw.
  destruct (finalization_completes w 0%nat 0%nat (str "gen_1") c job Hc Hj)
    as (_ & Hc' & Hj' & _).
  unfold statusOf, progressOf. rewrite Hc', Hj'. simpl. by rewrite Hg, Hn.
Defined.

End StageFacts.

(** ** What the queries return *)

Module QueryFacts.
Import Capsules Generation GenerationFacts StepFacts StoreFacts Queries.

Lemma documents_lookup {A} (table : list A) i x :
  In (i, x) (documents table) <-> table !! i = Some x.
Proof.
  unfold documents. rewrite <- list_elem_of_In, list_elem_of_lookup. split.
  - intros [k Hk]. rewrite list_lookup_imap in Hk.
    destruct (table !! k) as [y|] eqn:Hy; [|done]. simpl in Hk. by injection Hk as -> ->.
  - intros Hx. exists i. rewrite list_lookup_imap, Hx. done.
Qed.

Lemma documents_app {A} (table : list A) x :
  documents (table ++ [x]) = documents table ++ [(length table, x)].
Proof.
  unfold documents. rewrite imap_app. simpl. by rewrite Nat.add_0_r.
Qed.

(** *** The latest job *)

(** X27. After an accepted start, the job the query returns for the capsule is
    the one just created: an earlier job of a failed attempt is no longer
    reported. *)
Theorem latest_job_is_reported
    (generationId : jsstring) (capsuleId : nat) (w : World) (c : Capsule.t) :
  capsules (store w) !! capsuleId = Some c ->
  startable (Capsule.status c) = true ->
  let w' := snd (generateCapsuleContent generationId capsuleId w) in
  getGenerationJob capsuleId (store w')
  = Some (length (capsuleGenerationJobs (store w)),
          freshJob capsuleId generationId (now (store w))).
Proof.
  intros Hc Hs. cbn zeta.
  pose proof (start_accepted generationId capsuleId w c Hc Hs) as E.
  cbn zeta in E. rewrite E. cbn [snd store].
  unfold getGenerationJob, jobsOf.
  cbn [capsuleGenerationJobs set_scheduled set_capsules set_jobs].
  rewrite documents_app, filter_app, reverse_app.
  rewrite filter_cons_True by done. done.
Qed.

Lemma latest_job_is_reported_witness :
  let w := timeline JSON_parse (take 7 retried) in
  fst <$> getGenerationJob 0 (store (snd (generateCapsuleContent (str "gen_2") 0%nat w)))
  = Some 1%nat.
Proof.
  cbn zeta.
  assert (Hc : exists c, capsules (store (timeline JSON_parse (take 7 retried))) !! 0%nat
                         = Some c /\ startable (Capsule.status c) = true).
  { eexists. split; vm_compute; reflexivity. }
  destruct Hc as (c & Hc & Hs).
  assert (Hn : length (capsuleGenerationJobs
                         (store (timeline JSON_parse (take 7 retried)))) = 1%nat)
    by (vm_compute; reflexivity).
  remember (timeline JSON_parse (take 7 retried)) as w eqn:Hw. clear Hw.
  rewrite (latest_job_is_reported (str "gen_2") 0%nat w c Hc Hs). simpl.
  by rewrite Hn.
Defined.

(** *** The content of a capsule *)

Lemma insert_by_perm {A} (key : A -> nat) x l : insert_by key x l ≡ₚ x :: l.
Proof.
  induction l as [|y t IH]; simpl; [done|].
  destruct (key x <=? key y)%nat; [done|]. rewrite IH. apply Permutation_swap.
Qed.

Lemma sort_by_perm {A} (key : A -> nat) l : sort_by key l ≡ₚ l.
Proof.
  induction l as [|x l IH]; simpl; [done|]. by rewrite insert_by_perm, IH.
Qed.

Definition by_key {A} (key : A -> nat) (x y : A) : Prop := (key x <= key y)%nat.

Lemma insert_by_sorted {A} (key : A -> nat) x l :
  Sorted (by_key key) l -> Sorted (by_key key) (insert_by key x l).
Proof.
  induction l as [|y t IH]; intros Hs; simpl.
  - by repeat constructor.
  - destruct (key x <=? key y)%nat eqn:Hxy.
    + constructor; [done|]. constructor. by apply Nat.leb_le.
    + apply Nat.leb_gt in Hxy. apply Sorted_inv in Hs as [Hs Hy].
      constructor; [by apply IH|].
      destruct t as [|z t]; simpl.
      * constructor. unfold by_key. lia.
      * destruct (key x <=? key z)%nat.
        -- constructor. unfold by_key. lia.
        -- constructor. by apply HdRel_inv in Hy.
Qed.

Lemma sort_by_sorted {A} (key : A -> nat) l : Sorted (by_key key) (sort_by key l).
Proof.
  induction l as [|x l IH]; simpl; [constructor|]. by apply insert_by_sorted.
Qed.

(** The lessons a view lists. *)
Definition listed (view : list ModuleWithLessons) : list (nat * CapsuleLesson.t) :=
  mjoin (mw_lessons <$> view).

(** Grouping a list by the values of a key that all belong to a
    duplicate-free list of keys loses nothing. *)
Lemma grouping_perm {A} (key : A -> nat) (keys : list nat) (l : list A) :
  NoDup keys ->
  Forall (fun x => key x ∈ keys) l ->
  mjoin ((fun k => filter (fun x => key x = k) l) <$> keys) ≡ₚ l.
Proof.
  revert l. induction keys as [|k keys IH]; intros l Hnd Hall.
  - destruct l as [|x l]; [done|]. apply Forall_cons in Hall as [Hx _].
    by apply elem_of_nil in Hx.
  - apply NoDup_cons in Hnd as [Hk Hnd]. rewrite fmap_cons. cbn [mjoin list_join].
    etransitivity; [|apply (filter_app_complement (fun x => key x = k) l)].
    apply Permutation_app; [done|].
    assert (Heq : (fun k' => filter (fun x => key x = k') l) <$> keys
                  = (fun k' => filter (fun x => key x = k')
                                 (filter (fun x => ~ key x = k) l)) <$> keys).
    { apply list_fmap_ext. intros i k' Hk'.
      rewrite list_filter_filter. apply list_filter_iff. intros x. split.
      - intros Hx. split; [done|]. intros E. apply Hk. rewrite <- E, Hx.
        by eapply list_elem_of_lookup_2.
      - by intros [Hx _]. }
    rewrite Heq. apply IH; [done|].
    apply Forall_forall. intros x Hx. apply list_elem_of_filter in Hx as [Hne Hx].
    rewrite Forall_forall in Hall. specialize (Hall x Hx).
    apply elem_of_cons in Hall as [E|Hin]; [done|done].
Qed.

Lemma join_perm_ext {A B} (f g : A -> list B) (l : list A) :
  (forall x, f x ≡ₚ g x) -> mjoin (f <$> l) ≡ₚ mjoin (g <$> l).
Proof.
  intros H. induction l as [|x l IH]; [done|].
  rewrite !fmap_cons. cbn [mjoin list_join]. by rewrite (H x), IH.
Qed.

Lemma documents_ids {A} (table : list A) : (fst <$> documents table) = seq 0 (length table).
Proof.
  unfold documents. rewrite fmap_imap.
  rewrite (imap_ext _ (fun i _ => i) table) by done.
  rewrite (imap_seq_0 table (fun i => i)). by rewrite list_fmap_id.
Qed.

Lemma timeline_linked JSON_parse events : linked (store (timeline JSON_parse events)).
Proof.
  destruct (timeline_traced JSON_parse events) as [Hs Hl].
  assert (H : Forall linked (observed (timeline JSON_parse events))).
  { apply stepwise_invariant; [|apply step_linked|done|done].
    split_and!; constructor. }
  by apply Forall_cons in H as [H _].
Qed.

(** X28. What [getCapsuleWithContent] returns for a capsule of a store the
    system has reached: the capsule's modules, each once, in ascending
    order; under each module, in ascending order, lessons of that module;
    and, over all modules, every lesson of the capsule exactly once. *)
Theorem capsule_content_is_sorted_and_complete
    (JSON_parse : jsstring -> outcome json) (events : list Event)
    (capsuleId : nat) (capsule : Capsule.t) (view : list ModuleWithLessons) :
  let st := store (timeline JSON_parse events) in
  getCapsuleWithContent capsuleId st = Some (capsule, view) ->
  Sorted (by_key (fun mw => CapsuleModule.order (mw_module mw))) view
  /\ (fun mw => (mw_id mw, mw_module mw)) <$> view
     ≡ₚ filter (fun m => CapsuleModule.capsuleId (snd m) = capsuleId)
          (documents (capsuleModules st))
  /\ Forall (fun mw =>
               Sorted (by_key (fun l => CapsuleLesson.order (snd l))) (mw_lessons mw)
               /\ Forall (fun l => CapsuleLesson.moduleId (snd l) = mw_id mw)
                    (mw_lessons mw))
       view
  /\ listed view
     ≡ₚ filter (fun l => CapsuleLesson.capsuleId (snd l) = capsuleId)
          (documents (capsuleLessons st)).
Proof.
  intros st. unfold getCapsuleWithContent.
  destruct (capsules st !! capsuleId) as [c|]; [|done].
  cbn zeta. intros [= _ <-].
  set (ms := sort_by (fun m => CapsuleModule.order (snd m))
               (filter (fun m => CapsuleModule.capsuleId (snd m) = capsuleId)
                  (documents (capsuleModules st)))).
  set (ls := filter (fun l => CapsuleLesson.capsuleId (snd l) = capsuleId)
               (documents (capsuleLessons st))).
  assert (Hms : ms ≡ₚ filter (fun m => CapsuleModule.capsuleId (snd m) = capsuleId)
                       (documents (capsuleModules st))) by apply sort_by_perm.
  split_and!.
  - apply (Sorted_fmap _ (by_key (fun m => CapsuleModule.order (snd m))) _ ms);
      [done|apply sort_by_sorted].
  - rewrite <- Hms.
    match goal with |- ?lhs ≡ₚ _ => assert (E : lhs = ms) end; [|by rewrite E].
    rewrite <- list_fmap_compose. rewrite <- (list_fmap_id ms) at 2.
    apply list_fmap_ext. by intros i [id m] _.
  - apply Forall_fmap, Forall_forall. intros m _. cbn. split.
    + apply sort_by_sorted.
    + rewrite sort_by_perm. apply Forall_forall. intros l Hl.
      by apply list_elem_of_filter in Hl as [Hl _].
  - unfold listed. rewrite <- list_fmap_compose.
    etransitivity.
    { apply (join_perm_ext _
               (fun m => filter (fun l => CapsuleLesson.moduleId (snd l) = fst m) ls)).
      intros m. cbn. apply sort_by_perm. }
    assert (E : (fun m : nat * CapsuleModule.t =>
                   filter (fun l => CapsuleLesson.moduleId (snd l) = fst m) ls) <$> ms
                = (fun k => filter (fun l => CapsuleLesson.moduleId (snd l) = k) ls)
                    <$> (fst <$> ms)) by (by rewrite <- list_fmap_compose).
    rewrite E. apply grouping_perm.
    + rewrite Hms.
      assert (Hsub : (fst <$> filter (fun m => CapsuleModule.capsuleId (snd m) = capsuleId)
                                (documents (capsuleModules st)))
                     `sublist_of` (fst <$> documents (capsuleModules st)))
        by apply fmap_sublist, sublist_filter.
      assert (Hnd : NoDup (fst <$> documents (capsuleModules st)))
        by (rewrite documents_ids; apply NoDup_seq).
      eapply sublist_NoDup; eassumption.
    + apply Forall_forall. intros [i l] Hl.
      apply list_elem_of_filter in Hl as [Hc Hl]. cbn in Hc.
      apply list_elem_of_In, documents_lookup in Hl.
      destruct (timeline_linked JSON_parse events) as (_ & _ & Hlinked).
      fold st in Hlinked. rewrite Forall_forall in Hlinked.
      destruct (Hlinked l) as (m & Hm & Hmc); [by eapply list_elem_of_lookup_2|].
      cbn. apply list_elem_of_fmap. exists (CapsuleLesson.moduleId l, m).
      split; [done|]. rewrite Hms. apply list_elem_of_filter. split.
      * cbn. congruence.
      * by apply list_elem_of_In, documents_lookup.
Qed.

Lemma capsule_content_is_sorted_and_complete_witness :
  exists capsule view,
    getCapsuleWithContent 0 (store (timeline JSON_parse finished)) = Some (capsule, view)
    /\ length (listed view) = 3%nat.
Proof.
  assert (H : exists capsule view,
             getCapsuleWithContent 0 (store (timeline JSON_parse finished))
             = Some (capsule, view)).
  { eexists _, _. vm_compute. reflexivity. }
  destruct H as (capsule & view & H). exists capsule, view. split; [exact H|].
  destruct (capsule_content_is_sorted_and_complete JSON_parse finished 0%nat
              capsule view H) as (_ & _ & _ & Hp).
  rewrite Hp. vm_compute. reflexivity.
Defined.

End QueryFacts.

(** ** Module orders of a first generation *)

Module OrderFacts.
Import Capsules Generation GenerationFacts.

(** *** Module orders of a capsule generated once

    C5 fails because a retry leaves the modules of the failed attempt in
    place.  What the code does ensure: as long as a capsule has a single
    generation job, the orders of its stored modules are 0, 1, ..., in
    storage order, as many as the job has counted. *)

Definition taskCapsule (t : Task) : nat :=
  match t with
  | GenerateOutline capsuleId _ _ => capsuleId
  | GenerateModuleContent capsuleId _ _ _ _ => capsuleId
  | FinalizeGeneration capsuleId _ _ => capsuleId
  end.

(** The number of generated modules a pending call finds in its job. *)
Definition expects (t : Task) (g : nat) : Prop :=
  match t with
  | GenerateOutline _ _ _ => g = 0%nat
  | GenerateModuleContent _ _ _ moduleIndex _ => g = moduleIndex
  | FinalizeGeneration _ _ _ => True
  end.

Definition ordersIn (capsuleId : nat) (st : Store) : list nat :=
  CapsuleModule.order <$> modulesOf capsuleId st.

(** [jobId] is a job of the capsule. *)
Definition jobOf (capsuleId jobId : nat) (st : Store) : Prop :=
  exists job, capsuleGenerationJobs st !! jobId = Some job
              /\ Job.capsuleId job = capsuleId.

Definition onlyJob (capsuleId jobId : nat) (st : Store) : Prop :=
  forall j, jobOf capsuleId j st -> j = jobId.

(** A capsule without a job has no module; a capsule with a single job has
    the orders 0, 1, ... up to the job's count. *)
Definition dense (capsuleId : nat) (st : Store) : Prop :=
  ((forall j, ~ jobOf capsuleId j st) -> ordersIn capsuleId st = [])
  /\ (forall j job,
        capsuleGenerationJobs st !! j = Some job -> Job.capsuleId job = capsuleId ->
        onlyJob capsuleId j st ->
        ordersIn capsuleId st = seq 0 (Job.modulesGenerated job)).

Definition callOk (st : Store) (t : Task) : Prop :=
  exists job, capsuleGenerationJobs st !! taskJob t = Some job
              /\ Job.capsuleId job = taskCapsule t
              /\ expects t (Job.modulesGenerated job).

Definition calls (st : Store) : Prop :=
  Forall (fun dt => callOk st (snd dt)) (scheduled st)
  /\ NoDup (pendingJobs (scheduled st)).

(** No handler is running. *)
Definition orderly (w : World) : Prop :=
  calls (store w) /\ forall c, dense c (store w).

(** The handler of a call for job [j] of capsule [c] is running; the job
    counts [g] modules and the capsule, if [j] is its only job, has the
    orders 0, ..., [k - 1]. *)
Definition at_work (j c g k : nat) (w : World) : Prop :=
  calls (store w)
  /\ ~ elem_of j (pendingJobs (scheduled (store w)))
  /\ (exists job, capsuleGenerationJobs (store w) !! j = Some job
                  /\ Job.capsuleId job = c /\ Job.modulesGenerated job = g)
  /\ (forall c', c' <> c -> dense c' (store w))
  /\ (onlyJob c j (store w) -> ordersIn c (store w) = seq 0 k).

Definition idle (j c : nat) (w : World) : Prop := exists g, at_work j c g g w.

Lemma triple_total {A} (P : World -> Prop) (m : Mutation A)
    (Q : A -> World -> Prop) (E : World -> Prop) :
  (forall w, P w -> exists a st', m (store w) = Ok (a, st') /\ Q a (commit st' w)) ->
  triple P (runMutation m) Q E.
Proof.
  intros H w Hw. destruct (H w Hw) as (a & st' & Hm & HQ).
  unfold runMutation. by rewrite Hm.
Qed.

(** Commits that leave the jobs, the modules and the queue alone. *)
Lemma at_work_same j c g k w st' :
  capsuleGenerationJobs st' = capsuleGenerationJobs (store w) ->
  capsuleModules st' = capsuleModules (store w) ->
  scheduled st' = scheduled (store w) ->
  at_work j c g k w -> at_work j c g k (commit st' w).
Proof.
  intros Ej Em Eq. unfold at_work, calls, callOk, dense, onlyJob, jobOf, ordersIn,
    modulesOf. cbn [store commit]. by rewrite Ej, Em, Eq.
Qed.

Lemma orderly_same w st' :
  capsuleGenerationJobs st' = capsuleGenerationJobs (store w) ->
  capsuleModules st' = capsuleModules (store w) ->
  scheduled st' = scheduled (store w) ->
  orderly w -> orderly (commit st' w).
Proof.
  intros Ej Em Eq. unfold orderly, calls, callOk, dense, onlyJob, jobOf, ordersIn,
    modulesOf. cbn [store commit]. by rewrite Ej, Em, Eq.
Qed.

Lemma at_work_orderly j c g w : at_work j c g g w -> orderly w.
Proof.
  intros (Hcalls & Hnot & (job & Hj & Hc & Hg) & Hothers & Hown).
  split; [done|]. intros c'. destruct (decide (c' = c)) as [->|Hne]; [|by apply Hothers].
  split.
  - intros Hnone. exfalso. apply (Hnone j). by exists job.
  - intros j0 job0 Hj0 Hc0 Honly.
    assert (j = j0) by (apply Honly; by exists job). subst j0.
    rewrite Hj in Hj0. injection Hj0 as <-. rewrite Hg. by apply Hown.
Qed.

Lemma idle_orderly j c w : idle j c w -> orderly w.
Proof. intros [g H]. by eapply at_work_orderly. Qed.

(** Taking a call off the queue. *)
Lemma at_work_dequeue w k d t :
  orderly w ->
  scheduled (store w) !! k = Some (d, t) ->
  exists g, expects t g
            /\ at_work (taskJob t) (taskCapsule t) g g
                 (commit (set_scheduled (delete k (scheduled (store w))) (store w)) w).
Proof.
  intros [[Ht Hn] Hd] Hk.
  pose proof (take_drop_middle _ _ _ Hk) as Hsplit.
  assert (Hdel : delete k (scheduled (store w))
                 = take k (scheduled (store w)) ++ drop (S k) (scheduled (store w)))
    by apply delete_take_drop.
  rewrite <- Hsplit in Ht, Hn.
  apply Forall_app in Ht as [Ht1 Ht2]. apply Forall_cons in Ht2 as [Htask Ht2].
  unfold pendingJobs in Hn. rewrite fmap_app, fmap_cons in Hn.
  apply NoDup_app in Hn as (Hn1 & Hn12 & Hn2).
  apply NoDup_cons in Hn2 as [Hnot Hn2]. simpl in Hnot, Htask.
  destruct Htask as (job & Hj & Hc & He).
  exists (Job.modulesGenerated job). split; [done|].
  unfold at_work. cbn [store commit]. split_and!.
  - unfold calls. cbn [scheduled set_scheduled]. rewrite Hdel. split.
    + apply Forall_app. done.
    + unfold pendingJobs. rewrite fmap_app. apply NoDup_app. split; [done|].
      split; [|done]. intros x Hx Hx'. apply (Hn12 x Hx). by right.
  - cbn [scheduled set_scheduled]. rewrite Hdel. unfold pendingJobs. rewrite fmap_app.
    intros Hin. apply elem_of_app in Hin as [Hin|Hin]; [|done].
    apply (Hn12 _ Hin). by left.
  - by exists job.
  - intros c' _. apply Hd.
  - intros Honly. destruct (Hd (taskCapsule t)) as [_ Hsole].
    by apply (Hsole (taskJob t) job).
Qed.

(** Putting the next call of the running job on the queue. *)
Lemma orderly_enqueue w j c g d t :
  at_work j c g g w ->
  taskJob t = j -> taskCapsule t = c -> expects t g ->
  orderly (commit (set_scheduled (scheduled (store w) ++ [(d, t)]) (store w)) w).
Proof.
  intros Hw Ej Ec He.
  pose proof (at_work_orderly _ _ _ _ Hw) as [_ Hd].
  destruct Hw as ([Ht Hn] & Hnot & (job & Hj & Hc & Hg) & _).
  split; [|exact Hd]. unfold calls. cbn [store commit scheduled set_scheduled]. split.
  - apply Forall_app. split; [done|]. constructor; [|done].
    exists job. simpl. rewrite Ej, Ec, Hg. done.
  - unfold pendingJobs. rewrite fmap_app. apply NoDup_app. split; [done|]. split.
    + intros x Hx Hx'. simpl in Hx'. apply list_elem_of_singleton in Hx'.
      subst x. by rewrite Ej in Hx.
    + apply NoDup_singleton.
Qed.

Lemma jobOf_insert st j job job' c' j' :
  capsuleGenerationJobs st !! j = Some job ->
  Job.capsuleId job' = Job.capsuleId job ->
  jobOf c' j' (set_jobs (<[j := job']> (capsuleGenerationJobs st)) st) <-> jobOf c' j' st.
Proof.
  intros Hj Hc. unfold jobOf. cbn [capsuleGenerationJobs set_jobs].
  destruct (decide (j' = j)) as [->|Hne].
  - rewrite list_lookup_insert_eq by (by eapply lookup_lt_Some). rewrite Hj. split.
    + intros (x & [= <-] & Hx). exists job. split; [done|congruence].
    + intros (x & [= <-] & Hx). exists job'. split; [done|congruence].
  - by rewrite list_lookup_insert_ne.
Qed.

(** Patching the running job. *)
Lemma at_work_patch w j c g k job job' :
  at_work j c g k w ->
  capsuleGenerationJobs (store w) !! j = Some job ->
  Job.capsuleId job' = Job.capsuleId job ->
  at_work j c (Job.modulesGenerated job') k
    (commit (set_jobs (<[j := job']> (capsuleGenerationJobs (store w))) (store w)) w).
Proof.
  intros ([Ht Hn] & Hnot & (job0 & Hj0 & Hc & Hg) & Hothers & Hown) Hj Hcap.
  rewrite Hj in Hj0. injection Hj0 as <-.
  assert (Hlt : (j < length (capsuleGenerationJobs (store w)))%nat)
    by (by eapply lookup_lt_Some).
  unfold at_work. cbn [store commit]. split_and!.
  - split; [|done]. cbn [scheduled set_jobs]. apply Forall_forall. intros [d t] Hin.
    rewrite Forall_forall in Ht. destruct (Ht _ Hin) as (x & Hx & Hxc & Hxe).
    exists x. split; [|done]. cbn [capsuleGenerationJobs set_jobs snd] in *.
    rewrite list_lookup_insert_ne; [done|].
    intros ->. apply Hnot. unfold pendingJobs. apply list_elem_of_fmap. by exists (d, t).
  - done.
  - exists job'. cbn [capsuleGenerationJobs set_jobs].
    rewrite list_lookup_insert_eq by done. split_and!; [done|congruence|done].
  - intros c' Hne. destruct (Hothers c' Hne) as [Hnone Hsole]. split.
    + intros H. apply Hnone. intros j' Hj'. apply (H j').
      by apply (jobOf_insert (store w) j job job').
    + intros j0 x Hx Hxc Honly. cbn [capsuleGenerationJobs set_jobs] in Hx.
      destruct (decide (j0 = j)) as [->|Hnej].
      { rewrite list_lookup_insert_eq in Hx by done. injection Hx as <-. congruence. }
      rewrite list_lookup_insert_ne in Hx by done.
      apply (Hsole j0 x Hx Hxc). intros j' Hj'. apply Honly.
      by apply (jobOf_insert (store w) j job job').
  - intros Honly. apply Hown. intros j' Hj'. apply Honly.
    by apply (jobOf_insert (store w) j job job').
Qed.

(** Storing a module of the running job's capsule. *)
Lemma at_work_save w j c g k data lessons id st' :
  at_work j c g k w ->
  md_order data = k ->
  saveGeneratedModule c data lessons (store w) = Ok (id, st') ->
  at_work j c g (S k) (commit st' w).
Proof.
  intros (Hcalls & Hnot & Hjob & Hothers & Hown) Hk [= _ <-].
  unfold at_work. cbn [store commit]. split_and!; try done.
  - intros c' Hne. destruct (Hothers c' Hne) as [Hnone Hsole].
    assert (E : ordersIn c' (store w) = ordersIn c' (store w)) by done.
    unfold dense, ordersIn, modulesOf, jobOf, onlyJob in *.
    cbn [capsuleModules capsuleGenerationJobs].
    rewrite filter_app, filter_cons_False, filter_nil, app_nil_r by (simpl; congruence).
    done.
  - intros Honly. unfold ordersIn, modulesOf in *. cbn [capsuleModules].
    rewrite filter_app, filter_cons_True, filter_nil by done.
    rewrite fmap_app, (Hown Honly), seq_S. simpl. by rewrite Hk.
Qed.

(** Inserting a new job. *)
Lemma at_work_create w c job0 :
  orderly w ->
  Job.capsuleId job0 = c -> Job.modulesGenerated job0 = 0%nat ->
  at_work (length (capsuleGenerationJobs (store w))) c 0 0
    (commit (set_jobs (capsuleGenerationJobs (store w) ++ [job0]) (store w)) w).
Proof.
  intros [[Ht Hn] Hd] Hc Hg.
  assert (Hold : forall c' j', (j' < length (capsuleGenerationJobs (store w)))%nat ->
            jobOf c' j' (set_jobs (capsuleGenerationJobs (store w) ++ [job0]) (store w))
            <-> jobOf c' j' (store w)).
  { intros c' j' Hlt. unfold jobOf. cbn [capsuleGenerationJobs set_jobs].
    by rewrite lookup_app_l. }
  unfold at_work. cbn [store commit]. split_and!.
  - split; [|done]. cbn [scheduled set_jobs]. eapply Forall_impl; [exact Ht|].
    intros [d t] (x & Hx & Hxc). exists x. split; [|done].
    cbn [capsuleGenerationJobs set_jobs snd] in *. by apply lookup_app_l_Some.
  - cbn [scheduled set_jobs]. intros Hin. unfold pendingJobs in Hin.
    apply list_elem_of_fmap in Hin as ([d t] & Heq & Hin).
    rewrite Forall_forall in Ht. destruct (Ht _ Hin) as (x & Hx & _).
    apply lookup_lt_Some in Hx. simpl in *. lia.
  - exists job0. cbn [capsuleGenerationJobs set_jobs].
    by rewrite lookup_app_r, Nat.sub_diag.
  - intros c' Hne. destruct (Hd c') as [Hnone Hsole].
    assert (Hsame : forall j', jobOf c' j'
                       (set_jobs (capsuleGenerationJobs (store w) ++ [job0]) (store w))
                     <-> jobOf c' j' (store w)).
    { intros j'. destruct (decide (j' < length (capsuleGenerationJobs (store w)))%nat)
        as [Hlt|Hge]; [by apply Hold|].
      unfold jobOf. cbn [capsuleGenerationJobs set_jobs]. split.
      - intros (x & Hx & Hxc). exfalso.
        rewrite lookup_app_r in Hx by lia.
        destruct (j' - length (capsuleGenerationJobs (store w)))%nat; [|done].
        simpl in Hx. injection Hx as <-. congruence.
      - intros (x & Hx & _). apply lookup_lt_Some in Hx. lia. }
    split.
    + intros H. apply Hnone. intros j' Hj'. apply (H j'). by apply Hsame.
    + intros j0 x Hx Hxc Honly. cbn [capsuleGenerationJobs set_jobs] in Hx.
      assert (Hj0 : jobOf c' j0 (store w)).
      { apply Hsame. by exists x. }
      destruct Hj0 as (x' & Hx' & _).
      rewrite (lookup_app_l_Some _ _ _ _ Hx') in Hx. injection Hx as <-.
      apply (Hsole j0 x' Hx' Hxc). intros j' Hj'. apply Honly. by apply Hsame.
  - intros Honly. destruct (Hd c) as [Hnone _].
    unfold ordersIn, modulesOf in *. cbn [capsuleModules set_jobs]. apply Hnone.
    intros j' Hj'. pose proof Hj' as (x & Hx & _). apply lookup_lt_Some in Hx.
    assert (j' = length (capsuleGenerationJobs (store w))); [|lia].
    apply Honly. by apply Hold.
Qed.

(** The mutations, as triples. *)

Lemma status_at_work j c g k args :
  triple (at_work j c g k) (runMutation (updateCapsuleStatus args))
    (fun _ => at_work j c g k) (at_work j c g k).
Proof.
  apply triple_mutation; [|done]. intros w a st' Hw Hm.
  unfold updateCapsuleStatus in Hm.
  destruct (capsules (store w) !! u_capsuleId args); [|done].
  injection Hm as _ <-. by apply at_work_same.
Qed.

Lemma status_idle j c args :
  triple (idle j c) (runMutation (updateCapsuleStatus args))
    (fun _ => idle j c) (idle j c).
Proof.
  intros w [g Hw]. pose proof (status_at_work j c g g args w Hw) as H.
  destruct (runMutation (updateCapsuleStatus args) w) as [[?|?] ?]; by exists g.
Qed.

(** An update of the running job; it does not throw. *)
Lemma update_at_work j c g k updates E :
  triple (at_work j c g k) (runMutation (updateGenerationJob j updates))
    (fun _ => at_work j c (default g (up_modulesGenerated updates)) k) E.
Proof.
  apply triple_total. intros w Hw.
  pose proof Hw as (_ & _ & (job & Hj & Hc & Hg) & _).
  exists tt. eexists. split; [by apply updateGenerationJob_ok|].
  pose proof (at_work_patch w j c g k job (patchJob updates (now (store w)) job) Hw Hj
                eq_refl) as H.
  simpl in H. by rewrite Hg in H.
Qed.

Lemma update_idle j c updates E :
  up_modulesGenerated updates = None ->
  triple (idle j c) (runMutation (updateGenerationJob j updates)) (fun _ => idle j c) E.
Proof.
  intros Hu w [g Hw]. pose proof (update_at_work j c g g updates E w Hw) as H.
  destruct (runMutation (updateGenerationJob j updates) w) as [[?|?] ?]; [|done].
  exists g. by rewrite Hu in H.
Qed.

Lemma runAfter_orderly j c g d t E :
  taskJob t = j -> taskCapsule t = c -> expects t g ->
  triple (at_work j c g g) (runMutation (runAfter d t)) (fun _ => orderly) E.
Proof.
  intros Ej Ec He. apply triple_total. intros w Hw.
  exists tt. eexists. split; [reflexivity|]. by eapply orderly_enqueue.
Qed.

Local Opaque str decimal.

Lemma finalizeGeneration_orderly capsuleId jobId generationId :
  triple (idle jobId capsuleId) (finalizeGeneration capsuleId jobId generationId)
    (fun _ => orderly) orderly.
Proof.
  unfold finalizeGeneration. eapply triple_try with (E1 := idle jobId capsuleId).
  - eapply triple_bind; [apply status_idle|]. intros ?.
    eapply triple_bind;
      [apply triple_query with (Q := fun _ => idle jobId capsuleId); done|].
    intros t.
    eapply triple_conseq; [by apply update_idle|done| |done].
    intros ? w Hw. cbn beta in Hw. exact (idle_orderly _ _ _ Hw).
  - intros e.
    eapply triple_conseq; [apply status_idle|done| |apply idle_orderly].
    intros ? w Hw. cbn beta in Hw. exact (idle_orderly _ _ _ Hw).
Qed.

Lemma at_work_idle j c g w : at_work j c g g w -> idle j c w.
Proof. intros H. by exists g. Qed.

Lemma generateOutline_orderly JSON_parse env capsuleId jobId generationId :
  triple (at_work jobId capsuleId 0 0)
    (generateOutline JSON_parse env capsuleId jobId generationId)
    (fun _ => orderly) orderly.
Proof.
  unfold generateOutline.
  eapply triple_try with (E1 := idle jobId capsuleId).
  - eapply triple_bind;
      [apply triple_query with (Q := fun _ => at_work jobId capsuleId 0 0); done|].
    intros [capsule|]; [|apply triple_throw; apply at_work_idle].
    destruct (generateCapsuleOutlineAI JSON_parse env) as [outline|e].
    2:{ rewrite bind_lift_throw. apply triple_throw. apply at_work_idle. }
    rewrite bind_lift_ok.
    destruct (member "error" outline) as [error|e].
    2:{ rewrite bind_lift_throw. apply triple_throw. apply at_work_idle. }
    rewrite bind_lift_ok.
    destruct (is_truthy error).
    { destruct (requiredString _) as [errorMessage|e].
      2:{ rewrite bind_lift_throw. apply triple_throw. apply at_work_idle. }
      rewrite bind_lift_ok.
      eapply triple_conseq; [apply status_at_work|done| |apply at_work_idle].
      intros ? w Hw. cbn beta in Hw. exact (at_work_orderly _ _ _ _ Hw). }
    cbn zeta.
    destruct (outlineModules outline) as [modules|e].
    2:{ rewrite bind_lift_throw. apply triple_throw. apply at_work_idle. }
    rewrite bind_lift_ok.
    destruct (lessonSum modules (Number (Exactly 0))) as [totalLessons|e].
    2:{ rewrite bind_lift_throw. apply triple_throw. apply at_work_idle. }
    rewrite bind_lift_ok.
    destruct (outlineArguments _ _ _ _) as [arguments|e].
    2:{ rewrite bind_lift_throw. apply triple_throw. apply at_work_idle. }
    rewrite bind_lift_ok.
    eapply triple_bind.
    { eapply triple_conseq; [apply status_at_work|done|done|apply at_work_idle]. }
    intros ?.
    eapply triple_bind; [apply update_at_work|]. intros ?. cbn [up_modulesGenerated default].
    destruct (0 <? _)%nat.
    + by apply (runAfter_orderly jobId capsuleId 0).
    + eapply triple_bind.
      { eapply triple_conseq; [apply status_at_work|done|done|apply at_work_idle]. }
      intros ?.
      eapply triple_bind;
        [apply triple_query with (Q := fun _ => at_work jobId capsuleId 0 0); done|].
      intros t.
      eapply triple_conseq; [apply update_at_work|done| |done].
      intros ? w Hw. cbn beta in Hw. exact (at_work_orderly _ _ _ _ Hw).
  - intros e.
    eapply triple_bind.
    { eapply triple_conseq; [apply (status_idle jobId capsuleId)|done|done
                            |apply idle_orderly]. }
    intros ?.
    eapply triple_conseq; [by apply update_idle|done| |done].
    intros ? w Hw. cbn beta in Hw. exact (idle_orderly _ _ _ Hw).
Qed.

Lemma moduleArguments_order moduleContent moduleOutline moduleIndex arguments :
  moduleArguments moduleContent moduleOutline moduleIndex = Ok arguments ->
  md_order (fst arguments) = moduleIndex.
Proof.
  destruct arguments as [data lessons]. intros H.
  by destruct (moduleArguments_content _ _ _ _ _ H) as [Ho _].
Qed.

Lemma generateModuleContent_orderly JSON_parse env capsuleId jobId generationId
    moduleIndex outline :
  triple (at_work jobId capsuleId moduleIndex moduleIndex)
    (generateModuleContent JSON_parse env capsuleId jobId generationId moduleIndex outline)
    (fun _ => orderly) orderly.
Proof.
  unfold generateModuleContent.
  eapply triple_try with (E1 := at_work jobId capsuleId moduleIndex moduleIndex).
  - cbn zeta.
    destruct (Outline.modules outline !! moduleIndex) as [moduleOutline|];
      [|by apply triple_throw].
    destruct (negb (truthy moduleOutline)); [by apply triple_throw|].
    eapply triple_bind;
      [apply triple_query
         with (Q := fun _ => at_work jobId capsuleId moduleIndex moduleIndex); done|].
    intros [capsule|]; [|by apply triple_throw].
    destruct (generateModuleContentAI JSON_parse env _) as [moduleContent|e].
    2:{ rewrite bind_lift_throw. by apply triple_throw. }
    rewrite bind_lift_ok.
    destruct (moduleArguments moduleContent moduleOutline moduleIndex)
      as [arguments|e] eqn:Hargs.
    2:{ rewrite bind_lift_throw. by apply triple_throw. }
    rewrite bind_lift_ok.
    apply moduleArguments_order in Hargs.
    eapply triple_bind
      with (Q1 := fun _ => at_work jobId capsuleId moduleIndex (S moduleIndex)).
    { apply triple_total. intros w Hw. eexists _, _. split; [reflexivity|].
      by eapply at_work_save. }
    intros ?.
    eapply triple_bind; [apply update_at_work|]. intros ?.
    cbn [up_modulesGenerated default].
    replace (moduleIndex + 1)%nat with (S moduleIndex) by lia.
    destruct (_ <=? _)%nat.
    + by apply (runAfter_orderly jobId capsuleId (S moduleIndex)).
    + by apply (runAfter_orderly jobId capsuleId (S moduleIndex)).
  - intros e.
    eapply triple_bind;
      [apply triple_query
         with (Q := fun _ => at_work jobId capsuleId moduleIndex moduleIndex); done|].
    intros job.
    destruct (_ <? 3)%nat.
    + eapply triple_bind; [apply update_at_work|]. intros ?.
      cbn [up_modulesGenerated default].
      by apply (runAfter_orderly jobId capsuleId moduleIndex).
    + eapply triple_bind.
      { eapply triple_conseq;
          [apply status_at_work|done|done|apply at_work_orderly]. }
      intros ?.
      eapply triple_conseq; [apply update_at_work|done| |done].
      intros ? w Hw. cbn beta in Hw. exact (at_work_orderly _ _ _ _ Hw).
Qed.

Lemma generateCapsuleContent_orderly generationId capsuleId :
  triple orderly (generateCapsuleContent generationId capsuleId)
    (fun _ => orderly) orderly.
Proof.
  unfold generateCapsuleContent.
  eapply triple_bind; [apply triple_query with (Q := fun _ => orderly); done|].
  intros [capsule|]; [|by apply triple_throw].
  destruct (_ && _); [by apply triple_ret|].
  eapply triple_bind with (Q1 := fun jobId => at_work jobId capsuleId 0 0).
  { apply triple_total. intros w Hw. eexists _, _. split; [reflexivity|].
    by apply at_work_create. }
  intros jobId.
  eapply triple_bind.
  { eapply triple_conseq; [apply status_at_work|done|done|apply at_work_orderly]. }
  intros ?.
  eapply triple_bind; [by apply (runAfter_orderly jobId capsuleId 0)|].
  intros ?. by apply triple_ret.
Qed.

Lemma exec_orderly JSON_parse e w : orderly w -> orderly (exec JSON_parse e w).
Proof.
  intros Hw. destruct e as [args|args|generationId capsuleId|k env|dt]; cbn [exec].
  - unfold runMutation. destruct (createCapsule args (store w)) as [[a st']|?] eqn:Hm;
      [|done]. cbn [snd]. unfold createCapsule in Hm.
    repeat (destruct (_ : bool) in Hm; [done|]).
    injection Hm as _ <-. by apply orderly_same.
  - unfold runMutation.
    destruct (updateCapsuleStatus args (store w)) as [[a st']|?] eqn:Hm; [|done].
    cbn [snd]. unfold updateCapsuleStatus in Hm.
    destruct (capsules (store w) !! u_capsuleId args); [|done].
    injection Hm as _ <-. by apply orderly_same.
  - pose proof (generateCapsuleContent_orderly generationId capsuleId w Hw) as H.
    by destruct (generateCapsuleContent generationId capsuleId w) as [[?|?] ?].
  - destruct (scheduled (store w) !! k) as [[d task]|] eqn:Hk; [|done].
    destruct (at_work_dequeue w k d task Hw Hk) as (g & He & Hwork).
    unfold bind, runMutation, dequeue. cbn [fst snd].
    set (w1 := commit (set_scheduled (delete k (scheduled (store w))) (store w)) w) in *.
    assert (T : triple (fun w' => w' = w1) (runTask JSON_parse env task)
                  (fun _ => orderly) orderly).
    { destruct task as [c j gid|c j gid i outline|c j gid]; cbn [runTask];
        simpl in He, Hwork.
      - subst g. eapply triple_weaken; [|apply generateOutline_orderly].
        by intros w' ->.
      - subst g. eapply triple_weaken; [|apply generateModuleContent_orderly].
        by intros w' ->.
      - eapply triple_weaken; [|apply finalizeGeneration_orderly].
        intros w' ->. by exists g. }
    specialize (T w1 eq_refl).
    by destruct (runTask JSON_parse env task w1) as [[?|?] ?].
  - unfold runMutation, advance. cbn [snd]. by apply orderly_same.
Qed.

Local Transparent str decimal.

Lemma timeline_orderly JSON_parse events : orderly (timeline JSON_parse events).
Proof.
  unfold timeline.
  assert (H : orderly initial).
  { split; [split; constructor|]. intros c. split; [done|].
    intros j job Hj. done. }
  revert H. generalize initial. induction events as [|e events IH]; intros w Hw.
  - done.
  - simpl. apply IH. by apply exec_orderly.
Qed.

(** X29. After any sequence of events, a capsule that has no generation job
    has no stored module, and a capsule with a single generation job has
    modules whose orders are, in storage order, 0, 1, ..., one for each
    module the job has counted: unique and without gaps.  (With a second
    job, that of a retry, the modules of the first attempt are still there
    and the orders repeat.) *)
Theorem first_generation_orders_are_dense
    (JSON_parse : jsstring -> outcome json) (events : list Event) (capsuleId : nat) :
  let st := store (timeline JSON_parse events) in
  ((forall jobId, ~ jobOf capsuleId jobId st) -> modulesOf capsuleId st = [])
  /\ (forall jobId job,
        capsuleGenerationJobs st !! jobId = Some job ->
        Job.capsuleId job = capsuleId ->
        onlyJob capsuleId jobId st ->
        CapsuleModule.order <$> modulesOf capsuleId st
        = seq 0 (Job.modulesGenerated job)).
Proof.
  cbn zeta. destruct (timeline_orderly JSON_parse events) as [_ Hd].
  destruct (Hd capsuleId) as [Hnone Hsole]. split; [|exact Hsole].
  intros H. specialize (Hnone H). unfold ordersIn in Hnone.
  by apply fmap_nil_inv in Hnone.
Qed.

Lemma first_generation_orders_are_dense_witness :
  CapsuleModule.order <$> modulesOf 0 (store (timeline JSON_parse finished))
  = [0; 1]%nat.
Proof.
  destruct (first_generation_orders_are_dense JSON_parse finished 0%nat) as [_ H].
  assert (Hj : exists job,
             capsuleGenerationJobs (store (timeline JSON_parse finished)) !! 0%nat
             = Some job
             /\ Job.capsuleId job = 0%nat /\ Job.modulesGenerated job = 2%nat).
  { eexists. split; [vm_compute; reflexivity|]. split; reflexivity. }
  destruct Hj as (job & Hj & Hc & Hg).
  assert (Hn : length (capsuleGenerationJobs (store (timeline JSON_parse finished)))
               = 1%nat) by (vm_compute; reflexivity).
  cbn zeta in H. rewrite (H 0%nat job Hj Hc).
  - by rewrite Hg.
  - intros j (x & Hx & _). apply lookup_lt_Some in Hx. lia.
Defined.

End OrderFacts.
